(** * iCAM06 tone-mapping operator: a shallow embedding and its properties

    The development follows the Go sources of the repository:
    - [hdrcolor/color.go]: the three HDR colour variants and the [Color]
      capability set;
    - the iCAM06 operator of package [tmo]: construction, the luminance
      scan, the input normaliser, tone compression over the shared
      white-point raster, the final normaliser and its percentile table.

    [float64] values are IEEE-754 binary64 numbers, modelled by the
    Standard Library's [spec_float] with precision 53 and maximal exponent
    1024; every arithmetic operation rounds to nearest-even exactly as the
    hardware does, each operation on its own (no fused multiply-add).
    Runtime panics of Go (index out of range, nil interface) are the
    [Panic] outcome of a small error monad.  What the sources take from
    outside (the standard library's [math.Pow], [math.Exp] and [sort.Sort],
    go-colorful, the filters and the colour-space conversions) enters as
    type classes. *)

From Stdlib Require Import ZArith Lia Bool List.
From Stdlib Require Import SpecFloat.
From stdpp Require Import base option list gmap.

Local Open Scope Z_scope.

(* ===================================================================== *)
(** * float64 *)
(* ===================================================================== *)

Module F64.

Definition prec : Z := 53.
Definition emax : Z := 1024.

Definition float64 : Type := spec_float.

Definition add : float64 -> float64 -> float64 := SFadd prec emax.
Definition sub : float64 -> float64 -> float64 := SFsub prec emax.
Definition mul : float64 -> float64 -> float64 := SFmul prec emax.
Definition div : float64 -> float64 -> float64 := SFdiv prec emax.

(** Go's comparison operators on float64: every comparison with a NaN
    operand is false. *)
Definition ltb (x y : float64) : bool := SFltb x y.
Definition leb (x y : float64) : bool := SFleb x y.
Definition gtb (x y : float64) : bool := SFltb y x.
Definition geb (x y : float64) : bool := SFleb y x.
Definition eqb (x y : float64) : bool := SFeqb x y.

(** [float64(n)] for an integer [n]. *)
Definition of_Z (n : Z) : float64 := binary_normalize prec emax n 0 false.

(** A decimal literal [num/den], both exactly representable: the
    correctly rounded quotient is the correctly rounded literal. *)
Definition lit (num den : Z) : float64 := div (of_Z num) (of_Z den).

Definition zero : float64 := S754_zero false.
Definition one : float64 := of_Z 1.
Definition NaN : float64 := S754_nan.
Definition Inf (neg : bool) : float64 := S754_infinity neg.

Definition is_nan (x : float64) : bool :=
  match x with S754_nan => true | _ => false end.
Definition is_finite (x : float64) : bool :=
  match x with S754_zero _ | S754_finite _ _ _ => true | _ => false end.
Definition Signbit (x : float64) : bool :=
  match x with
  | S754_zero s | S754_infinity s | S754_finite s _ _ => s
  | S754_nan => false
  end.

(** [math.IsNaN], [math.IsInf(x, sign)], [math.Abs]. *)
Definition IsNaN (x : float64) : bool := is_nan x.
Definition IsInf (x : float64) (sign : Z) : bool :=
  match x with
  | S754_infinity s => if s then sign <=? 0 else 0 <=? sign
  | _ => false
  end.
Definition Abs : float64 -> float64 := SFabs.

(** [math.Max] and [math.Min], special cases first as in Go's [math]
    package. *)
Definition Max (x y : float64) : float64 :=
  if IsInf x 1 || IsInf y 1 then Inf false
  else if IsNaN x || IsNaN y then NaN
  else if eqb x zero && eqb x y then (if Signbit x then y else x)
  else if gtb x y then x else y.

Definition Min (x y : float64) : float64 :=
  if IsInf x (-1) || IsInf y (-1) then Inf true
  else if IsNaN x || IsNaN y then NaN
  else if eqb x zero && eqb x y then (if Signbit x then x else y)
  else if ltb x y then x else y.

(** The integer part of a finite value, rounding toward zero. *)
Definition trunc (x : float64) : option Z :=
  match x with
  | S754_zero _ => Some 0
  | S754_finite s m e =>
      let a := if 0 <=? e then Z.pos m * 2 ^ e else Z.pos m / 2 ^ (- e) in
      Some (if s then - a else a)
  | _ => None
  end.

End F64.

Export F64.

(* ===================================================================== *)
(** * The Go runtime: panics, conversions, the standard library *)
(* ===================================================================== *)

Module Go.

(** A computation either returns or panics at run time (index out of
    range, method call on a nil interface). *)
Inductive outcome (A : Type) : Type :=
| Ok (a : A)
| Panic.
Arguments Ok {A} a.
Arguments Panic {A}.

#[export] Instance outcome_ret : MRet outcome := fun A a => Ok a.
#[export] Instance outcome_bind : MBind outcome := fun A B f m =>
  match m with Ok a => f a | Panic => Panic end.
#[export] Instance outcome_fmap : FMap outcome := fun A B f m =>
  match m with Ok a => Ok (f a) | Panic => Panic end.

(** The value of a float-to-integer conversion whose operand does not fit
    the target type is left to the implementation. *)
Class Platform := {
  int_unrepresentable : float64 -> Z;
  uint16_unrepresentable : float64 -> Z
}.

(** [math.Pow] and [math.Exp] of the standard library. *)
Class Math := {
  Pow : float64 -> float64 -> float64;
  Exp : float64 -> float64
}.

(** [sort.Sort] on a float64 slice ordered by [<]. *)
Class Sorting := {
  Sort : list float64 -> list float64
}.

(** [math.Sqrt] is correctly rounded. *)
Definition Sqrt : float64 -> float64 := SFsqrt prec emax.

Section Conversions.
Context `{Platform}.

(** [int(f)]: the fraction is discarded; [int] has 64 bits. *)
Definition int (f : float64) : Z :=
  match trunc f with
  | Some z => if (- 2 ^ 63 <=? z) && (z <? 2 ^ 63) then z else int_unrepresentable f
  | None => int_unrepresentable f
  end.

(** [uint16(f)]. *)
Definition uint16 (f : float64) : Z :=
  match trunc f with
  | Some z => if (0 <=? z) && (z <? 2 ^ 16) then z else uint16_unrepresentable f
  | None => uint16_unrepresentable f
  end.

End Conversions.

(** Arithmetic on [int]: the result wraps around in 64 bits, without a
    panic. *)
Definition wrap (z : Z) : Z := (z + 2 ^ 63) mod 2 ^ 64 - 2 ^ 63.

Definition int_mul (a b : Z) : Z := wrap (a * b).
Definition int_add (a b : Z) : Z := wrap (a + b).

(** [s[i]] and [s[i] = v] on a slice. *)
Definition index {A : Type} (s : list A) (i : Z) : outcome A :=
  if (0 <=? i) && (i <? Z.of_nat (length s)) then
    match s !! Z.to_nat i with Some a => Ok a | None => Panic end
  else Panic.

Definition assign {A : Type} (s : list A) (i : Z) (v : A) : outcome (list A) :=
  if (0 <=? i) && (i <? Z.of_nat (length s)) then Ok (<[Z.to_nat i := v]> s)
  else Panic.

End Go.

Export Go.

(* ===================================================================== *)
(** * Package image (standard library) *)
(* ===================================================================== *)

Module image.

Record Rectangle := mkRect { MinX : Z; MinY : Z; MaxX : Z; MaxY : Z }.

Definition Dx (r : Rectangle) : Z := MaxX r - MinX r.
Definition Dy (r : Rectangle) : Z := MaxY r - MinY r.

(** [color.RGBA64] and the pixels of an [image.RGBA64]; [SetRGBA64]
    ignores a point outside the bounds. *)
Record RGBA64 := mkRGBA64 { R : Z; G : Z; B : Z; A : Z }.

Record RGBA64Image := mkRGBA64Image { Rect : Rectangle; Pix : gmap (Z * Z) RGBA64 }.

Definition In (x y : Z) (r : Rectangle) : bool :=
  (MinX r <=? x) && (x <? MaxX r) && (MinY r <=? y) && (y <? MaxY r).

Definition NewRGBA64 (r : Rectangle) : RGBA64Image := mkRGBA64Image r ∅.

Definition SetRGBA64 (m : RGBA64Image) (x y : Z) (c : RGBA64) : RGBA64Image :=
  if In x y (Rect m) then mkRGBA64Image (Rect m) (<[(x, y) := c]> (Pix m)) else m.

End image.

(* ===================================================================== *)
(** * Package util *)
(* ===================================================================== *)

Module util.
Import image.

(** Modelled from the spec: [util.Clamp(min, max, value)] is not among the
    sources.  The spec has every tunable and every channel "clamped" into
    its range, and has a NaN quotient pass through the [0, 1] clamp of the
    final clipping into the output encoding: a value below the range
    becomes the lower bound, a value above it the upper bound, anything
    else (a value inside the range, or NaN, for which both comparisons
    are false) is returned as it is. *)
Definition Clamp (min max value : float64) : float64 :=
  if ltb value min then min
  else if gtb value max then max
  else value.

(** The points visited by the loop nest every tile task is written as:
    [for y := y1; y < y2; y++ { for x := x1; x < x2; x++ { ... } }]. *)
Definition scan (r : Rectangle) : list (Z * Z) :=
  flat_map (fun y => map (fun x => (x, y)) (seqZ (MinX r) (Dx r)))
           (seqZ (MinY r) (Dy r)).

(** Modelled from the spec: [util.ParallelR(bounds, task)] is not among the
    sources.  The spec has it run one task per tile of the bounds, the tiles
    disjoint rectangles processed in parallel, and signal completion once
    every tile has finished.  A task is the list of atomic actions it still
    has to perform together with its local variables; [exec] performs one
    action on the state shared by all tasks.  A run follows a schedule, the
    list of the tasks that take the successive steps (a step of a finished
    or absent task is void); when the schedule is used up the remaining
    tasks are completed one after the other, so that every run ends with
    all tasks finished. *)
Section ParallelR.
Context {State Local Action : Type}.
Variable exec : Action -> State -> Local -> State * Local.

Record task := Task { pending : list Action; locals : Local }.

Definition step (s : State) (t : task) : State * task :=
  match pending t with
  | [] => (s, t)
  | a :: rest => let '(s', l') := exec a s (locals t) in (s', Task rest l')
  end.

Fixpoint complete (acts : list Action) (s : State) (l : Local) : State * Local :=
  match acts with
  | [] => (s, l)
  | a :: rest => let '(s', l') := exec a s l in complete rest s' l'
  end.

Fixpoint drain (ts : list task) (s : State) : State :=
  match ts with
  | [] => s
  | t :: rest => drain rest (fst (complete (pending t) s (locals t)))
  end.

Fixpoint run (sched : list nat) (ts : list task) (s : State) : State :=
  match sched with
  | [] => drain ts s
  | k :: sched' =>
      match ts !! k with
      | None => run sched' ts s
      | Some t => let '(s', t') := step s t in run sched' (<[k := t']> ts) s'
      end
  end.

End ParallelR.

(** The tiles of one call and the order its tasks are scheduled in. *)
Record parallel := Parallel { tiles : list Rectangle; schedule : list nat }.

(** The tiles partition the bounds: every point of the bounds lies in
    exactly one tile. *)
Definition partition (bounds : Rectangle) (ts : list Rectangle) : Prop :=
  flat_map scan ts ≡ₚ scan bounds.

End util.

(* ===================================================================== *)
(** * Package hdrcolor *)
(* ===================================================================== *)

Module hdrcolor.

(** The two conversions of the external package go-colorful. *)
Class Colorful := {
  LinearRgbToXyz : float64 -> float64 -> float64 -> float64 * float64 * float64;
  XyzToLinearRgb : float64 -> float64 -> float64 -> float64 * float64 * float64
}.

(** The four results of a capability method. *)
Record quad := Quad { q1 : float64; q2 : float64; q3 : float64; qa : float64 }.

(** The untyped constant 0xFFFF converted to float64. *)
Definition alpha_opaque : float64 := of_Z 65535.

(** The interface [Color] (the methods the operator uses). *)
Class Color (T : Type) := {
  HDRRGBA : T -> quad;
  HDRXYZA : T -> quad;
  HDRPixel : T -> quad
}.

Record RGB := mkRGB { RGB_R : float64; RGB_G : float64; RGB_B : float64 }.
Record XYZ := mkXYZ { XYZ_X : float64; XYZ_Y : float64; XYZ_Z : float64 }.
Record RAW := mkRAW { RAW_P1 : float64; RAW_P2 : float64; RAW_P3 : float64 }.

Section Variants.
Context `{Colorful}.

Definition RGB_HDRRGBA (c : RGB) : quad :=
  Quad (RGB_R c) (RGB_G c) (RGB_B c) alpha_opaque.

Definition RGB_HDRXYZA (c : RGB) : quad :=
  let '(x, y, z) := LinearRgbToXyz (RGB_R c) (RGB_G c) (RGB_B c) in
  Quad x y z alpha_opaque.

Definition RGB_HDRPixel (c : RGB) : quad := RGB_HDRRGBA c.

Definition XYZ_HDRRGBA (c : XYZ) : quad :=
  let '(r, g, b) := XyzToLinearRgb (XYZ_X c) (XYZ_Y c) (XYZ_Z c) in
  Quad r g b alpha_opaque.

Definition XYZ_HDRXYZA (c : XYZ) : quad :=
  Quad (XYZ_X c) (XYZ_Y c) (XYZ_Z c) alpha_opaque.

Definition XYZ_HDRPixel (c : XYZ) : quad := XYZ_HDRXYZA c.

Definition RAW_HDRPixel (c : RAW) : quad :=
  Quad (RAW_P1 c) (RAW_P2 c) (RAW_P3 c) alpha_opaque.

Definition RAW_HDRRGBA (c : RAW) : quad := RAW_HDRPixel c.

Definition RAW_HDRXYZA (c : RAW) : quad := RAW_HDRPixel c.

#[export] Instance RGB_Color : Color RGB :=
  {| HDRRGBA := RGB_HDRRGBA; HDRXYZA := RGB_HDRXYZA; HDRPixel := RGB_HDRPixel |}.
#[export] Instance XYZ_Color : Color XYZ :=
  {| HDRRGBA := XYZ_HDRRGBA; HDRXYZA := XYZ_HDRXYZA; HDRPixel := XYZ_HDRPixel |}.
#[export] Instance RAW_Color : Color RAW :=
  {| HDRRGBA := RAW_HDRRGBA; HDRXYZA := RAW_HDRXYZA; HDRPixel := RAW_HDRPixel |}.

(** A value of interface type [Color]: one of the three variants,
    dispatched on its dynamic type. *)
Inductive color := CRGB (c : RGB) | CXYZ (c : XYZ) | CRAW (c : RAW).

#[export] Instance color_Color : Color color :=
  {| HDRRGBA c := match c with
                  | CRGB c => HDRRGBA c | CXYZ c => HDRRGBA c | CRAW c => HDRRGBA c
                  end;
     HDRXYZA c := match c with
                  | CRGB c => HDRXYZA c | CXYZ c => HDRXYZA c | CRAW c => HDRXYZA c
                  end;
     HDRPixel c := match c with
                   | CRGB c => HDRPixel c | CXYZ c => HDRPixel c | CRAW c => HDRPixel c
                   end |}.
End Variants.

(** The colour-space conversions of this package that the operator calls;
    their file is not among the sources, and the operator only composes
    them, so they are taken as they come. *)
Class Conversions := {
  XyzToLmsMcat02 : float64 -> float64 -> float64 -> float64 * float64 * float64;
  LmsMcat02ToXyz : float64 -> float64 -> float64 -> float64 * float64 * float64;
  XyzToLmsMhpe : float64 -> float64 -> float64 -> float64 * float64 * float64;
  LmsMhpeToXyz : float64 -> float64 -> float64 -> float64 * float64 * float64;
  XyzToLms : float64 -> float64 -> float64 -> float64 * float64 * float64;
  LmsToXyz : float64 -> float64 -> float64 -> float64 * float64 * float64;
  LmsToIpt : float64 -> float64 -> float64 -> float64 * float64 * float64;
  IptToLms : float64 -> float64 -> float64 -> float64 * float64 * float64
}.

(** ** The methods [RGBA] and the colour models *)

(** [uint32(f)]; the value of a conversion whose operand does not fit is
    left to the implementation. *)
Class Platform32 := {
  uint32_unrepresentable : float64 -> Z
}.

Definition uint32 `{Platform32} (f : float64) : Z :=
  match trunc f with
  | Some z => if (0 <=? z) && (z <? 2 ^ 32) then z else uint32_unrepresentable f
  | None => uint32_unrepresentable f
  end.

(** The four results of [RGBA]. *)
Record rgba32 := Rgba32 { r32 : Z; g32 : Z; b32 : Z; a32 : Z }.

Section Models.
Context `{Platform32} `{Colorful}.

Definition RGB_RGBA (c : RGB) : rgba32 :=
  Rgba32 (uint32 (mul (RGB_R c) (of_Z 65535)))
         (uint32 (mul (RGB_G c) (of_Z 65535)))
         (uint32 (mul (RGB_B c) (of_Z 65535)))
         65535.

Definition XYZ_RGBA (c : XYZ) : rgba32 :=
  let q := XYZ_HDRRGBA c in
  Rgba32 (uint32 (mul (q1 q) (of_Z 65535)))
         (uint32 (mul (q2 q) (of_Z 65535)))
         (uint32 (mul (q3 q) (of_Z 65535)))
         (uint32 (mul (qa q) (of_Z 65535))).

Definition RAW_RGBA (c : RAW) : rgba32 :=
  let q := RAW_HDRRGBA c in
  Rgba32 (uint32 (mul (q1 q) (of_Z 65535)))
         (uint32 (mul (q2 q) (of_Z 65535)))
         (uint32 (mul (q3 q) (of_Z 65535)))
         (uint32 (mul (qa q) (of_Z 65535))).

(** A value of interface type [color.Color]: a colour of this package, or
    a colour of another package, of which only the results of [RGBA] are
    seen. *)
Inductive any_color :=
| HDR (c : color)
| LDR (r g b a : Z).

Definition rgbModel (c : any_color) : any_color :=
  match c with
  | HDR (CRGB _) => c
  | HDR hdrc =>
      let q := HDRRGBA hdrc in
      HDR (CRGB (mkRGB (q1 q) (q2 q) (q3 q)))
  | LDR r g b _ => HDR (CRGB (mkRGB (of_Z r) (of_Z g) (of_Z b)))
  end.

Definition xyzModel (c : any_color) : any_color :=
  match c with
  | HDR (CXYZ _) => c
  | HDR hdrc =>
      let q := HDRRGBA hdrc in
      let '(x, y, z) := LinearRgbToXyz (q1 q) (q2 q) (q3 q) in
      HDR (CXYZ (mkXYZ x y z))
  | LDR r g b _ =>
      let '(x, y, z) := LinearRgbToXyz (of_Z r) (of_Z g) (of_Z b) in
      HDR (CXYZ (mkXYZ x y z))
  end.

End Models.

End hdrcolor.

(* ===================================================================== *)
(** * Package hdr *)
(* ===================================================================== *)

Module hdr.
Import image hdrcolor.

(** Modelled from the spec: the interface [hdr.Image] is not among the
    sources.  The spec has an image be a grid of pixel colours queried by
    (x, y), with fixed bounds and a pixel count. *)
Record Image := mkImage { Bounds : Rectangle; HDRAt : Z -> Z -> color }.

Definition Size (m : Image) : Z := Dx (Bounds m) * Dy (Bounds m).

(** Modelled from the spec: the raster behind [hdr.ImageSet] is not among
    the sources.  It stores one colour per point of its bounds; following
    the standard library's rasters, [HDRAt] outside the bounds yields the
    zero colour and [Set] outside the bounds does nothing.

    Each cell carries, as ghost information, the logical image its current
    colour belongs to: the storage of the local-white-point image is reused
    for the tone-compressed image. *)
Inductive content := WhitePoint | ToneCompressed.

Record cell := Cell { holds : content; value : color }.

Record Raster := mkRaster { RBounds : Rectangle; Cells : gmap (Z * Z) cell }.

Definition zero_color : color := CXYZ (mkXYZ zero zero zero).

Definition RasterAt (r : Raster) (x y : Z) : color :=
  match Cells r !! (x, y) with Some c => value c | None => zero_color end.

Definition RasterSet (r : Raster) (x y : Z) (c : cell) : Raster :=
  if In x y (RBounds r) then mkRaster (RBounds r) (<[(x, y) := c]> (Cells r)) else r.

(** The raster holding a copy of an image, every cell labelled [h]. *)
Definition rasterize (h : content) (m : Image) : Raster :=
  mkRaster (Bounds m)
    (list_to_map (map (fun p => (p, Cell h (HDRAt m p.1 p.2))) (util.scan (Bounds m)))).

(** A raster seen through the interface [hdr.Image]. *)
Definition view (r : Raster) : Image := mkImage (RBounds r) (RasterAt r).

(** Modelled from the spec: [hdr.NewLMSCAT02w(m).HDRAt(x, y).HDRPixel()] is
    not among the sources.  The spec obtains the cone-response triple of a
    pixel "via the CAT02 cone transform". *)
Definition LMSCAT02w `{Colorful} `{Conversions} (c : color) : float64 * float64 * float64 :=
  let q := HDRXYZA c in XyzToLmsMcat02 (q1 q) (q2 q) (q3 q).

End hdr.

(* ===================================================================== *)
(** * Package filter *)
(* ===================================================================== *)

Module filter.
Import image hdrcolor hdr.

(** The blurs and the log-domain wrappers of this package; their files are
    not among the sources, and the spec has them be transforms from images
    to images. *)
Class Filters := {
  NewLog10 : Image -> Image;
  YFastBilateralAuto : Image -> float64 -> Image;
  NewPow10 : Image -> Image;
  FastGaussian : Image -> Z -> Image
}.

(** Modelled from the spec: [filter.NewApply1] and [filter.NewApply2] are
    not among the sources.  The spec has them be per-pixel maps; the
    function of [NewApply1] ignores its second argument. *)
Definition NewApply1 (m : Image) (fn : color -> color -> color) : Image :=
  mkImage (Bounds m) (fun x y => fn (HDRAt m x y) (HDRAt m x y)).

Definition NewApply2 (m1 m2 : Image) (fn : color -> color -> color) : Image :=
  mkImage (Bounds m1) (fun x y => fn (HDRAt m1 x y) (HDRAt m2 x y)).

End filter.


(* ===================================================================== *)
(** * Package tmo: the iCAM06 operator *)
(* ===================================================================== *)

Module tmo.
Import image util hdrcolor hdr filter.

Declare Scope f64_scope.
Delimit Scope f64_scope with F.
Infix "+" := add : f64_scope.
Infix "-" := sub : f64_scope.
Infix "*" := mul : f64_scope.
Infix "/" := div : f64_scope.
Notation "- x" := (SFopp x) : f64_scope.

Definition maxLum : float64 := of_Z 20000.
Definition surroundFactor : float64 := of_Z 1.

Definition xyzD65 : float64 * float64 * float64 :=
  (lit 96047 1000, of_Z 100, lit 108883 1000).

(** [init]: the D65 white point in CAT02. *)
Definition cat02D65 `{Conversions} : float64 * float64 * float64 :=
  let '(x, y, z) := xyzD65 in XyzToLmsMcat02 x y z.

(** Modelled from the spec: the constant [RangeMax] and the helper [WoB]
    are declared in a file of the package that is not among the sources.
    The spec scales the encoded channel "to the 16-bit output range, with
    full alpha", and selects the linear segment or the power law of the
    transfer function by the side of the threshold the channel lies on. *)
Definition RangeMax : Z := 65535.

Definition WoB (b : bool) : float64 := if b then of_Z 1 else zero.

(** The struct [ICam06]; a nil image is [None]. *)
Module ICam06.
Record t := mk {
  HDRImage : Image;
  Contrast : float64;
  MinClipping : float64;
  MaxClipping : float64;
  width : Z;
  height : Z;
  maxLum : float64;
  normalized : option Image;
  baseLayer : option Image;
  white : option Raster;
  detailCombined : option Image
}.

Definition set_maxLum (v : float64) (o : t) : t :=
  mk (HDRImage o) (Contrast o) (MinClipping o) (MaxClipping o) (width o) (height o)
     v (normalized o) (baseLayer o) (white o) (detailCombined o).
Definition set_normalized (v : option Image) (o : t) : t :=
  mk (HDRImage o) (Contrast o) (MinClipping o) (MaxClipping o) (width o) (height o)
     (maxLum o) v (baseLayer o) (white o) (detailCombined o).
Definition set_baseLayer (v : option Image) (o : t) : t :=
  mk (HDRImage o) (Contrast o) (MinClipping o) (MaxClipping o) (width o) (height o)
     (maxLum o) (normalized o) v (white o) (detailCombined o).
Definition set_white (v : option Raster) (o : t) : t :=
  mk (HDRImage o) (Contrast o) (MinClipping o) (MaxClipping o) (width o) (height o)
     (maxLum o) (normalized o) (baseLayer o) v (detailCombined o).
Definition set_detailCombined (v : option Image) (o : t) : t :=
  mk (HDRImage o) (Contrast o) (MinClipping o) (MaxClipping o) (width o) (height o)
     (maxLum o) (normalized o) (baseLayer o) (white o) v.
End ICam06.

(** A method call on an image field; the call panics on a nil field. *)
Definition field_HDRAt (f : option Image) (x y : Z) : outcome color :=
  match f with Some m => Ok (HDRAt m x y) | None => Panic end.

Definition NewICam06 (m : Image) (contrast minClipping maxClipping : float64) : ICam06.t :=
  ICam06.mk m
    (Clamp (lit 6 10) (lit 85 100) contrast)
    (Clamp zero (of_Z 1) minClipping)
    (Clamp zero (of_Z 1) maxClipping)
    (Dx (Bounds m)) (Dy (Bounds m))
    zero None None None None.

Definition NewDefaultICam06 (m : Image) : ICam06.t :=
  NewICam06 m (lit 75 100) (lit 1 100) (lit 99 100).

Definition clampToZero (x : float64) : float64 :=
  if IsNaN x || IsInf x (-1) || IsInf x 1 then zero else x.

Definition minDim (t : ICam06.t) : Z :=
  if ICam06.width t <? ICam06.height t then ICam06.width t else ICam06.height t.

Definition maxDim (t : ICam06.t) : Z :=
  if ICam06.height t <? ICam06.width t then ICam06.width t else ICam06.height t.

Section Operator.
Context `{Platform} `{Math} `{Sorting} `{Colorful} `{Conversions} `{Filters}.

(** ** Stage 1: the luminance scan

    A tile task keeps a local [max], overwritten at every pixel with
    [math.Max(t.maxLum, lum)], and sends it when its loops end; the
    receiving loop of [luminance] folds what it receives into the field
    [t.maxLum].  The channel is unbuffered, so a send and its receipt are
    one step ([Send]); the field is shared between the tasks, which read
    it, and the receiving loop, which writes it. *)
Inductive lum_action := Scan (x y : Z) | Send.

Definition lum_exec (m : Image) (a : lum_action) (field : float64) (max : float64)
  : float64 * float64 :=
  match a with
  | Scan x y =>
      let lum := q2 (HDRXYZA (HDRAt m x y)) in
      (field, Max field lum)
  | Send => (Max field max, max)
  end.

Definition lum_task (r : Rectangle) : task :=
  Task (map (fun p => Scan p.1 p.2) (scan r) ++ [Send]) zero.

Definition luminance (t : ICam06.t) (par : parallel) : ICam06.t :=
  ICam06.set_maxLum
    (run (lum_exec (ICam06.HDRImage t)) (schedule par) (map lum_task (tiles par))
         (ICam06.maxLum t))
    t.

(** ** Stage 2: the input normaliser (the function given to [NewApply1]) *)
Definition normalizer (t : ICam06.t) (c1 _c2 : color) : color :=
  let q := HDRXYZA c1 in
  let '(x, y, z) := (q1 q, q2 q, q3 q) in
  CXYZ (mkXYZ
    (Clamp (lit 1 100000000) maxLum ((x / ICam06.maxLum t) * maxLum)%F)
    (Clamp (lit 1 100000000) maxLum ((y / ICam06.maxLum t) * maxLum)%F)
    (Clamp (lit 1 100000000) maxLum ((z / ICam06.maxLum t) * maxLum)%F)).

(** Equation 13, written out in the source at each of its three uses. *)
Definition fl_of (La : float64) : float64 :=
  let k := (of_Z 1 / (of_Z 5 * La + of_Z 1))%F in
  (lit 2 10 * Pow k (of_Z 4) * (of_Z 5 * La)
   + lit 1 10 * Pow (of_Z 1 - Pow k (of_Z 4)) (of_Z 2) * Pow (of_Z 5 * La) (lit 1 3))%F.

(** ** Stage 5: chromatic adaptation and tone compression

    [toneCompression] writes its output into the raster [t.white] points
    to: [toneCompressed] and [t.white] are two names of one storage, the
    shared state of the tile tasks.  A read through [t.white] that finds a
    cell already holding tone-compressed output sets the ghost flag
    [stale]. *)
Record tc_shared := TcShared { store : Raster; stale : bool }.

Definition white_HDRAt (s : tc_shared) (x y : Z) : color * tc_shared :=
  match Cells (store s) !! (x, y) with
  | Some (Cell WhitePoint c) => (c, s)
  | Some (Cell ToneCompressed c) => (c, TcShared (store s) true)
  | None => (zero_color, s)
  end.

Definition toneCompressed_Set (s : tc_shared) (x y : Z) (c : color) : tc_shared :=
  TcShared (RasterSet (store s) x y (Cell ToneCompressed c)) (stale s).

Definition chromaticAdaptation (t : ICam06.t) (s : tc_shared) (x y : Z)
  : outcome (float64 * float64 * float64 * tc_shared) :=
  b ← field_HDRAt (ICam06.baseLayer t) x y;
  let '(l1, m1, s1) := LMSCAT02w b in
  let '(w, s') := white_HDRAt s x y in
  let '(l2, m2, s2) := LMSCAT02w w in
  let la := (lit 2 10 * m2)%F in
  let D := (surroundFactor * (of_Z 1 - (Exp (- (la + of_Z 42) / of_Z 92) / lit 36 10)))%F in
  let '(c0, c1, c2) := cat02D65 in
  Ok (LmsMcat02ToXyz
        (l1 * (c0 * D / l2 + (of_Z 1 - D)))%F
        (m1 * (c1 * D / m2 + (of_Z 1 - D)))%F
        (s1 * (c2 * D / s2 + (of_Z 1 - D)))%F,
      s').

(** The global scale [Sw]: the loops run over [0, width) x [0, height). *)
Definition scan_Sw (t : ICam06.t) (s : tc_shared) : float64 * tc_shared :=
  fold_left
    (fun acc p =>
       let '(Sw, s) := acc in
       let '(c, s') := white_HDRAt s p.1 p.2 in
       (Max Sw (q2 (HDRXYZA c)), s'))
    (scan (mkRect 0 0 (ICam06.width t) (ICam06.height t)))
    (Inf true, s).

(** The body of the pixel loop, from the luminance [Yw] of the local white
    point and the chromatically adapted pixel to the stored colour. *)
Definition compress (t : ICam06.t) (Sw Yw : float64) (ca : float64 * float64 * float64)
  : color :=
  let La := (lit 2 10 * Yw)%F in
  let fl := fl_of La in
  let '(Xca, Yca, Zca) := ca in
  let '(l, m, s) := XyzToLmsMhpe Xca Yca Zca in
  let S := Abs Yca in
  let pow := Pow (fl * l / Yw)%F (ICam06.Contrast t) in
  let l := (((of_Z 400 * pow) / (lit 2713 100 + pow)) + lit 1 10)%F in
  let pow := Pow (fl * m / Yw)%F (ICam06.Contrast t) in
  let m := (((of_Z 400 * pow) / (lit 2713 100 + pow)) + lit 1 10)%F in
  let pow := Pow (fl * s / Yw)%F (ICam06.Contrast t) in
  let s := (((of_Z 400 * pow) / (lit 2713 100 + pow)) + lit 1 10)%F in
  let Lls := (of_Z 5 * La)%F in
  let j := (lit 1 100000 / (Lls + lit 1 100000))%F in
  let FLS := (of_Z 3800 * (j * j) * Lls
              + lit 2 10 * Pow (of_Z 1 - (j * j)) (of_Z 4) * Pow Lls (lit 1 6))%F in
  let St := (S / Sw)%F in
  let Bs := (lit 1 2 / (of_Z 1 + lit 3 10 * Pow (Lls * St) (lit 3 10))
             + lit 1 2 / (of_Z 1 + of_Z 5 * Lls))%F in
  let pow := Pow (FLS * St)%F (ICam06.Contrast t) in
  let As := (lit 305 100 * Bs * (of_Z 400 * pow / (lit 2713 100 + pow)) + lit 3 10)%F in
  let '(Xtc, Ytc, Ztc) := LmsMhpeToXyz (l + As)%F (m + As)%F (s + As)%F in
  CXYZ (mkXYZ Xtc Ytc Ztc).

(** The accesses of one pixel, in program order: the read of [Yw], the
    reads of [chromaticAdaptation], the [Set]. *)
Inductive tc_action := ReadYw (x y : Z) | Adapt (x y : Z) | Store (x y : Z).

Record tc_locals := TcLocals { Yw : float64; ca : float64 * float64 * float64 }.

Definition tc_exec (t : ICam06.t) (Sw : float64) (a : tc_action)
  (s : outcome tc_shared) (l : tc_locals) : outcome tc_shared * tc_locals :=
  match s with
  | Panic => (Panic, l)
  | Ok s =>
      match a with
      | ReadYw x y =>
          let '(c, s') := white_HDRAt s x y in
          (Ok s', TcLocals (q2 (HDRXYZA c)) (ca l))
      | Adapt x y =>
          match chromaticAdaptation t s x y with
          | Ok (xyz, s') => (Ok s', TcLocals (Yw l) xyz)
          | Panic => (Panic, l)
          end
      | Store x y =>
          (Ok (toneCompressed_Set s x y (compress t Sw (Yw l) (ca l))), l)
      end
  end.

Definition tc_task (r : Rectangle) : task :=
  Task (flat_map (fun p => [ReadYw p.1 p.2; Adapt p.1 p.2; Store p.1 p.2]) (scan r))
       (TcLocals zero (zero, zero, zero)).

(** The result: the raster under its new name, the ghost flag, and the
    operator with [t.white] set to nil. *)
Definition toneCompression (t : ICam06.t) (par : parallel)
  : outcome (Raster * bool * ICam06.t) :=
  match ICam06.white t with
  | None => Panic
  | Some w =>
      let '(Sw, s) := scan_Sw t (TcShared w false) in
      s' ← run (tc_exec t Sw) (schedule par) (map tc_task (tiles par)) (Ok s);
      Ok (store s', stale s', ICam06.set_white None t)
  end.

(** ** Stages 3 and 6: the detail layer and its combination (the functions
    given to [NewApply2]) *)
Definition detail (c1 c2 : color) : color :=
  let a := HDRXYZA c1 in
  let b := HDRXYZA c2 in
  let X := clampToZero (q1 a / q1 b)%F in
  let Y := clampToZero (q2 a / q2 b)%F in
  let Z := clampToZero (q3 a / q3 b)%F in
  let La := (lit 2 10 * q2 b)%F in
  let fl := fl_of La in
  let exponent := Pow (fl + lit 8 10)%F (lit 1 4) in
  CXYZ (mkXYZ (Pow X exponent) (Pow Y exponent) (Pow Z exponent)).

Definition combine (c1 c2 : color) : color :=
  let a := HDRXYZA c1 in
  let b := HDRXYZA c2 in
  CXYZ (mkXYZ (q1 a * q1 b)%F (q2 a * q2 b)%F (q3 a * q3 b)%F).

(** ** Stage 7: colour appearance *)
Definition iptColor (t : ICam06.t) (x y : Z) : outcome (float64 * float64 * float64) :=
  c ← field_HDRAt (ICam06.detailCombined t) x y;
  let q := HDRXYZA c in
  let '(L, M, S') := XyzToLms (q1 q) (q2 q) (q3 q) in
  let gamma := fun v => Pow (Abs v) (lit 43 100) in
  Ok (LmsToIpt (gamma L) (gamma M) (gamma S')).

Definition reverseIptColor (I P T : float64) : color :=
  let '(Lp, Mp, Sp) := IptToLms I P T in
  let rGamma := fun v => Pow (Abs v) (lit 100 43) in
  let '(X, Y, Z) := LmsToXyz (rGamma Lp) (rGamma Mp) (rGamma Sp) in
  CXYZ (mkXYZ X Y Z).

Definition colorfullnessXsurround (t : ICam06.t) (x y : Z) : outcome color :=
  ipt ← iptColor t x y;
  let '(I', P, T) := ipt in
  b ← field_HDRAt (ICam06.baseLayer t) x y;
  let Y := q2 (HDRXYZA b) in
  let La := (Y * lit 2 10)%F in
  let fl := fl_of La in
  let Chroma := Sqrt (P * P + T * T)%F in
  let scale := (Pow (fl + of_Z 1) (lit 2 10)
                * (lit 129 100 * Chroma * Chroma - lit 27 100 * Chroma + lit 42 100)
                / (Chroma * Chroma - lit 31 100 * Chroma + lit 42 100))%F in
  let P := (P * scale)%F in
  let T := (T * scale)%F in
  Ok (reverseIptColor I' P T).

(** ** The percentile table *)
Definition percentiles : Type := list float64.

Definition sort (p : percentiles) : percentiles := Sort p.

Definition percentile (p : percentiles) (clipping : float64) : outcome float64 :=
  let n := of_Z (Z.of_nat (length p)) in
  let i := int (clipping * n)%F in
  index p i.

(** ** Stage 8: the final normaliser *)
Definition normalizeC (channel : float64) : Z :=
  let c := (WoB (geb channel (- lit 31308 10000000)%F && leb channel (lit 31308 10000000))
            * channel * lit 1292 100)%F in
  let c := (c + WoB (gtb channel (lit 31308 10000000))
                * (Pow channel (lit 10 24) * lit 1055 1000 - lit 55 1000))%F in
  uint16 (of_Z RangeMax * c)%F.

(** First pass: the peak of the rendered luminance.  A panic in a tile
    task ends the program: the shared state becomes [Panic]. *)
Definition peak_exec (t : ICam06.t) (a : lum_action) (s : outcome float64) (max : float64)
  : outcome float64 * float64 :=
  match s with
  | Panic => (Panic, max)
  | Ok norMaxLum =>
      match a with
      | Scan x y =>
          match colorfullnessXsurround t x y with
          | Ok c => (s, Max (ICam06.maxLum t) (q2 (HDRXYZA c)))
          | Panic => (Panic, max)
          end
      | Send => (Ok (Max norMaxLum max), max)
      end
  end.

Definition normLum (t : ICam06.t) (norMaxLum : float64) (x y : Z)
  : outcome (float64 * float64 * float64) :=
  c ← colorfullnessXsurround t x y;
  let q := HDRXYZA c in
  let X := (q1 q / norMaxLum)%F in
  let Y := (q2 q / norMaxLum)%F in
  let Z := (q3 q / norMaxLum)%F in
  Ok (XyzToLinearRgb X Y Z).

(** Second pass: the sample table.  The three stores of a pixel are three
    actions, after the call of [normLum]; the slot index [x * y] and the
    offsets added to it are computed in [int] and wrap around. *)
Inductive fill_action := Sample (x y : Z) | PutR (x y : Z) | PutG (x y : Z) | PutB (x y : Z).

Definition fill_exec (normLum : Z -> Z -> outcome (float64 * float64 * float64)) (size : Z)
  (a : fill_action) (s : outcome percentiles) (rgb : float64 * float64 * float64)
  : outcome percentiles * (float64 * float64 * float64) :=
  match s with
  | Panic => (Panic, rgb)
  | Ok perc =>
      let '(r, g, b) := rgb in
      match a with
      | Sample x y =>
          match normLum x y with
          | Ok rgb' => (s, rgb')
          | Panic => (Panic, rgb)
          end
      | PutR x y => let i := int_mul x y in (assign perc i r, rgb)
      | PutG x y => let i := int_mul x y in (assign perc (int_add size i) g, rgb)
      | PutB x y =>
          let i := int_mul x y in (assign perc (int_add (int_mul size 2) i) b, rgb)
      end
  end.

Definition fill_task (r : Rectangle) : task :=
  Task (flat_map (fun p => [Sample p.1 p.2; PutR p.1 p.2; PutG p.1 p.2; PutB p.1 p.2])
                 (scan r))
       (zero, zero, zero).

(** [make(percentiles, size*3)] followed by the second pass. *)
Definition fill (normLum : Z -> Z -> outcome (float64 * float64 * float64)) (size : Z)
  (par : parallel) : outcome percentiles :=
  run (fill_exec normLum size) (schedule par) (map fill_task (tiles par))
      (Ok (replicate (Z.to_nat (size * 3)) zero)).

(** Third pass: clipping and encoding. *)
Definition clip (minRGB maxRGB v : float64) : float64 :=
  Clamp zero (of_Z 1) ((v - minRGB) / (maxRGB - minRGB))%F.

Definition encode (minRGB maxRGB : float64) (rgb : float64 * float64 * float64) : RGBA64 :=
  let '(r, g, b) := rgb in
  let r := clip minRGB maxRGB r in
  let g := clip minRGB maxRGB g in
  let b := clip minRGB maxRGB b in
  mkRGBA64 (normalizeC r) (normalizeC g) (normalizeC b) RangeMax.

Definition clip_exec (normLum : Z -> Z -> outcome (float64 * float64 * float64))
  (minRGB maxRGB : float64) (p : Z * Z) (s : outcome RGBA64Image) (l : unit)
  : outcome RGBA64Image * unit :=
  (m ← s; rgb ← normLum p.1 p.2; Ok (SetRGBA64 m p.1 p.2 (encode minRGB maxRGB rgb)), l).

Definition clip_task (r : Rectangle) : task := Task (scan r) tt.

(** The three calls of [ParallelR] in [normalize]. *)
Record normalize_parallel := NormalizePar { peak_par : parallel; fill_par : parallel; clip_par : parallel }.

Definition normalize (t : ICam06.t) (m : RGBA64Image) (par : normalize_parallel)
  : outcome RGBA64Image :=
  norMaxLum ← run (peak_exec t) (schedule (peak_par par)) (map lum_task (tiles (peak_par par)))
                  (Ok (Inf true));
  let size := Size (ICam06.HDRImage t) in
  perc ← fill (normLum t norMaxLum) size (fill_par par);
  let perc := sort perc in
  lo ← percentile perc (ICam06.MinClipping t);
  let minRGB := Min lo zero in
  maxRGB ← percentile perc (ICam06.MaxClipping t);
  run (clip_exec (normLum t norMaxLum) minRGB maxRGB) (schedule (clip_par par))
      (map clip_task (tiles (clip_par par))) (Ok m).

(** ** [Perform] *)
Record perform_parallel := PerformPar {
  luminance_par : parallel;
  tone_par : parallel;
  normalize_par : normalize_parallel
}.

(** The state of the operator when [toneCompression] is called. *)
Definition before_toneCompression (t : ICam06.t) (par : perform_parallel) : ICam06.t :=
  let t := luminance t (luminance_par par) in
  let normalized := NewApply1 (ICam06.HDRImage t) (normalizer t) in
  let t := ICam06.set_normalized (Some normalized) t in
  let log := NewLog10 normalized in
  let bilateral := YFastBilateralAuto log (of_Z (minDim t) * lit 2 100)%F in
  let t := ICam06.set_baseLayer (Some (NewPow10 bilateral)) t in
  ICam06.set_white
    (Some (rasterize WhitePoint (FastGaussian normalized (maxDim t / 2)))) t.

(** The stages after [toneCompression], given the raster it returned. *)
Definition after_toneCompression (t : ICam06.t) (toneCompressed : Raster)
  (par : normalize_parallel) : outcome RGBA64Image :=
  normalized ← from_option Ok Panic (ICam06.normalized t);
  baseLayer ← from_option Ok Panic (ICam06.baseLayer t);
  let detailLayer := NewApply2 normalized baseLayer detail in
  let t := ICam06.set_detailCombined
             (Some (NewApply2 (view toneCompressed) detailLayer combine)) t in
  let m := NewRGBA64 (Bounds (ICam06.HDRImage t)) in
  normalize t m par.

(** The ghost flag of the tone-compression stage and the output raster. *)
Definition Perform (t : ICam06.t) (par : perform_parallel) : bool * outcome RGBA64Image :=
  let t := before_toneCompression t par in
  match toneCompression t (tone_par par) with
  | Panic => (false, Panic)
  | Ok (toneCompressed, flag, t) => (flag, after_toneCompression t toneCompressed (normalize_par par))
  end.

End Operator.

(** ** The percentile table as a [sort.Interface] *)
Definition Len (p : percentiles) : Z := Z.of_nat (length p).

Definition Less (p : percentiles) (i j : Z) : outcome bool :=
  a ← index p i; b ← index p j; Ok (ltb a b).

(** [p[i], p[j] = p[j], p[i]]: the right-hand side first, then the two
    stores. *)
Definition Swap (p : percentiles) (i j : Z) : outcome percentiles :=
  a ← index p j; b ← index p i; p' ← assign p i a; assign p' j b.

End tmo.

(* ===================================================================== *)
(** * Fixtures *)
(* ===================================================================== *)

(** A platform, stand-ins for the external functions and a few small
    images, to run the model on concrete inputs.  The theorems below hold
    for every instance of the classes; the fixtures only close the
    examples. *)
Module Fixtures.
Import image util hdrcolor hdr filter tmo.

(** amd64: a conversion that does not fit yields the 64-bit "integer
    indefinite" value, of which [uint16] keeps the low 16 bits. *)
Definition amd64 : Platform :=
  {| int_unrepresentable := fun _ => - 2 ^ 63;
     uint16_unrepresentable := fun f =>
       match trunc f with
       | Some z => if (- 2 ^ 63 <=? z) && (z <? 2 ^ 63) then z mod 2 ^ 16 else 0
       | None => 0
       end |}.

(** A conversion to [uint32] that does not fit yields 0. *)
Definition zero32 : Platform32 := {| uint32_unrepresentable := fun _ => 0 |}.

(** Powers of a positive base: square-and-multiply on the integer part of
    the exponent, correctly rounded square roots on the bits of its
    fraction. *)
Fixpoint pow_pos (x : float64) (n : positive) : float64 :=
  match n with
  | xH => x
  | xO p => let h := pow_pos x p in mul h h
  | xI p => let h := pow_pos x p in mul (mul h h) x
  end.

Fixpoint pow_frac (bits : nat) (root f acc : float64) : float64 :=
  match bits with
  | O => acc
  | S k =>
      let root := Sqrt root in
      let f := add f f in
      if leb one f then pow_frac k root (sub f one) (mul acc root)
      else pow_frac k root f acc
  end.

Definition pow (x y : float64) : float64 :=
  if eqb y zero then one
  else if negb (ltb zero x) || negb (is_finite x) || negb (is_finite y) then NaN
  else
    let a := Abs y in
    let n := default 0 (trunc a) in
    let whole := match n with Z.pos p => pow_pos x p | _ => one end in
    let r := mul whole (pow_frac 53 x (sub a (of_Z n)) one) in
    if ltb y zero then div one r else r.

Definition math : Math :=
  {| Pow := pow; Exp := pow (lit 2718281828459045 1000000000000000) |}.

(** Insertion sort by [<]. *)
Fixpoint insert_sorted (x : float64) (l : list float64) : list float64 :=
  match l with
  | [] => [x]
  | y :: l' => if ltb y x then y :: insert_sorted x l' else x :: l
  end.

Definition sorting : Sorting := {| Sort := foldr insert_sorted [] |}.

(** The standard sRGB (D65) matrix pair, to four decimals. *)
Definition dot3 (a b c x y z : float64) : float64 :=
  add (add (mul a x) (mul b y)) (mul c z).

Definition colorful : Colorful :=
  {| LinearRgbToXyz := fun r g b =>
       (dot3 (lit 4124 10000) (lit 3576 10000) (lit 1805 10000) r g b,
        dot3 (lit 2126 10000) (lit 7152 10000) (lit 722 10000) r g b,
        dot3 (lit 193 10000) (lit 1192 10000) (lit 9505 10000) r g b);
     XyzToLinearRgb := fun x y z =>
       (dot3 (lit 32406 10000) (lit (-15372) 10000) (lit (-4986) 10000) x y z,
        dot3 (lit (-9689) 10000) (lit 18758 10000) (lit 415 10000) x y z,
        dot3 (lit 557 10000) (lit (-2040) 10000) (lit 10570 10000) x y z) |}.

(** No change of cone space, no blur. *)
Definition conversions : Conversions :=
  {| XyzToLmsMcat02 := fun x y z => (x, y, z);
     LmsMcat02ToXyz := fun x y z => (x, y, z);
     XyzToLmsMhpe := fun x y z => (x, y, z);
     LmsMhpeToXyz := fun x y z => (x, y, z);
     XyzToLms := fun x y z => (x, y, z);
     LmsToXyz := fun x y z => (x, y, z);
     LmsToIpt := fun x y z => (x, y, z);
     IptToLms := fun x y z => (x, y, z) |}.

Definition filters : Filters :=
  {| NewLog10 := fun m => m;
     YFastBilateralAuto := fun m _ => m;
     NewPow10 := fun m => m;
     FastGaussian := fun m _ => m |}.

(** A grey XYZ pixel of luminance [y], and images over [0, w) x [0, h). *)
Definition grey (y : Z) : color := CXYZ (mkXYZ (of_Z y) (of_Z y) (of_Z y)).

Definition flat (w h y : Z) : Image := mkImage (mkRect 0 0 w h) (fun _ _ => grey y).

(** Two pixels side by side: luminance 5 on the left, 1 on the right. *)
Definition two_pixels : Image :=
  mkImage (mkRect 0 0 2 1) (fun x _ => if x =? 0 then grey 5 else grey 1).

Definition whole (m : Image) : parallel := Parallel [Bounds m] [].

Definition columns_of_two : parallel := Parallel [mkRect 0 0 1 1; mkRect 1 0 2 1] [].

(** One tile per pixel for the scans, the second tile first where a
    schedule is given. *)
Definition sample_par : perform_parallel :=
  PerformPar columns_of_two
             (Parallel [mkRect 0 0 1 1; mkRect 1 0 2 1] [1; 0; 1; 1; 0]%nat)
             (NormalizePar (whole two_pixels) (whole two_pixels) (whole two_pixels)).

(** Linear RGB samples that tell the pixels apart: the pixel at (x, y)
    has the samples 10(x + 2y) + 1, + 2 and + 3. *)
Definition ramp (x y : Z) : outcome (float64 * float64 * float64) :=
  Ok (of_Z (10 * (x + 2 * y) + 1), of_Z (10 * (x + 2 * y) + 2), of_Z (10 * (x + 2 * y) + 3)).


(** One grey pixel at (2, 2): bounds away from the origin, one tile. *)
Definition offset_pixel : Image := mkImage (mkRect 2 2 3 3) (fun _ _ => grey 1).

Definition offset_par : perform_parallel :=
  PerformPar (whole offset_pixel) (whole offset_pixel)
             (NormalizePar (whole offset_pixel) (whole offset_pixel) (whole offset_pixel)).

(** An operator on [two_pixels] as [toneCompression] finds it, with the
    image itself for the base layer and for the local white point. *)
Definition adapted : ICam06.t :=
  ICam06.set_white (Some (rasterize WhitePoint two_pixels))
    (ICam06.set_baseLayer (Some two_pixels) (NewDefaultICam06 two_pixels)).

(** An operator on [two_pixels] as [normalize] finds it, with the image
    itself for the base layer and for the combined image. *)
Definition rendered : ICam06.t :=
  ICam06.set_detailCombined (Some two_pixels)
    (ICam06.set_baseLayer (Some two_pixels) (NewDefaultICam06 two_pixels)).

Definition rendered_par : normalize_parallel :=
  NormalizePar columns_of_two (whole two_pixels) (whole two_pixels).

End Fixtures.

(* ===================================================================== *)
(** * Invariants of the stages *)
(* ===================================================================== *)

Module Invariant.
Import image util hdrcolor hdr filter tmo.

(** A task that has performed all its actions. *)
Definition finished {Local Action : Type} (t : @task Local Action) : Prop :=
  pending t = [].

(** The complete interleavings of the tasks of one call: some unfinished
    task performs its next action, until every task has finished. *)
Inductive interleaving {State Local Action : Type}
  (exec : Action -> State -> Local -> State * Local)
  : list (@task Local Action) -> State -> State -> Prop :=
| interleaving_done ts s :
    Forall finished ts -> interleaving exec ts s s
| interleaving_step ts s k a rest l s' :
    ts !! k = Some (Task (a :: rest) l) ->
    interleaving exec (<[k := Task rest (exec a s l).2]> ts) (exec a s l).1 s' ->
    interleaving exec ts s s'.

Section Luminance.
Context `{Colorful}.
Variable m : Image.
Variable ts : list Rectangle.

(** The Y channel of the pixel at a point. *)
Definition Y_at (p : Z * Z) : float64 := q2 (HDRXYZA (HDRAt m p.1 p.2)).

(** What the field and the local maxima of the luminance scan can be:
    never below zero, and either zero or the Y channel of a pixel of some
    tile. *)
Definition peak_value (v : float64) : Prop :=
  ltb v zero = false /\
  (v = zero \/ exists tile p, tile ∈ ts /\ p ∈ scan tile /\ v = Y_at p).

Definition scans_tile (a : lum_action) : Prop :=
  match a with
  | Scan x y => exists tile, tile ∈ ts /\ (x, y) ∈ scan tile
  | Send => True
  end.

Definition lum_Inv (s : float64) (tasks : list (@task float64 lum_action)) : Prop :=
  peak_value s /\
  Forall (fun t => peak_value (locals t) /\ Forall scans_tile (pending t)) tasks.

End Luminance.

(** What a tile adds to the peak of the luminance scan: the Y of the pixel
    its loops visit last, or the zero its local maximum starts from; and
    what a task has still to add: nothing (the unit of [math.Max]) once it
    has sent, the Y of the last pixel it has still to visit, or else its
    local maximum. *)
Definition tile_lum `{Colorful} (m : Image) (r : Rectangle) : float64 :=
  match last (scan r) with Some p => Y_at m p | None => zero end.

Definition scanned_points (acts : list lum_action) : list (Z * Z) :=
  flat_map (fun a => match a with Scan x y => [(x, y)] | Send => [] end) acts.

Definition lum_due `{Colorful} (m : Image) (t : @task float64 lum_action) : float64 :=
  match pending t with
  | [] => Inf true
  | _ => match last (scanned_points (pending t)) with
         | Some p => Y_at m p
         | None => locals t
         end
  end.

Definition lum_shape (t : @task float64 lum_action) : Prop :=
  pending t = [] \/ exists ps, pending t = map (fun p => Scan p.1 p.2) ps ++ [Send].

Definition lum_total `{Colorful} (m : Image) (total : float64) (field : float64)
  (tasks : list (@task float64 lum_action)) : Prop :=
  Forall lum_shape tasks /\ foldr Max field (map (lum_due m) tasks) = total.

(** The first pass of [normalize]: what a pixel, a tile and an unfinished
    task add to the peak of the rendered luminance. *)
Definition rendered_peak `{Math} `{Colorful} `{Conversions} (t : ICam06.t) (p : Z * Z)
  : float64 :=
  match colorfullnessXsurround t p.1 p.2 with
  | Ok c => Max (ICam06.maxLum t) (q2 (HDRXYZA c))
  | Panic => Inf true
  end.

Definition tile_peak `{Math} `{Colorful} `{Conversions} (t : ICam06.t) (r : Rectangle)
  : float64 :=
  match last (scan r) with Some p => rendered_peak t p | None => zero end.

Definition peak_due `{Math} `{Colorful} `{Conversions} (t : ICam06.t)
  (task : @task float64 lum_action) : float64 :=
  match pending task with
  | [] => Inf true
  | _ => match last (scanned_points (pending task)) with
         | Some p => rendered_peak t p
         | None => locals task
         end
  end.

Definition peak_total `{Math} `{Colorful} `{Conversions} (t : ICam06.t) (total : float64)
  (s : outcome float64) (tasks : list (@task float64 lum_action)) : Prop :=
  forall v, s = Ok v ->
    Forall lum_shape tasks /\ foldr Max v (map (peak_due t) tasks) = total.

(** Tone compression over the shared raster.  A task owns the points whose
    [Store] it has still to perform; in its pending actions every read of a
    point comes before the [Store] of that point. *)
Definition stores (acts : list tc_action) : list (Z * Z) :=
  flat_map (fun a => match a with Store x y => [(x, y)] | _ => [] end) acts.

Fixpoint reads_before_store (acts : list tc_action) : Prop :=
  match acts with
  | [] => True
  | ReadYw x y :: rest => (x, y) ∈ stores rest /\ reads_before_store rest
  | Adapt x y :: rest => (x, y) ∈ stores rest /\ reads_before_store rest
  | Store _ _ :: rest => reads_before_store rest
  end.

Definition owned (tasks : list (@task tc_locals tc_action)) : list (Z * Z) :=
  flat_map (fun t => stores (pending t)) tasks.

(** The cell at a point still holds the white point, or already holds
    tone-compressed output; a raster has cells inside its bounds only. *)
Definition fresh (r : Raster) (p : Z * Z) : Prop :=
  forall c, Cells r !! p = Some c -> holds c = WhitePoint.

Definition compressed (r : Raster) (p : Z * Z) : Prop :=
  forall c, Cells r !! p = Some c -> holds c = ToneCompressed.

Definition well_formed (r : Raster) : Prop :=
  forall p c, Cells r !! p = Some c -> In p.1 p.2 (RBounds r) = true.

(** The invariant of the stage: no stale read so far, the owned points are
    distinct and their cells fresh, and every point of the tiles is owned
    or its cell compressed. *)
Definition tc_Inv (todo : list (Z * Z)) (s : outcome tc_shared)
  (tasks : list (@task tc_locals tc_action)) : Prop :=
  exists sh, s = Ok sh /\
    stale sh = false /\
    well_formed (store sh) /\
    NoDup (owned tasks) /\
    Forall (fun t => reads_before_store (pending t)) tasks /\
    (forall p, p ∈ owned tasks -> fresh (store sh) p) /\
    (forall p, p ∈ todo -> p ∈ owned tasks \/ compressed (store sh) p).

(** What the stage computes.  The actions of the pixels a task has still
    to visit, and the shapes of what a task has still to do: whole pixels,
    after the rest of the pixel it is at. *)
Definition tc_pixels (ps : list (Z * Z)) : list tc_action :=
  flat_map (fun p => [ReadYw p.1 p.2; Adapt p.1 p.2; Store p.1 p.2]) ps.

Definition tc_shape (acts : list tc_action) : Prop :=
  exists ps,
    acts = tc_pixels ps \/
    (exists x y, acts = Adapt x y :: Store x y :: tc_pixels ps) \/
    (exists x y, acts = Store x y :: tc_pixels ps).

(** The colour of the output at a point, computed from the white-point
    raster [w] as the stage finds it. *)
Definition tone_value `{Math} `{Colorful} `{Conversions} (t : ICam06.t) (w : Raster)
  (Sw : float64) (p : Z * Z) : color :=
  match chromaticAdaptation t (TcShared w false) p.1 p.2 with
  | Ok (xyz, _) => compress t Sw (q2 (HDRXYZA (RasterAt w p.1 p.2))) xyz
  | Panic => zero_color
  end.

(** The local variables of a task hold what it has read for the pixel it
    is at. *)
Definition tc_ready `{Math} `{Colorful} `{Conversions} (t : ICam06.t) (w : Raster)
  (task : @task tc_locals tc_action) : Prop :=
  match pending task with
  | Adapt x y :: _ => Yw (locals task) = q2 (HDRXYZA (RasterAt w x y))
  | Store x y :: _ =>
      Yw (locals task) = q2 (HDRXYZA (RasterAt w x y)) /\
      exists s, chromaticAdaptation t (TcShared w false) x y = Ok (ca (locals task), s)
  | _ => True
  end.

(** The cells of the raster during the stage: as in [w] at the points
    still owned and outside the tiles, the output at the points done. *)
Definition tc_values `{Math} `{Colorful} `{Conversions} (t : ICam06.t) (w : Raster)
  (Sw : float64) (todo : list (Z * Z)) (s : outcome tc_shared)
  (tasks : list (@task tc_locals tc_action)) : Prop :=
  exists sh, s = Ok sh /\
    RBounds (store sh) = RBounds w /\
    Forall (fun task => tc_shape (pending task) /\ tc_ready t w task) tasks /\
    (forall p, p ∈ owned tasks -> p ∈ todo /\ Cells (store sh) !! p = Cells w !! p) /\
    (forall p, p ∉ owned tasks ->
       Cells (store sh) !! p =
         if bool_decide (p ∈ todo) && In p.1 p.2 (RBounds w)
         then Some (Cell ToneCompressed (tone_value t w Sw p))
         else Cells w !! p).



(** The third pass of [normalize] over the output raster: the raster keeps
    its bounds, its pixels are opaque and lie at points of the tiles
    inside the bounds, and a point of a tile inside the bounds has its
    pixel or is still to be visited. *)
Definition clip_Inv (rect : Rectangle) (tls : list Rectangle)
  (s : outcome RGBA64Image) (ts : list (@task unit (Z * Z))) : Prop :=
  forall m, s = Ok m ->
    Rect m = rect /\
    (forall x y c, Pix m !! (x, y) = Some c ->
       A c = 65535 /\ In x y rect = true /\
       exists tile, tile ∈ tls /\ (x, y) ∈ scan tile) /\
    (forall tile x y, tile ∈ tls -> (x, y) ∈ scan tile -> In x y rect = true ->
       is_Some (Pix m !! (x, y)) \/
       exists k t, ts !! k = Some t /\ (x, y) ∈ pending t) /\
    Forall (fun t => Forall (fun p => exists tile, tile ∈ tls /\ p ∈ scan tile) (pending t)) ts.

(** Every pixel of the output raster is the encoding of the rendered
    colour of its own point. *)
Definition clip_values `{Platform} `{Math}
  (normLum : Z -> Z -> outcome (float64 * float64 * float64)) (minRGB maxRGB : float64)
  (s : outcome RGBA64Image) (ts : list (@task unit (Z * Z))) : Prop :=
  forall m, s = Ok m ->
    forall x y c, Pix m !! (x, y) = Some c ->
      exists rgb, normLum x y = Ok rgb /\ c = encode minRGB maxRGB rgb.

End Invariant.

(* ===================================================================== *)
(** * Properties *)
(* ===================================================================== *)

Import image util hdrcolor hdr filter tmo Invariant.

(** ** float64 comparisons *)

Lemma compare_cont_flip (m1 m2 : positive) :
  PosDef.Pos.compare_cont Eq m2 m1 = CompOpp (PosDef.Pos.compare_cont Eq m1 m2).
Proof. exact (eq_sym (Pos.compare_cont_antisym m1 m2 Eq)). Qed.

Lemma compare_antisym (x y : float64) (c : comparison) :
  SFcompare x y = Some c -> SFcompare y x = Some (CompOpp c).
Proof.
  destruct x as [s1|s1| |s1 m1 e1], y as [s2|s2| |s2 m2 e2]; simpl;
    intros [= <-]; try (destruct s1; try destruct s2; reflexivity).
  destruct s1, s2; try reflexivity; f_equal;
    rewrite (Z.compare_antisym e1 e2);
    destruct (e1 ?= e2); simpl; try reflexivity;
    rewrite (compare_cont_flip m1 m2); try rewrite CompOpp_involutive; reflexivity.
Qed.

Lemma compare_total (x y : float64) :
  is_nan x = false -> is_nan y = false -> exists c, SFcompare x y = Some c.
Proof.
  destruct x, y; simpl; try discriminate; eauto.
Qed.

Lemma ltb_false_leb (x y : float64) :
  is_nan x = false -> is_nan y = false -> ltb x y = false -> leb y x = true.
Proof.
  intros Hx Hy. unfold ltb, leb, SFltb, SFleb.
  destruct (compare_total x y Hx Hy) as [c Hc].
  rewrite Hc, (compare_antisym _ _ _ Hc). destruct c; simpl; congruence.
Qed.

Lemma ltb_leb (x y : float64) : ltb x y = true -> leb x y = true.
Proof.
  unfold ltb, leb, SFltb, SFleb. destruct (SFcompare x y) as [[]|]; congruence.
Qed.

Lemma leb_not_nan (x y : float64) : leb x y = true -> is_nan x = false /\ is_nan y = false.
Proof.
  unfold leb, SFleb. destruct x, y; simpl; try discriminate; auto.
Qed.


(** Case analysis on the integer comparisons inside [SFcompare]. *)
Ltac split_compare :=
  repeat match goal with
  | H : context [PosDef.Pos.compare_cont Eq ?a ?b] |- _ =>
      change (PosDef.Pos.compare_cont Eq a b) with (Pos.compare a b) in H
  | |- context [PosDef.Pos.compare_cont Eq ?a ?b] =>
      change (PosDef.Pos.compare_cont Eq a b) with (Pos.compare a b)
  end;
  repeat match goal with
  | H : context [Z.compare ?a ?b] |- _ => destruct (Z.compare_spec a b); simpl in H
  | H : context [Pos.compare ?a ?b] |- _ => destruct (Pos.compare_spec a b); simpl in H
  | |- context [Z.compare ?a ?b] => destruct (Z.compare_spec a b); simpl
  | |- context [Pos.compare ?a ?b] => destruct (Pos.compare_spec a b); simpl
  end.

Lemma leb_trans (x y z : float64) : leb x y = true -> leb y z = true -> leb x z = true.
Proof.
  unfold leb, SFleb.
  destruct x as [s1|s1| |s1 m1 e1], y as [s2|s2| |s2 m2 e2], z as [s3|s3| |s3 m3 e3];
    simpl; try discriminate; try reflexivity;
    try destruct s1; try destruct s2; try destruct s3;
    simpl; try discriminate; try reflexivity;
    intros H1 H2; split_compare; try discriminate; try reflexivity; subst; lia.
Qed.

Lemma ltb_leb_trans (x y z : float64) : ltb x y = true -> leb y z = true -> ltb x z = true.
Proof.
  unfold ltb, leb, SFltb, SFleb.
  destruct x as [s1|s1| |s1 m1 e1], y as [s2|s2| |s2 m2 e2], z as [s3|s3| |s3 m3 e3];
    simpl; try discriminate; try reflexivity;
    try destruct s1; try destruct s2; try destruct s3;
    simpl; try discriminate; try reflexivity;
    intros H1 H2; split_compare; try discriminate; try reflexivity; subst; lia.
Qed.

(** ** [math.Max] *)

Lemma Max_cases (x y : float64) : Max x y = x \/ Max x y = y.
Proof.
  unfold Max.
  destruct (IsInf x 1) eqn:Hx.
  { destruct x as [|[]| |]; try discriminate. now left. }
  destruct (IsInf y 1) eqn:Hy; simpl.
  { destruct y as [|[]| |]; try discriminate. now right. }
  destruct (IsNaN x) eqn:Nx.
  { destruct x; try discriminate. now left. }
  destruct (IsNaN y) eqn:Ny; simpl.
  { destruct y; try discriminate. now right. }
  destruct (eqb x zero && eqb x y), (Signbit x), (gtb x y); auto.
Qed.

Lemma Max_not_below (b x y : float64) :
  is_nan b = false -> ltb x b = false -> ltb (Max x y) b = false.
Proof.
  intros Hb Hx.
  destruct (is_nan (Max x y)) eqn:Hn.
  { destruct (Max x y); try discriminate. reflexivity. }
  unfold Max in *.
  destruct (IsInf x 1 || IsInf y 1) eqn:Hi.
  { destruct b as [| [] | |]; try discriminate; reflexivity. }
  destruct (IsNaN x || IsNaN y) eqn:Hnan; [discriminate|].
  apply orb_false_elim in Hnan as [Nx Ny].
  assert (Hxy : leb x y = true -> ltb y b = false).
  { intros Hle. destruct (ltb y b) eqn:Hyb; [|reflexivity].
    apply ltb_false_leb in Hx; try assumption.
    pose proof (leb_trans _ _ _ Hx Hle) as Hby.
    unfold ltb, leb, SFltb, SFleb in *.
    destruct (compare_total y b Ny Hb) as [c Hc].
    rewrite Hc in Hyb. rewrite (compare_antisym _ _ _ Hc) in Hby.
    destruct c; simpl in *; congruence. }
  destruct (eqb x zero && eqb x y) eqn:Hz.
  { destruct (Signbit x); [|assumption].
    apply Hxy. apply andb_prop in Hz as [_ Hz].
    unfold eqb, leb, SFeqb, SFleb in *. destruct (SFcompare x y) as [[]|]; congruence. }
  destruct (gtb x y) eqn:Hg; [assumption|].
  apply Hxy. now apply ltb_false_leb.
Qed.

(** ** [util.Clamp] *)




Lemma Clamp_NaN (lo hi : float64) : Clamp lo hi NaN = NaN.
Proof. unfold Clamp, gtb, ltb, SFltb. now destruct lo, hi. Qed.


(** ** Rounding of small integers *)

Lemma fexp_normal (e : Z) : -1074 <= e -> fexp prec emax (53 + e) = e.
Proof. intros He. unfold fexp, emin, prec, emax. lia. Qed.

Lemma round_canonical (s : bool) (m : positive) (e : Z) :
  digits2_pos m = 53%positive -> -1074 <= e <= 971 ->
  binary_round_aux prec emax s (Z.pos m) e loc_Exact = S754_finite s m e.
Proof.
  intros Hd He. unfold binary_round_aux, shr_fexp. simpl Zdigits2. rewrite Hd.
  rewrite (fexp_normal e) by lia. rewrite Z.sub_diag. simpl.
  rewrite Hd. rewrite (fexp_normal e) by lia. rewrite Z.sub_diag. simpl.
  unfold prec, emax. destruct (Z.leb_spec e (1024 - 53)); [reflexivity | lia].
Qed.

Lemma digits2_iter (m : positive) (k : positive) :
  digits2_pos (Pos.iter xO m k) = (digits2_pos m + k)%positive.
Proof.
  induction k using Pos.peano_ind.
  - simpl. lia.
  - rewrite Pos.iter_succ. simpl. rewrite IHk. lia.
Qed.

Lemma iter_xO_value (m k : positive) : Z.pos (Pos.iter xO m k) = Z.pos m * 2 ^ Z.pos k.
Proof.
  induction k using Pos.peano_ind.
  - simpl. lia.
  - rewrite Pos.iter_succ, Pos2Z.inj_xO, IHk, Pos2Z.inj_succ, Z.pow_succ_r by lia. lia.
Qed.

Lemma digits2_lower (p : positive) : 2 ^ (Z.pos (digits2_pos p) - 1) <= Z.pos p.
Proof.
  induction p as [p IH|p IH|]; simpl digits2_pos; [| |simpl; lia];
    rewrite Pos2Z.inj_succ;
    replace (Z.succ (Z.pos (digits2_pos p)) - 1) with (Z.succ (Z.pos (digits2_pos p) - 1)) by lia;
    rewrite Z.pow_succ_r by lia; lia.
Qed.

(** The float64 of a positive integer below 2^53: a 53-bit mantissa. *)
Lemma of_Z_small (p : positive) :
  Z.pos p < 2 ^ 53 ->
  exists m e, of_Z (Z.pos p) = S754_finite false m e /\
              digits2_pos m = 53%positive /\ -52 <= e <= 0 /\ Z.pos m = Z.pos p * 2 ^ (- e).
Proof.
  intros Hp.
  assert (Hd : Z.pos (digits2_pos p) <= 53).
  { pose proof (digits2_lower p) as Hl.
    destruct (Z.le_gt_cases (Z.pos (digits2_pos p)) 53) as [|Hgt]; [assumption|].
    assert (2 ^ 53 <= 2 ^ (Z.pos (digits2_pos p) - 1)) by (apply Z.pow_le_mono_r; lia). lia. }
  unfold of_Z, binary_normalize, binary_round.
  replace (fexp prec emax (Z.pos (digits2_pos p) + 0)) with (Z.pos (digits2_pos p) - 53)
    by (unfold fexp, emin, prec, emax; lia).
  unfold shl_align.
  destruct (Z.pos (digits2_pos p) - 53 - 0) as [|k|k] eqn:Hk; try lia.
  - exists p, 0. rewrite round_canonical by lia. repeat split; lia.
  - exists (Pos.iter xO p k), (Z.pos (digits2_pos p) - 53).
    rewrite round_canonical; [| rewrite digits2_iter; lia | lia].
    repeat split; try lia. + rewrite digits2_iter; lia.
    + rewrite iter_xO_value. f_equal. f_equal. lia.
Qed.

Lemma shr_52 (m : positive) :
  SpecFloat.iter_pos shr_1 52%positive (Build_shr_record (Z.pos (Pos.iter xO m 52)) false false)
  = Build_shr_record (Z.pos m) false false.
Proof. reflexivity. Qed.

Lemma round_shifted (s : bool) (m : positive) (e : Z) :
  digits2_pos m = 53%positive -> -1022 <= e <= 971 ->
  binary_round_aux prec emax s (Z.pos (Pos.iter xO m 52)) (e - 52) loc_Exact
  = S754_finite s m e.
Proof.
  intros Hd He.
  pose proof (digits2_iter m 52) as HD. rewrite Hd in HD.
  pose proof (shr_52 m) as HS.
  remember (Pos.iter xO m 52) as M eqn:EM. clear EM.
  unfold binary_round_aux, shr_fexp. cbn [Zdigits2]. rewrite HD.
  replace (fexp prec emax (Z.pos (53 + 52) + (e - 52))) with e
    by (unfold fexp, emin, prec, emax; lia).
  replace (e - (e - 52)) with 52 by lia.
  unfold shr_record_of_loc, shr. rewrite HS.
  replace (e - 52 + 52) with e by lia.
  cbn [shr_m loc_of_shr_record round_nearest_even Zdigits2].
  rewrite Hd, (fexp_normal e), Z.sub_diag by lia.
  cbn [shr_m]. unfold prec, emax.
  destruct (Z.leb_spec e (1024 - 53)); [reflexivity | lia].
Qed.

Lemma mul_one_canonical (m : positive) (e : Z) :
  digits2_pos m = 53%positive -> -1022 <= e <= 971 ->
  mul (of_Z 1) (S754_finite false m e) = S754_finite false m e.
Proof.
  intros Hd He.
  change (of_Z 1) with (S754_finite false 4503599627370496 (-52)).
  unfold mul, SFmul.
  change (Pos.mul 4503599627370496 m) with (Pos.iter xO m 52).
  replace (-52 + e) with (e - 52) by lia. now apply round_shifted.
Qed.

Lemma trunc_one_times (n : Z) :
  1 <= n <= 2 ^ 53 -> trunc (mul (of_Z 1) (of_Z n)) = Some n.
Proof.
  intros Hn. destruct (Z.eq_dec n (2 ^ 53)) as [-> | Hne]; [vm_compute; reflexivity|].
  destruct n as [|p|p]; try lia.
  destruct (of_Z_small p) as (m & e & -> & Hd & He & Hm); [lia|].
  rewrite mul_one_canonical by lia. unfold trunc. rewrite Hm. f_equal.
  destruct (Z.leb_spec 0 e).
  - replace e with 0 by lia. simpl. lia.
  - apply Z.div_mul. apply Z.pow_nonzero; lia.
Qed.

(** ** Signs *)

Lemma round_aux_sign (s : bool) (m e : Z) (l : location) :
  is_nan (binary_round_aux prec emax s m e l) = true \/
  Signbit (binary_round_aux prec emax s m e l) = s.
Proof.
  unfold binary_round_aux.
  destruct (shr_fexp prec emax m e l) as [mrs e'].
  destruct (shr_fexp prec emax _ e' loc_Exact) as [mrs' e''].
  destruct (shr_m mrs'); [now right | | now left].
  destruct (e'' <=? emax - prec); now right.
Qed.

Lemma of_Z_sign (n : Z) : 0 <= n -> is_nan (of_Z n) = true \/ Signbit (of_Z n) = false.
Proof.
  intros Hn. destruct n as [|p|p]; [now right | | lia].
  unfold of_Z, binary_normalize, binary_round.
  destruct (shl_align _ _ _) as [mz ez]. apply round_aux_sign.
Qed.

Lemma mul_sign (x y : float64) :
  is_nan (mul x y) = true \/ Signbit (mul x y) = xorb (Signbit x) (Signbit y).
Proof.
  destruct x as [s1|s1| |s1 m1 e1], y as [s2|s2| |s2 m2 e2]; simpl; auto.
  apply round_aux_sign.
Qed.

Lemma leb_zero_sign (x : float64) :
  leb zero x = true -> Signbit x = false \/ exists s, x = S754_zero s.
Proof.
  unfold leb, SFleb. destruct x as [s|s| |s m e]; simpl; try discriminate; eauto;
    destruct s; try discriminate; auto.
Qed.

Lemma trunc_sign (x : float64) (z : Z) : Signbit x = false -> trunc x = Some z -> 0 <= z.
Proof.
  destruct x as [s|s| |s m e]; simpl; try discriminate; intros -> [= <-]; [lia|].
  destruct (Z.leb_spec 0 e).
  - apply Z.mul_nonneg_nonneg; [lia | apply Z.pow_nonneg; lia].
  - apply Z.div_pos; [lia | apply Z.pow_pos_nonneg; lia].
Qed.

Lemma trunc_product_nonneg (clipping : float64) (n z : Z) :
  0 <= n -> leb zero clipping = true -> trunc (mul clipping (of_Z n)) = Some z -> 0 <= z.
Proof.
  intros Hn Hc Ht.
  destruct (mul_sign clipping (of_Z n)) as [Hnan | Hs].
  { destruct (mul clipping (of_Z n)); discriminate. }
  destruct (of_Z_sign n Hn) as [Hnan | Hsn].
  { destruct (of_Z n); try discriminate. destruct clipping; discriminate. }
  destruct (leb_zero_sign clipping Hc) as [Hsc | [s ->]].
  - apply (trunc_sign _ _ (eq_trans Hs (f_equal2 xorb Hsc Hsn)) Ht).
  - destruct (of_Z n); simpl in Ht; try discriminate; injection Ht as <-; lia.
Qed.

(** ** Runs of [ParallelR]: invariants

    A property of the shared state and the tasks that every single action
    preserves holds when the run ends, and then every task has finished. *)
Section Run_invariant.
Context {State Local Action : Type}.
Variable exec : Action -> State -> Local -> State * Local.
Variable Inv : State -> list (@task Local Action) -> Prop.

Hypothesis Inv_step : forall s ts k a rest l,
  Inv s ts -> ts !! k = Some (Task (a :: rest) l) ->
  Inv (exec a s l).1 (<[k := Task rest (exec a s l).2]> ts).

Lemma complete_Inv (acts : list Action) : forall s l pre post,
  Inv s (pre ++ Task acts l :: post) ->
  Inv (complete exec acts s l).1 (pre ++ Task [] (complete exec acts s l).2 :: post).
Proof.
  induction acts as [|a acts IH]; intros s l pre post HI; simpl; [exact HI|].
  pose proof (Inv_step s _ (length pre) a acts l HI) as Hs.
  rewrite list_lookup_middle in Hs by reflexivity. specialize (Hs eq_refl).
  rewrite insert_app_r_alt, Nat.sub_diag in Hs by lia. simpl in Hs.
  destruct (exec a s l) as [s' l'] eqn:E. simpl in Hs. now apply IH.
Qed.

Lemma drain_Inv (post : list task) : forall pre s,
  Forall finished pre -> Inv s (pre ++ post) ->
  exists ts', Forall finished ts' /\ Inv (drain exec post s) ts'.
Proof.
  induction post as [|[acts l] post IH]; intros pre s Hpre HI; simpl.
  - exists pre. rewrite app_nil_r in HI. auto.
  - apply complete_Inv in HI.
    apply (IH (pre ++ [Task [] (complete exec acts s l).2])).
    + apply Forall_app; split; [assumption|]. now repeat constructor.
    + now rewrite <- app_assoc.
Qed.

Lemma run_Inv (sched : list nat) : forall ts s,
  Inv s ts -> exists ts', Forall finished ts' /\ Inv (run exec sched ts s) ts'.
Proof.
  induction sched as [|k sched IH]; intros ts s HI; simpl.
  - now apply (drain_Inv ts []).
  - destruct (ts !! k) as [[acts l]|] eqn:Hk; [|now apply IH].
    unfold step; simpl. destruct acts as [|a rest].
    + apply IH. now rewrite list_insert_id.
    + pose proof (Inv_step s ts k a rest l HI Hk) as Hs.
      destruct (exec a s l) as [s' l']. now apply IH.
Qed.

End Run_invariant.

(** The runs are the complete interleavings: the final state of every
    complete interleaving is the result of the run of some schedule, and
    the result of every run is the final state of a complete
    interleaving. *)
Section Run_interleaving.
Context {State Local Action : Type}.
Variable exec : Action -> State -> Local -> State * Local.

Lemma drain_finished (ts : list (@task Local Action)) (s : State) :
  Forall finished ts -> drain exec ts s = s.
Proof.
  induction 1 as [|[acts l] ts Hf _ IH]; [reflexivity|].
  unfold finished in Hf. simpl in Hf. subst acts. exact IH.
Qed.

Lemma interleaving_is_run (ts : list (@task Local Action)) (s s' : State) :
  interleaving exec ts s s' -> exists sched, run exec sched ts s = s'.
Proof.
  induction 1 as [ts s Hf | ts s k a rest l s' Hk _ [sched IH]].
  - exists []. now apply drain_finished.
  - exists (k :: sched). simpl. rewrite Hk. unfold step. simpl.
    destruct (exec a s l) as [s1 l1]. exact IH.
Qed.

Lemma run_is_interleaving (sched : list nat) (ts : list (@task Local Action)) (s : State) :
  interleaving exec ts s (run exec sched ts s).
Proof.
  destruct (run_Inv exec
              (fun s1 ts1 => forall s', interleaving exec ts1 s1 s' -> interleaving exec ts s s'))
    with (sched := sched) (ts := ts) (s := s) as (ts' & Hf & HI).
  - intros s1 ts1 k a rest l H1 Hk s' Hs'. apply H1. now apply (interleaving_step _ _ _ k a rest l).
  - auto.
  - apply HI. now constructor.
Qed.

End Run_interleaving.

(** ** Stage 1: the luminance scan *)

Section Luminance.
Context `{Colorful}.
Variable m : Image.
Variable ts : list Rectangle.

Local Abbreviation peak_value := (peak_value m ts).
Local Abbreviation scans_tile := (scans_tile ts).
Local Abbreviation lum_Inv := (lum_Inv m ts).
Local Abbreviation Y_at := (Y_at m).

Lemma peak_value_Max (x y : float64) : peak_value x -> peak_value y -> peak_value (Max x y).
Proof.
  intros [Hx Hx'] [Hy Hy']. split.
  - now apply Max_not_below.
  - destruct (Max_cases x y) as [-> | ->]; assumption.
Qed.

Lemma peak_value_scan (s : float64) (x y : Z) :
  peak_value s -> scans_tile (Scan x y) -> peak_value (Max s (Y_at (x, y))).
Proof.
  intros [Hs Hs'] (tile & Hin & Hp). split.
  - now apply Max_not_below.
  - destruct (Max_cases s (Y_at (x, y))) as [-> | ->]; [assumption|].
    right. now exists tile, (x, y).
Qed.

Lemma lum_Inv_step s tasks k a rest l :
  lum_Inv s tasks -> tasks !! k = Some (Task (a :: rest) l) ->
  lum_Inv (lum_exec m a s l).1 (<[k := Task rest (lum_exec m a s l).2]> tasks).
Proof.
  intros [Hs Hall] Hk.
  pose proof (proj1 (Forall_lookup _ _) Hall k _ Hk) as [Hl Hacts]. simpl in Hl, Hacts.
  apply Forall_cons in Hacts as [Ha Hrest].
  destruct a as [x y|]; simpl.
  - split; [assumption|]. apply Forall_insert; [assumption|]. simpl. split; [|assumption].
    now apply (peak_value_scan s x y).
  - split; [now apply peak_value_Max|]. apply Forall_insert; [assumption|]. now split.
Qed.

Lemma lum_Inv_init (s : float64) :
  peak_value s -> lum_Inv s (map lum_task ts).
Proof.
  intros Hs. split; [assumption|]. apply Forall_forall. intros t Ht.
  apply list_elem_of_fmap in Ht as (r & -> & Hr). simpl. split.
  - split; [reflexivity | now left].
  - apply Forall_app. split; [|now repeat constructor].
    apply Forall_forall. intros a Ha. apply list_elem_of_fmap in Ha as ([x y] & -> & Hp).
    simpl. now exists r.
Qed.

Lemma luminance_peak_value (s : float64) (sched : list nat) :
  peak_value s -> peak_value (run (lum_exec m) sched (map lum_task ts) s).
Proof.
  intros Hs.
  destruct (run_Inv (lum_exec m) lum_Inv lum_Inv_step sched _ s (lum_Inv_init s Hs))
    as (ts' & _ & HI & _).
  exact HI.
Qed.

End Luminance.

(** C1 (amended).  Started on a fresh operator, the luminance scan sets
    the peak luminance, for every image, tiling and schedule, to a value
    that is never below 0, the zero value of the field (the constant 20000
    is not a floor of it), and that is 0 or the Y channel of some pixel of
    some tile; hence it is at most any bound of 0 and of the Y channels. *)
Theorem luminance_peak `{Colorful} (m : Image) (contrast minClipping maxClipping : float64)
  (par : parallel) :
  ltb (ICam06.maxLum (luminance (NewICam06 m contrast minClipping maxClipping) par)) zero
    = false /\
  (ICam06.maxLum (luminance (NewICam06 m contrast minClipping maxClipping) par) = zero \/
   exists tile p, tile ∈ tiles par /\ p ∈ scan tile /\
     ICam06.maxLum (luminance (NewICam06 m contrast minClipping maxClipping) par)
       = Y_at m p) /\
  (forall M, leb zero M = true ->
     (forall tile p, tile ∈ tiles par -> p ∈ scan tile -> leb (Y_at m p) M = true) ->
     leb (ICam06.maxLum (luminance (NewICam06 m contrast minClipping maxClipping) par)) M
       = true).
Proof.
  destruct (luminance_peak_value m (tiles par) zero (schedule par)) as [Hlow Hmem];
    [split; [reflexivity | now left]|].
  split; [exact Hlow|]. split; [exact Hmem|].
  intros M HM Hall. unfold luminance. simpl.
  destruct Hmem as [-> | (tile & p & Ht & Hp & ->)]; [exact HM | now apply (Hall tile)].
Qed.

(** C1, as stated, fails: on the image of one pixel of luminance 1 the scan
    yields 1, below the cap 20000 that max(cap, 1) would give. *)
Lemma luminance_below_cap :
  ICam06.maxLum (@luminance Fixtures.colorful (NewDefaultICam06 (Fixtures.flat 1 1 1))
                   (Fixtures.whole (Fixtures.flat 1 1 1))) = of_Z 1 /\
  Max maxLum (of_Z 1) = maxLum /\
  ltb (of_Z 1) maxLum = true.
Proof. repeat split; vm_compute; reflexivity. Qed.

(** ** Determinism

    The peak found by the luminance scan depends on the tiles. *)

(** C2, evaluated where it fails.  On the image of two pixels of luminance
    5 and 1, both tilings partition the bounds; with one tile the scan
    keeps the Y of the last pixel, 1, and the normaliser saturates both
    pixels at 20000; with one tile per pixel it finds 5, and the normalised
    pixel at (1, 0) is 4000. *)
Theorem luminance_depends_on_tiling `{Colorful} :
  partition (Bounds Fixtures.two_pixels) (tiles (Fixtures.whole Fixtures.two_pixels)) /\
  partition (Bounds Fixtures.two_pixels) (tiles Fixtures.columns_of_two) /\
  ICam06.maxLum (luminance (NewDefaultICam06 Fixtures.two_pixels)
                   (Fixtures.whole Fixtures.two_pixels)) = of_Z 1 /\
  ICam06.maxLum (luminance (NewDefaultICam06 Fixtures.two_pixels)
                   Fixtures.columns_of_two) = of_Z 5 /\
  HDRAt (NewApply1 Fixtures.two_pixels
           (normalizer (luminance (NewDefaultICam06 Fixtures.two_pixels)
                          (Fixtures.whole Fixtures.two_pixels)))) 0 0
    = CXYZ (mkXYZ maxLum maxLum maxLum) /\
  HDRAt (NewApply1 Fixtures.two_pixels
           (normalizer (luminance (NewDefaultICam06 Fixtures.two_pixels)
                          Fixtures.columns_of_two))) 1 0
    = CXYZ (mkXYZ (of_Z 4000) (of_Z 4000) (of_Z 4000)) /\
  HDRAt (NewApply1 Fixtures.two_pixels
           (normalizer (luminance (NewDefaultICam06 Fixtures.two_pixels)
                          (Fixtures.whole Fixtures.two_pixels)))) 1 0
    = CXYZ (mkXYZ maxLum maxLum maxLum).
Proof.
  repeat split; vm_compute; reflexivity.
Qed.

(** With the stand-ins of [Fixtures] for what lies outside the sources, the
    output rasters of the two tilings of [luminance_depends_on_tiling]
    differ at the pixel (0, 0). *)
Lemma sample_output_depends_on_tiling :
  (fun m => Pix m !! (0, 0)) <$>
    (@Perform Fixtures.amd64 Fixtures.math Fixtures.sorting Fixtures.colorful
       Fixtures.conversions Fixtures.filters (NewDefaultICam06 Fixtures.two_pixels)
       (PerformPar (Fixtures.whole Fixtures.two_pixels) (Fixtures.whole Fixtures.two_pixels)
          (NormalizePar (Fixtures.whole Fixtures.two_pixels)
             (Fixtures.whole Fixtures.two_pixels) (Fixtures.whole Fixtures.two_pixels)))).2
  = Ok (Some (mkRGBA64 0 65534 57156 65535)) /\
  (fun m => Pix m !! (0, 0)) <$>
    (@Perform Fixtures.amd64 Fixtures.math Fixtures.sorting Fixtures.colorful
       Fixtures.conversions Fixtures.filters (NewDefaultICam06 Fixtures.two_pixels)
       (PerformPar Fixtures.columns_of_two (Fixtures.whole Fixtures.two_pixels)
          (NormalizePar (Fixtures.whole Fixtures.two_pixels)
             (Fixtures.whole Fixtures.two_pixels) (Fixtures.whole Fixtures.two_pixels)))).2
  = Ok (Some (mkRGBA64 18195 60875 53692 65535)).
Proof. split; vm_compute; reflexivity. Qed.

(** ** Stage 8: the sample table *)

Lemma assign_length {A : Type} (s s' : list A) (i : Z) (v : A) :
  assign s i v = Ok s' -> length s' = length s.
Proof.
  unfold assign. destruct (_ && _); [|discriminate].
  intros [= <-]. apply length_insert.
Qed.

(** Whatever the tiles and the schedule, the table keeps the length it was
    made with, three entries per pixel. *)
Lemma fill_length (normLum : Z -> Z -> outcome (float64 * float64 * float64)) (size : Z)
  (par : parallel) (perc : percentiles) :
  fill normLum size par = Ok perc -> length perc = Z.to_nat (size * 3).
Proof.
  unfold fill.
  destruct (run_Inv (fill_exec normLum size)
              (fun s _ => forall p, s = Ok p -> length p = Z.to_nat (size * 3)))
    with (sched := schedule par) (ts := map fill_task (tiles par))
         (s := Ok (replicate (Z.to_nat (size * 3)) zero) : outcome percentiles)
    as (ts' & _ & Hlen).
  - intros s ts k a rest [[r g] b] Hs _ p.
    destruct s as [q|]; [|discriminate]. specialize (Hs q eq_refl).
    destruct a as [x y|x y|x y|x y]; simpl.
    + destruct (normLum x y); [|discriminate]. now intros [= <-].
    + intros E. now rewrite (assign_length _ _ _ _ E).
    + intros E. now rewrite (assign_length _ _ _ _ E).
    + intros E. now rewrite (assign_length _ _ _ _ E).
  - intros p [= <-]. apply length_replicate.
  - exact (Hlen perc).
Qed.

(** C3, evaluated where it fails.  On a 2 x 2 image the table has 12
    entries, but the slot index x * y sends the pixels (0, 0), (1, 0) and
    (0, 1) to slot 0 of each channel: only the samples of (0, 1) and (1, 1)
    are in the table when it is sorted, those of (0, 0) and (1, 0) were
    overwritten, and two slots of each channel were never written. *)
Theorem fill_overwrites_samples :
  fill Fixtures.ramp 4 (Parallel [mkRect 0 0 2 2] [])
  = Ok [of_Z 21; of_Z 31; zero; zero;
        of_Z 22; of_Z 32; zero; zero;
        of_Z 23; of_Z 33; zero; zero].
Proof. vm_compute. reflexivity. Qed.

(** ** The final clipping *)

Lemma sub_equal_zero (x y : float64) :
  is_finite x = true -> eqb x y = true -> exists s, sub x y = S754_zero s.
Proof.
  unfold eqb, SFeqb, sub.
  destruct x as [s1|s1| |s1 m1 e1], y as [s2|s2| |s2 m2 e2]; simpl;
    try discriminate; intros _ Hc;
    try (destruct s1; discriminate); try (destruct s2; discriminate).
  - destruct s1, s2; eauto.
  - destruct s1, s2; try discriminate; split_compare; try discriminate;
      subst; rewrite ?Z.min_id, Z.sub_diag; simpl; eauto.
Qed.

Lemma equal_infinite (x y : float64) :
  is_finite x = false -> eqb x y = true -> exists s, x = S754_infinity s /\ y = S754_infinity s.
Proof.
  unfold eqb, SFeqb.
  destruct x as [s1|s1| |s1 m1 e1], y as [s2|s2| |s2 m2 e2]; simpl; try discriminate;
    intros _; destruct s1; try destruct s2; try discriminate; eauto.
Qed.

Lemma div_by_zero_not_finite (x : float64) (s : bool) :
  is_finite (div x (S754_zero s)) = false.
Proof. now destruct x. Qed.

Lemma clip_quotient_not_finite (minRGB maxRGB v : float64) :
  eqb maxRGB minRGB = true ->
  is_finite (div (sub v minRGB) (sub maxRGB minRGB)) = false.
Proof.
  intros Heq. destruct (is_finite maxRGB) eqn:Hf.
  - destruct (sub_equal_zero _ _ Hf Heq) as [s ->]. apply div_by_zero_not_finite.
  - destruct (equal_infinite _ _ Hf Heq) as (s & -> & ->).
    replace (sub (S754_infinity s) (S754_infinity s)) with NaN by now destruct s.
    now destruct (sub v (S754_infinity s)).
Qed.

Lemma clip_flat (minRGB maxRGB v : float64) :
  eqb maxRGB minRGB = true -> is_finite v = true -> eqb v minRGB = true ->
  clip minRGB maxRGB v = NaN.
Proof.
  intros Heq Hv Hvm. unfold clip.
  destruct (sub_equal_zero _ _ Hv Hvm) as [s1 ->].
  assert (Hf : is_finite maxRGB = true).
  { unfold eqb, SFeqb in *. destruct maxRGB as [| [] | |], minRGB as [| [] | |], v as [| [] | | []];
      simpl in *; try discriminate; reflexivity. }
  destruct (sub_equal_zero _ _ Hf Heq) as [s2 ->]. reflexivity.
Qed.

(** C4 (amended).  When maxRGB equals minRGB, the quotient of the final
    clipping is never a finite number: it is NaN or an infinity, and NaN
    when the channel equals minRGB (the flat case, 0/0).  No step raises an
    error: the pixel is encoded and stored.  The quotient goes through the
    clamp into [0, 1], which keeps NaN and maps the infinities to 1 and 0;
    the NaN reaches the 16-bit encoder [normalizeC] and there the conversion
    to uint16, whose result the language leaves to the implementation. *)
Theorem clip_degenerate `{Platform} `{Math} (minRGB maxRGB : float64)
  (Heq : eqb maxRGB minRGB = true) :
  (forall v, is_finite ((v - minRGB) / (maxRGB - minRGB))%F = false) /\
  (forall v, is_finite v = true -> eqb v minRGB = true -> clip minRGB maxRGB v = NaN) /\
  (forall v, clip minRGB maxRGB v = Clamp zero (of_Z 1) ((v - minRGB) / (maxRGB - minRGB))%F) /\
  Clamp zero (of_Z 1) NaN = NaN /\
  Clamp zero (of_Z 1) (Inf false) = of_Z 1 /\
  Clamp zero (of_Z 1) (Inf true) = zero /\
  normalizeC NaN = uint16_unrepresentable NaN /\
  (forall r g b,
     encode minRGB maxRGB (r, g, b)
     = mkRGBA64 (normalizeC (clip minRGB maxRGB r)) (normalizeC (clip minRGB maxRGB g))
                (normalizeC (clip minRGB maxRGB b)) RangeMax) /\
  (forall normLum p m rgb,
     normLum p.1 p.2 = Ok rgb ->
     (clip_exec normLum minRGB maxRGB p (Ok m) tt).1
     = Ok (SetRGBA64 m p.1 p.2 (encode minRGB maxRGB rgb))).
Proof.
  split; [intros v; now apply clip_quotient_not_finite|].
  split; [intros v Hv Hvm; now apply clip_flat|].
  split; [reflexivity|]. split; [reflexivity|]. split; [reflexivity|].
  split; [reflexivity|]. split; [reflexivity|]. split; [reflexivity|].
  intros normLum p m rgb E. unfold clip_exec. simpl. now rewrite E.
Qed.

Lemma clip_degenerate_witness :
  eqb zero zero = true /\
  clip zero zero zero = NaN /\
  @normalizeC Fixtures.amd64 Fixtures.math (clip zero zero zero) = 0.
Proof.
  split; [reflexivity|].
  destruct (@clip_degenerate Fixtures.amd64 Fixtures.math zero zero eq_refl)
    as (_ & Hflat & _ & _ & _ & _ & Henc & _).
  split; [now apply Hflat|].
  rewrite (Hflat zero eq_refl eq_refl). rewrite Henc. reflexivity.
Defined.

(** C4, as stated, fails for the infinite quotients: with maxRGB = minRGB
    = 0 the channel 1 has the quotient 1/0 = +Infinity, which the clamp
    turns into 1 before the encoder. *)
Lemma clip_infinity_clamped :
  eqb zero zero = true /\
  ((of_Z 1 - zero) / (zero - zero))%F = Inf false /\
  clip zero zero (of_Z 1) = of_Z 1 /\
  is_finite (clip zero zero (of_Z 1)) = true.
Proof. repeat split; vm_compute; reflexivity. Qed.

(** ** The percentile query *)

(** C5.  On a table of n >= 1 samples (n at most 2^53, far above what a
    slice can hold) the query at clipping 1.0 computes the index
    int(1.0 x n) = n, one past the last sample, and the access panics.  For
    a clipping p >= 0 whose product with n has the integer part z < n, the
    query computes the index z >= 0 and returns the sample at z. *)
Theorem percentile_bounds `{Platform} (p : percentiles)
  (Hn : 1 <= Z.of_nat (length p) <= 2 ^ 53) :
  int (of_Z 1 * of_Z (Z.of_nat (length p)))%F = Z.of_nat (length p) /\
  percentile p (of_Z 1) = Panic /\
  (forall clipping z,
     leb zero clipping = true ->
     trunc (clipping * of_Z (Z.of_nat (length p)))%F = Some z ->
     z < Z.of_nat (length p) ->
     0 <= z /\
     int (clipping * of_Z (Z.of_nat (length p)))%F = z /\
     exists v, p !! Z.to_nat z = Some v /\ percentile p clipping = Ok v).
Proof.
  assert (Hone : int (of_Z 1 * of_Z (Z.of_nat (length p)))%F = Z.of_nat (length p)).
  { unfold int. rewrite trunc_one_times by assumption.
    destruct (Z.leb_spec (- 2 ^ 63) (Z.of_nat (length p))); [|lia].
    destruct (Z.ltb_spec (Z.of_nat (length p)) (2 ^ 63)); [reflexivity | lia]. }
  split; [exact Hone|]. split.
  - unfold percentile. rewrite Hone. unfold index.
    rewrite Z.ltb_irrefl, andb_false_r. reflexivity.
  - intros clipping z Hc Ht Hz.
    assert (H0 : 0 <= z)
      by (apply (trunc_product_nonneg clipping (Z.of_nat (length p)) z); [lia | assumption..]).
    assert (Hi : int (clipping * of_Z (Z.of_nat (length p)))%F = z).
    { unfold int. rewrite Ht.
      destruct (Z.leb_spec (- 2 ^ 63) z); [|lia].
      destruct (Z.ltb_spec z (2 ^ 63)); [reflexivity | lia]. }
    split; [exact H0|]. split; [exact Hi|].
    destruct (lookup_lt_is_Some_2 p (Z.to_nat z)) as [v Hv]; [lia|].
    exists v. split; [exact Hv|].
    unfold percentile. rewrite Hi. unfold index. rewrite Hv.
    destruct (Z.leb_spec 0 z); [|lia].
    destruct (Z.ltb_spec z (Z.of_nat (length p))); [reflexivity | lia].
Qed.

Lemma percentile_bounds_witness :
  1 <= Z.of_nat (length [of_Z 7; of_Z 8; of_Z 9]) <= 2 ^ 53 /\
  @percentile Fixtures.amd64 [of_Z 7; of_Z 8; of_Z 9] (of_Z 1) = Panic /\
  exists v, [of_Z 7; of_Z 8; of_Z 9] !! Z.to_nat 1 = Some v /\
            @percentile Fixtures.amd64 [of_Z 7; of_Z 8; of_Z 9] (lit 1 2) = Ok v.
Proof.
  assert (Hn : 1 <= Z.of_nat (length [of_Z 7; of_Z 8; of_Z 9]) <= 2 ^ 53) by (simpl; lia).
  split; [exact Hn|].
  destruct (@percentile_bounds Fixtures.amd64 [of_Z 7; of_Z 8; of_Z 9] Hn) as (_ & Hp & Hq).
  split; [exact Hp|].
  destruct (Hq (lit 1 2) 1) as (_ & _ & Hv); [reflexivity | reflexivity | simpl; lia |].
  exact Hv.
Defined.

(** ** Stage 5: tone compression over the white-point raster *)

Lemma owned_split (tasks : list (@task tc_locals tc_action)) (k : nat) (tk tk' : task) :
  tasks !! k = Some tk ->
  owned tasks = owned (take k tasks) ++ stores (pending tk) ++ owned (drop (S k) tasks) /\
  owned (<[k := tk']> tasks)
  = owned (take k tasks) ++ stores (pending tk') ++ owned (drop (S k) tasks).
Proof.
  intros Hk. unfold owned. split.
  - rewrite <- (take_drop_middle tasks k tk Hk) at 1.
    now rewrite flat_map_app.
  - rewrite insert_take_drop by (now apply lookup_lt_Some in Hk).
    now rewrite flat_map_app.
Qed.

Lemma owned_insert_same (tasks : list (@task tc_locals tc_action)) k tk tk' :
  tasks !! k = Some tk -> stores (pending tk') = stores (pending tk) ->
  owned (<[k := tk']> tasks) = owned tasks.
Proof.
  intros Hk E. destruct (owned_split tasks k tk tk' Hk) as [-> ->]. now rewrite E.
Qed.

Lemma owned_insert_store (tasks : list (@task tc_locals tc_action)) k x y rest l l' :
  tasks !! k = Some (Task (Store x y :: rest) l) ->
  owned tasks ≡ₚ (x, y) :: owned (<[k := Task rest l']> tasks).
Proof.
  intros Hk. destruct (owned_split tasks k _ (Task rest l') Hk) as [-> ->]. simpl.
  symmetry. apply Permutation_middle.
Qed.

Lemma owned_elem (tasks : list (@task tc_locals tc_action)) k tk p :
  tasks !! k = Some tk -> p ∈ stores (pending tk) -> p ∈ owned tasks.
Proof.
  intros Hk Hp. destruct (owned_split tasks k tk tk Hk) as [-> _].
  rewrite !elem_of_app. auto.
Qed.

Lemma white_HDRAt_fresh (sh : tc_shared) (x y : Z) :
  fresh (store sh) (x, y) -> (white_HDRAt sh x y).2 = sh.
Proof.
  intros Hf. unfold white_HDRAt.
  destruct (Cells (store sh) !! (x, y)) as [[[] c]|] eqn:E; try reflexivity.
  specialize (Hf _ E). discriminate.
Qed.

Lemma RasterSet_other (r : Raster) (x y : Z) (c : cell) (p : Z * Z) :
  p <> (x, y) -> Cells (RasterSet r x y c) !! p = Cells r !! p.
Proof.
  intros Hp. unfold RasterSet. destruct (In x y (RBounds r)); [|reflexivity].
  simpl. now rewrite lookup_insert_ne.
Qed.

Lemma RasterSet_well_formed (r : Raster) (x y : Z) (c : cell) :
  well_formed r -> well_formed (RasterSet r x y c).
Proof.
  intros Hw p c' Hc. unfold RasterSet in *.
  destruct (In x y (RBounds r)) eqn:Hin; [|now apply (Hw p c')].
  simpl in *. destruct (decide (p = (x, y))) as [-> | Hne].
  - exact Hin.
  - rewrite lookup_insert_ne in Hc by congruence. now apply (Hw p c').
Qed.

Lemma RasterSet_compressed (r : Raster) (x y : Z) (c : color) :
  well_formed r -> compressed (RasterSet r x y (Cell ToneCompressed c)) (x, y).
Proof.
  intros Hw c' Hc. unfold RasterSet in *.
  destruct (In x y (RBounds r)) eqn:Hin.
  - simpl in Hc. rewrite lookup_insert_eq in Hc. now injection Hc as <-.
  - specialize (Hw _ _ Hc). simpl in Hw. congruence.
Qed.

Section ToneCompression.
Context `{Math} `{Colorful} `{Conversions}.
Variable t : ICam06.t.
Variable b : Image.
Hypothesis Hb : ICam06.baseLayer t = Some b.
Variable Sw : float64.
Variable todo : list (Z * Z).

Lemma chromaticAdaptation_fresh (sh : tc_shared) (x y : Z) :
  fresh (store sh) (x, y) ->
  exists xyz, chromaticAdaptation t sh x y = Ok (xyz, sh).
Proof.
  intros Hf. unfold chromaticAdaptation. rewrite Hb.
  unfold field_HDRAt, mbind, outcome_bind.
  destruct (LMSCAT02w (HDRAt b x y)) as [[l1 m1] s1].
  pose proof (white_HDRAt_fresh sh x y Hf) as E.
  destruct (white_HDRAt sh x y) as [w s']. simpl in E. subst s'.
  destruct (LMSCAT02w w) as [[l2 m2] s2]. destruct cat02D65 as [[c0 c1] c2].
  eauto.
Qed.

Lemma tc_Inv_step s tasks k a rest l :
  tc_Inv todo s tasks -> tasks !! k = Some (Task (a :: rest) l) ->
  tc_Inv todo (tc_exec t Sw a s l).1 (<[k := Task rest (tc_exec t Sw a s l).2]> tasks).
Proof.
  intros (sh & -> & Hst & Hwf & Hnd & Hrb & Hfresh & Htodo) Hk.
  pose proof (proj1 (Forall_lookup _ _) Hrb k _ Hk) as Hacts. simpl in Hacts.
  destruct a as [x y|x y|x y]; unfold tc_exec.
  - (* the read of Yw *)
    destruct Hacts as [Hin Hrest].
    assert (Hf : fresh (store sh) (x, y)).
    { apply Hfresh. apply (owned_elem tasks k _ _ Hk). exact Hin. }
    pose proof (white_HDRAt_fresh sh x y Hf) as E.
    destruct (white_HDRAt sh x y) as [c s']. simpl in E. subst s'. cbn [fst snd].
    exists sh. rewrite (owned_insert_same tasks k _ _ Hk) by reflexivity.
    repeat split; try assumption. apply Forall_insert; assumption.
  - (* the reads of chromaticAdaptation *)
    destruct Hacts as [Hin Hrest].
    assert (Hf : fresh (store sh) (x, y)).
    { apply Hfresh. apply (owned_elem tasks k _ _ Hk). exact Hin. }
    destruct (chromaticAdaptation_fresh sh x y Hf) as [xyz ->]. cbn [fst snd].
    exists sh. rewrite (owned_insert_same tasks k _ _ Hk) by reflexivity.
    repeat split; try assumption. apply Forall_insert; assumption.
  - (* the Set *)
    pose proof (owned_insert_store tasks k x y rest l l Hk) as Hperm.
    rewrite Hperm in Hnd. apply NoDup_cons in Hnd as [Hnotin Hnd'].
    cbn [fst snd]. eexists. split; [reflexivity|]. unfold toneCompressed_Set. cbn [store stale].
    split; [assumption|]. split; [now apply RasterSet_well_formed|].
    split; [assumption|]. split; [apply Forall_insert; assumption|]. split.
    + intros p Hp c Hc.
      assert (Hne : p <> (x, y)) by (intros ->; contradiction).
      rewrite RasterSet_other in Hc by assumption.
      apply (Hfresh p); [|assumption]. rewrite Hperm. now right.
    + intros p Hp. destruct (decide (p = (x, y))) as [-> | Hne].
      * right. now apply RasterSet_compressed.
      * destruct (Htodo p Hp) as [Ho | Hc].
        -- left. rewrite Hperm in Ho. apply elem_of_cons in Ho as [? | ?]; [contradiction | assumption].
        -- right. intros c Hcell. rewrite RasterSet_other in Hcell by assumption. now apply Hc.
Qed.

End ToneCompression.

(** The loop nest of a tile visits each of its points once, all inside
    the rectangle. *)
Lemma flat_map_bind {A B : Type} (f : A -> list B) (l : list A) : flat_map f l = l ≫= f.
Proof. induction l as [|a l IH]; [reflexivity|]. simpl. now rewrite IH. Qed.

Lemma elem_of_scan (r : Rectangle) (x y : Z) : (x, y) ∈ scan r <-> In x y r = true.
Proof.
  unfold scan, In, Dx, Dy. rewrite flat_map_bind, list_elem_of_bind.
  setoid_rewrite elem_of_seqZ. setoid_rewrite list_elem_of_fmap.
  setoid_rewrite elem_of_seqZ.
  rewrite !andb_true_iff, !Z.leb_le, !Z.ltb_lt. split.
  - intros (y' & (x' & [= -> ->] & Hx) & Hy). lia.
  - intros Hxy. exists y. split; [exists x; split; [reflexivity|] |]; lia.
Qed.

Lemma NoDup_scan (r : Rectangle) : NoDup (scan r).
Proof.
  unfold scan. rewrite flat_map_bind. apply NoDup_bind.
  - intros y1 y2 [x y] _ _ H1 H2.
    apply list_elem_of_fmap in H1 as (x1 & [= -> ->] & _).
    apply list_elem_of_fmap in H2 as (x2 & [= _ ->] & _). reflexivity.
  - intros y _. apply NoDup_fmap_2; [|apply NoDup_seqZ]. intros x1 x2 [= ->]. reflexivity.
  - apply NoDup_seqZ.
Qed.

Lemma partition_NoDup (bounds : Rectangle) (ts : list Rectangle) :
  partition bounds ts -> NoDup (flat_map scan ts).
Proof. unfold partition. intros ->. apply NoDup_scan. Qed.

(** The tasks of the stage at its start. *)
Lemma stores_tc_task (l : list (Z * Z)) :
  stores (flat_map (fun p => [ReadYw p.1 p.2; Adapt p.1 p.2; Store p.1 p.2]) l) = l.
Proof. induction l as [|[x y] l IH]; [reflexivity|]. simpl. f_equal. exact IH. Qed.

Lemma reads_before_store_tc_task (l : list (Z * Z)) :
  reads_before_store (flat_map (fun p => [ReadYw p.1 p.2; Adapt p.1 p.2; Store p.1 p.2]) l).
Proof.
  induction l as [|[x y] l IH]; [exact I|]. simpl.
  fold (stores (flat_map (fun p => [ReadYw p.1 p.2; Adapt p.1 p.2; Store p.1 p.2]) l)).
  repeat split; try exact IH; left.
Qed.

Lemma owned_tc_tasks (ts : list Rectangle) : owned (map tc_task ts) = flat_map scan ts.
Proof.
  induction ts as [|r ts IH]; [reflexivity|].
  unfold owned in *. simpl. rewrite IH. f_equal. apply stores_tc_task.
Qed.

(** The raster of the local white point, as [Perform] allocates it. *)
Lemma rasterize_cells (h : content) (m : Image) (p : Z * Z) (c : cell) :
  Cells (rasterize h m) !! p = Some c -> holds c = h /\ In p.1 p.2 (Bounds m) = true.
Proof.
  unfold rasterize. simpl. intros Hc. apply elem_of_list_to_map_2 in Hc.
  apply list_elem_of_fmap in Hc as ([x y] & [= -> ->] & Hp). split; [reflexivity|].
  now apply elem_of_scan.
Qed.

Lemma scan_Sw_fresh `{Colorful} (t : ICam06.t) (sh : tc_shared) :
  (forall p, fresh (store sh) p) -> (scan_Sw t sh).2 = sh.
Proof.
  intros Hf. unfold scan_Sw.
  generalize (Inf true). induction (scan _) as [|[x y] l IH]; intros Sw; [reflexivity|].
  simpl. pose proof (white_HDRAt_fresh sh x y (Hf (x, y))) as E.
  destruct (white_HDRAt sh x y) as [c s']. simpl in E. subst s'. apply IH.
Qed.

Lemma owned_finished (tasks : list (@task tc_locals tc_action)) :
  Forall finished tasks -> owned tasks = [].
Proof.
  induction 1 as [|[acts l] tasks Hf _ IH]; [reflexivity|].
  unfold finished in Hf. simpl in Hf. subst acts. exact IH.
Qed.

(** The stage returns; no read through [t.white] found an overwritten cell;
    every point of the tiles holds tone-compressed output. *)
Lemma toneCompression_sound `{Math} `{Colorful} `{Conversions}
  (t : ICam06.t) (b : Image) (w : Raster) (par : parallel) :
  ICam06.baseLayer t = Some b -> ICam06.white t = Some w ->
  (forall p, fresh w p) -> well_formed w ->
  NoDup (flat_map scan (tiles par)) ->
  exists r,
    toneCompression t par = Ok (r, false, ICam06.set_white None t) /\
    forall p, p ∈ flat_map scan (tiles par) -> compressed r p.
Proof.
  intros Hb Hw Hfresh Hwf Hnd. unfold toneCompression. rewrite Hw.
  pose proof (scan_Sw_fresh t (TcShared w false) Hfresh) as E.
  destruct (scan_Sw t (TcShared w false)) as [Sw s]. simpl in E. subst s.
  destruct (run_Inv (tc_exec t Sw) (tc_Inv (flat_map scan (tiles par)))
              (tc_Inv_step t b Hb Sw (flat_map scan (tiles par)))
              (schedule par) (map tc_task (tiles par)) (Ok (TcShared w false)))
    as (ts' & Hfin & sh & -> & Hst & _ & _ & _ & _ & Htodo).
  { exists (TcShared w false). rewrite owned_tc_tasks.
    repeat split; try assumption; try reflexivity.
    - apply Forall_forall. intros tk Htk.
      apply list_elem_of_fmap in Htk as (r & -> & _). apply reads_before_store_tc_task.
    - intros p _. apply Hfresh.
    - intros p Hp. now left. }
  exists (store sh). simpl. rewrite Hst. split; [reflexivity|].
  intros p Hp. destruct (Htodo p Hp) as [Ho | Hc]; [|exact Hc].
  rewrite (owned_finished ts' Hfin) in Ho. inversion Ho.
Qed.

Lemma after_toneCompression_white `{Platform} `{Math} `{Sorting} `{Colorful} `{Conversions}
  (t : ICam06.t) (r : Raster) (par : normalize_parallel) (w : option Raster) :
  after_toneCompression (ICam06.set_white w t) r par = after_toneCompression t r par.
Proof. destruct t. reflexivity. Qed.

(** C6.  With tiles that partition the bounds, the tone-compression stage
    returns with its ghost flag down: under every schedule, no read through
    [t.white] found a cell that had been overwritten.  When it returns,
    [t.white] is nil and every cell of the raster at a point of the image
    holds tone-compressed output, so that no read of the raster by a later
    stage finds white-point data; and what the later stages compute does
    not depend on the field [t.white]. *)
Theorem white_point_not_read_after_overwrite
  `{Platform} `{Math} `{Sorting} `{Colorful} `{Conversions} `{Filters}
  (t : ICam06.t) (par : perform_parallel)
  (Htiles : partition (Bounds (ICam06.HDRImage t)) (tiles (tone_par par))) :
  exists toneCompressed t',
    toneCompression (before_toneCompression t par) (tone_par par)
      = Ok (toneCompressed, false, t') /\
    ICam06.white t' = None /\
    (forall p, p ∈ scan (Bounds (ICam06.HDRImage t)) -> compressed toneCompressed p) /\
    Perform t par = (false, after_toneCompression t' toneCompressed (normalize_par par)) /\
    (forall w, after_toneCompression (ICam06.set_white w t') toneCompressed (normalize_par par)
               = after_toneCompression t' toneCompressed (normalize_par par)).
Proof.
  destruct (toneCompression_sound (before_toneCompression t par) _ _ (tone_par par)
              eq_refl eq_refl) as (r & E & Hc).
  - intros p c Hcell. now apply rasterize_cells in Hcell.
  - intros p c Hcell. now apply rasterize_cells in Hcell.
  - now apply (partition_NoDup (Bounds (ICam06.HDRImage t))).
  - exists r, (ICam06.set_white None (before_toneCompression t par)).
    split; [exact E|]. split; [reflexivity|]. split.
    + intros p Hp. apply Hc. unfold partition in Htiles. now rewrite Htiles.
    + split; [unfold Perform; now rewrite E|].
      intros w. apply after_toneCompression_white.
Qed.

Lemma white_point_witness :
  partition (Bounds (ICam06.HDRImage (NewDefaultICam06 Fixtures.two_pixels)))
            (tiles (tone_par Fixtures.sample_par)) /\
  (@Perform Fixtures.amd64 Fixtures.math Fixtures.sorting Fixtures.colorful
     Fixtures.conversions Fixtures.filters
     (NewDefaultICam06 Fixtures.two_pixels) Fixtures.sample_par).1 = false.
Proof.
  assert (Hp : partition (Bounds (ICam06.HDRImage (NewDefaultICam06 Fixtures.two_pixels)))
                 (tiles (tone_par Fixtures.sample_par)))
    by (vm_compute; reflexivity).
  split; [exact Hp|].
  destruct (@white_point_not_read_after_overwrite Fixtures.amd64 Fixtures.math
              Fixtures.sorting Fixtures.colorful Fixtures.conversions Fixtures.filters
              (NewDefaultICam06 Fixtures.two_pixels) Fixtures.sample_par Hp)
    as (r & t' & _ & _ & _ & E & _).
  rewrite E. reflexivity.
Defined.

(** ** Stage 2: the input normaliser *)




(** ** Construction *)




(** ** [clampToZero] *)

(** C9. [clampToZero] returns 0 for NaN, +Infinity and -Infinity, and
    returns every other value (the zeros and the finite numbers of either
    sign) unchanged; a float64 is one or the other. *)
Theorem clampToZero_spec :
  clampToZero NaN = zero /\
  clampToZero (Inf false) = zero /\
  clampToZero (Inf true) = zero /\
  (forall s, clampToZero (S754_zero s) = S754_zero s) /\
  (forall s m e, clampToZero (S754_finite s m e) = S754_finite s m e) /\
  (forall x, clampToZero x = if is_finite x then x else zero).
Proof.
  repeat split; try reflexivity.
  intros [s|[|]| |s m e]; reflexivity.
Qed.

(** ** Package hdrcolor: the alpha of every conversion *)

(** C10.  Every capability method of every colour variant returns the
    alpha 0xFFFF, that is 65535.0, whatever the channels of the colour. *)
Theorem alpha_always_opaque `{Colorful} :
  (forall c : RGB, qa (HDRRGBA c) = alpha_opaque /\ qa (HDRXYZA c) = alpha_opaque /\
                   qa (HDRPixel c) = alpha_opaque) /\
  (forall c : XYZ, qa (HDRRGBA c) = alpha_opaque /\ qa (HDRXYZA c) = alpha_opaque /\
                   qa (HDRPixel c) = alpha_opaque) /\
  (forall c : RAW, qa (HDRRGBA c) = alpha_opaque /\ qa (HDRXYZA c) = alpha_opaque /\
                   qa (HDRPixel c) = alpha_opaque) /\
  (forall c : color, qa (HDRRGBA c) = alpha_opaque /\ qa (HDRXYZA c) = alpha_opaque /\
                     qa (HDRPixel c) = alpha_opaque) /\
  trunc alpha_opaque = Some 65535 /\
  alpha_opaque = S754_finite false (65535 * 2 ^ 37) (- 37).
Proof.
  assert (R : forall c : RGB, qa (HDRRGBA c) = alpha_opaque /\
                qa (HDRXYZA c) = alpha_opaque /\ qa (HDRPixel c) = alpha_opaque).
  { intros c. simpl. unfold RGB_HDRXYZA.
    destruct (LinearRgbToXyz _ _ _) as [[? ?] ?]. now repeat split. }
  assert (X : forall c : XYZ, qa (HDRRGBA c) = alpha_opaque /\
                qa (HDRXYZA c) = alpha_opaque /\ qa (HDRPixel c) = alpha_opaque).
  { intros c. simpl. unfold XYZ_HDRRGBA.
    destruct (XyzToLinearRgb _ _ _) as [[? ?] ?]. now repeat split. }
  assert (W : forall c : RAW, qa (HDRRGBA c) = alpha_opaque /\
                qa (HDRXYZA c) = alpha_opaque /\ qa (HDRPixel c) = alpha_opaque).
  { intros c. now repeat split. }
  split; [exact R|]. split; [exact X|]. split; [exact W|].
  split; [intros [c|c|c]; [apply R | apply X | apply W]|].
  split; vm_compute; reflexivity.
Qed.

(* ===================================================================== *)
(** * Further properties of the sources *)
(* ===================================================================== *)

(** ** Package hdrcolor: [RGBA] and the colour models *)

(** The alpha of [RGBA] is 0xFFFF for an RGB colour, but 0xFFFF x 0xFFFF =
    0xFFFE0001 for an XYZ and for a RAW colour, whose methods scale the
    alpha of [HDRRGBA], already 0xFFFF, once more: above the range
    [0, 0xffff] their comment promises. *)
Theorem RGBA_alpha `{Platform32} `{Colorful} :
  (forall c : RGB, a32 (RGB_RGBA c) = 65535) /\
  (forall c : XYZ, a32 (XYZ_RGBA c) = 4294836225) /\
  (forall c : RAW, a32 (RAW_RGBA c) = 4294836225) /\
  65535 < 4294836225 < 2 ^ 32.
Proof.
  split; [reflexivity|]. split.
  - intros c. unfold XYZ_RGBA, XYZ_HDRRGBA.
    destruct (XyzToLinearRgb _ _ _) as [[r g] b]. vm_compute. reflexivity.
  - split; [intros c; vm_compute; reflexivity | lia].
Qed.

(** [rgbModel] returns an RGB colour that has the [HDRRGBA] of the colour
    it was given, and converting twice is converting once. *)
Theorem rgbModel_spec `{Colorful} (c : any_color) :
  (exists rgb, rgbModel c = HDR (CRGB rgb)) /\
  rgbModel (rgbModel c) = rgbModel c /\
  (forall h, c = HDR h ->
     exists rgb, rgbModel c = HDR (CRGB rgb) /\ HDRRGBA rgb = HDRRGBA h).
Proof.
  split; [destruct c as [[rgb|xyz|raw]|r g b a]; simpl; eauto|].
  split; [destruct c as [[rgb|xyz|raw]|r g b a]; reflexivity|].
  intros h ->. destruct h as [rgb|xyz|raw]; simpl.
  - exists rgb. now destruct rgb.
  - eexists. split; [reflexivity|]. unfold XYZ_HDRRGBA.
    destruct (XyzToLinearRgb _ _ _) as [[r g] b]. reflexivity.
  - eexists. split; [reflexivity|]. reflexivity.
Qed.

Lemma rgbModel_spec_witness :
  exists rgb,
    @rgbModel Fixtures.colorful (HDR (Fixtures.grey 5)) = HDR (CRGB rgb) /\
    @HDRRGBA RGB (@RGB_Color Fixtures.colorful) rgb = @HDRRGBA color (@color_Color Fixtures.colorful) (Fixtures.grey 5).
Proof.
  exact (proj2 (proj2 (@rgbModel_spec Fixtures.colorful (HDR (Fixtures.grey 5))))
           (Fixtures.grey 5) eq_refl).
Defined.

(** [xyzModel] returns an XYZ colour and converting twice is converting
    once.  The result has the [HDRXYZA] of an RGB or XYZ colour it was
    given; a RAW colour it converts as if its channels were linear RGB,
    where the [HDRXYZA] of the RAW colour returns them as they are. *)
Theorem xyzModel_spec `{Colorful} (c : any_color) :
  (exists xyz, xyzModel c = HDR (CXYZ xyz)) /\
  xyzModel (xyzModel c) = xyzModel c /\
  (forall rgb, c = HDR (CRGB rgb) ->
     exists xyz, xyzModel c = HDR (CXYZ xyz) /\ HDRXYZA xyz = HDRXYZA rgb) /\
  (forall xyz, c = HDR (CXYZ xyz) -> xyzModel c = c) /\
  (forall raw x y z, c = HDR (CRAW raw) ->
     LinearRgbToXyz (RAW_P1 raw) (RAW_P2 raw) (RAW_P3 raw) = (x, y, z) ->
     xyzModel c = HDR (CXYZ (mkXYZ x y z)) /\
     HDRXYZA raw = Quad (RAW_P1 raw) (RAW_P2 raw) (RAW_P3 raw) alpha_opaque).
Proof.
  split.
  { destruct c as [[rgb|xyz|raw]|r g b a]; simpl; eauto;
      destruct (LinearRgbToXyz _ _ _) as [[x y] z]; eauto. }
  split.
  { destruct c as [[rgb|xyz|raw]|r g b a]; simpl; try reflexivity;
      destruct (LinearRgbToXyz _ _ _) as [[x y] z]; reflexivity. }
  split.
  { intros rgb ->. simpl. unfold RGB_HDRXYZA.
    destruct (LinearRgbToXyz _ _ _) as [[x y] z]. eexists. split; reflexivity. }
  split; [intros xyz ->; reflexivity|].
  intros raw x y z -> E. simpl. rewrite E. split; reflexivity.
Qed.

Lemma xyzModel_spec_witness :
  exists xyz,
    @xyzModel Fixtures.colorful (HDR (CRGB (mkRGB one one one))) = HDR (CXYZ xyz) /\
    @HDRXYZA XYZ (@XYZ_Color Fixtures.colorful) xyz = @HDRXYZA RGB (@RGB_Color Fixtures.colorful) (mkRGB one one one).
Proof.
  exact (proj1 (proj2 (proj2 (@xyzModel_spec Fixtures.colorful
                                (HDR (CRGB (mkRGB one one one))))))
           (mkRGB one one one) eq_refl).
Defined.

(** ** The percentile table as a [sort.Interface] *)

Lemma index_Ok {A : Type} (s : list A) (i : Z) (a : A) :
  index s i = Ok a <-> 0 <= i /\ s !! Z.to_nat i = Some a.
Proof.
  unfold index. split.
  - destruct (Z.leb_spec 0 i), (Z.ltb_spec i (Z.of_nat (length s))); simpl; try discriminate.
    destruct (s !! Z.to_nat i); [intros [= ->]; auto | discriminate].
  - intros [Hi Hs]. pose proof (lookup_lt_Some _ _ _ Hs).
    destruct (Z.leb_spec 0 i), (Z.ltb_spec i (Z.of_nat (length s))); simpl; try lia.
    now rewrite Hs.
Qed.

Lemma index_in_range {A : Type} (s : list A) (i : Z) :
  0 <= i < Z.of_nat (length s) -> exists a, index s i = Ok a.
Proof.
  intros Hi. destruct (lookup_lt_is_Some_2 s (Z.to_nat i)) as [a Ha]; [lia|].
  exists a. apply index_Ok. split; [lia | exact Ha].
Qed.

Lemma index_out_of_range {A : Type} (s : list A) (i : Z) :
  ~ 0 <= i < Z.of_nat (length s) -> index s i = Panic.
Proof.
  intros Hi. unfold index.
  destruct (Z.leb_spec 0 i), (Z.ltb_spec i (Z.of_nat (length s))); simpl; try reflexivity; lia.
Qed.

Lemma assign_Ok {A : Type} (s : list A) (i : Z) (v : A) :
  0 <= i < Z.of_nat (length s) -> assign s i v = Ok (<[Z.to_nat i := v]> s).
Proof.
  intros Hi. unfold assign.
  destruct (Z.leb_spec 0 i), (Z.ltb_spec i (Z.of_nat (length s))); simpl; try reflexivity; lia.
Qed.

Lemma insert_Permutation {A : Type} (l : list A) (i : nat) (a b : A) :
  l !! i = Some a -> a :: <[i := b]> l ≡ₚ b :: l.
Proof.
  revert i. induction l as [|x l IH]; intros [|i]; simpl; try discriminate.
  - intros [= ->]. apply perm_swap.
  - intros Hi. rewrite (perm_swap x a), (IH i Hi). apply perm_swap.
Qed.

Lemma swap_Permutation {A : Type} (l : list A) (i j : nat) (a b : A) :
  l !! i = Some b -> l !! j = Some a -> <[j := b]> (<[i := a]> l) ≡ₚ l.
Proof.
  intros Hi Hj. apply (Permutation_cons_inv (a := a)).
  destruct (decide (i = j)) as [->|Hne].
  - rewrite list_insert_insert_eq. assert (a = b) as -> by congruence.
    now rewrite list_insert_id.
  - rewrite (insert_Permutation _ j a b)
      by (rewrite list_lookup_insert_ne by congruence; exact Hj).
    apply (insert_Permutation l i b a Hi).
Qed.

Lemma ltb_irrefl (x : float64) : ltb x x = false.
Proof.
  destruct (is_nan x) eqn:Hx; [now destruct x|].
  destruct (ltb x x) eqn:H; [|reflexivity].
  unfold ltb, SFltb in H.
  destruct (SFcompare x x) as [c|] eqn:Hc; [|discriminate].
  pose proof (compare_antisym _ _ _ Hc) as Hc'. rewrite Hc in Hc'.
  destruct c; discriminate.
Qed.

Lemma ltb_not_nan (x y : float64) : ltb x y = true -> is_nan x = false /\ is_nan y = false.
Proof. intros H. apply leb_not_nan. now apply ltb_leb. Qed.

Lemma Swap_defined_aux (p : percentiles) (i j : Z) :
  0 <= i < Len p -> 0 <= j < Len p -> exists p', Swap p i j = Ok p'.
Proof.
  revert p. unfold Len, percentiles. intros p Hi Hj.
  destruct (index_in_range p i Hi) as [b Hb], (index_in_range p j Hj) as [a Ha].
  unfold Swap. rewrite Ha, Hb. simpl. rewrite (assign_Ok p i a Hi). simpl.
  rewrite assign_Ok by (rewrite length_insert; lia). eauto.
Qed.

(** With both indices inside the table [Swap] does not panic; the new
    table has the same length, holds at [i] what was at [j] and at [j]
    what was at [i], is unchanged elsewhere, is a permutation of the old
    one, and a second [Swap] restores the old one. *)
Theorem Swap_spec (p : percentiles) (i j : Z) :
  0 <= i < Len p -> 0 <= j < Len p ->
  exists p', Swap p i j = Ok p' /\
    Len p' = Len p /\
    index p' i = index p j /\ index p' j = index p i /\
    (forall k, k <> i -> k <> j -> index p' k = index p k) /\
    p' ≡ₚ p /\
    Swap p' i j = Ok p.
Proof.
  revert p. unfold Len, percentiles. intros p Hi Hj.
  destruct (index_in_range p i Hi) as [b Hb], (index_in_range p j Hj) as [a Ha].
  pose proof (proj1 (index_Ok _ _ _) Hb) as [_ Lb].
  pose proof (proj1 (index_Ok _ _ _) Ha) as [_ La].
  set (q := <[Z.to_nat i := a]> p).
  set (p' := <[Z.to_nat j := b]> q).
  assert (Lq : length q = length p) by apply length_insert.
  assert (Lp' : length p' = length p) by (unfold p', q; now rewrite !length_insert).
  assert (E : Swap p i j = Ok p').
  { unfold Swap. rewrite Ha, Hb. simpl. rewrite (assign_Ok p i a Hi). simpl.
    apply assign_Ok. fold q. lia. }
  assert (Ei : p' !! Z.to_nat i = Some a).
  { unfold p', q. destruct (decide (Z.to_nat j = Z.to_nat i)) as [e|n].
    - rewrite e, list_lookup_insert_eq by (rewrite length_insert; lia).
      f_equal. rewrite e in La. congruence.
    - rewrite list_lookup_insert_ne, list_lookup_insert_eq by (congruence || lia).
      reflexivity. }
  assert (Ej : p' !! Z.to_nat j = Some b).
  { unfold p'. apply list_lookup_insert_eq. lia. }
  exists p'. split; [exact E|]. split; [now rewrite Lp'|].
  split; [rewrite Ha; apply index_Ok; split; [lia | exact Ei]|].
  split; [rewrite Hb; apply index_Ok; split; [lia | exact Ej]|].
  split.
  { intros k Hki Hkj. unfold index. rewrite Lp'.
    destruct (Z.leb_spec 0 k), (Z.ltb_spec k (Z.of_nat (length p))); simpl; try reflexivity.
    unfold p', q. now rewrite !list_lookup_insert_ne by lia. }
  split; [exact (swap_Permutation p _ _ a b Lb La)|].
  unfold Swap.
  rewrite (proj2 (index_Ok p' j b) (conj (proj1 Hj) Ej)),
          (proj2 (index_Ok p' i a) (conj (proj1 Hi) Ei)). simpl.
  rewrite (assign_Ok p' i b) by lia. simpl.
  rewrite assign_Ok by (rewrite length_insert; lia). f_equal.
  apply list_eq. intros n.
  destruct (decide (n = Z.to_nat j)) as [->|Nj].
  { rewrite list_lookup_insert_eq by (rewrite length_insert; lia). now rewrite La. }
  rewrite list_lookup_insert_ne by congruence.
  destruct (decide (n = Z.to_nat i)) as [->|Ni].
  { rewrite list_lookup_insert_eq by lia. now rewrite Lb. }
  unfold p', q. now rewrite !list_lookup_insert_ne by congruence.
Qed.

Lemma Swap_spec_witness :
  exists p', Swap [of_Z 1; of_Z 2; of_Z 3] 0 2 = Ok p' /\
    Len p' = Len [of_Z 1; of_Z 2; of_Z 3] /\
    index p' 0 = index [of_Z 1; of_Z 2; of_Z 3] 2 /\
    index p' 2 = index [of_Z 1; of_Z 2; of_Z 3] 0 /\
    (forall k, k <> 0 -> k <> 2 -> index p' k = index [of_Z 1; of_Z 2; of_Z 3] k) /\
    p' ≡ₚ [of_Z 1; of_Z 2; of_Z 3] /\
    Swap p' 0 2 = Ok [of_Z 1; of_Z 2; of_Z 3].
Proof. apply (Swap_spec [of_Z 1; of_Z 2; of_Z 3] 0 2); vm_compute; split; congruence. Defined.

Lemma Less_Ok (p : percentiles) (i j : Z) (r : bool) :
  Less p i j = Ok r <-> exists a b, index p i = Ok a /\ index p j = Ok b /\ r = ltb a b.
Proof.
  unfold Less. split.
  - destruct (index p i) as [a|]; [|discriminate]. simpl.
    destruct (index p j) as [b|]; [|discriminate]. simpl.
    intros [= <-]. eauto.
  - intros (a & b & -> & -> & ->). reflexivity.
Qed.

(** [Less] is a strict order on the entries of the table: no entry is
    below itself, and [Less] is transitive.  Any two entries that are
    numbers are related one way or the other unless they compare equal;
    an entry that is NaN is related to no entry, in neither direction, so
    on a table with a NaN the order [sort.Sort] is given is not total. *)
Theorem Less_strict_order (p : percentiles) :
  (forall i, Less p i i <> Ok true) /\
  (forall i j k, Less p i j = Ok true -> Less p j k = Ok true -> Less p i k = Ok true) /\
  (forall i j a b, index p i = Ok a -> index p j = Ok b ->
     is_nan a = false -> is_nan b = false ->
     Less p i j = Ok true \/ Less p j i = Ok true \/ SFcompare a b = Some Eq) /\
  (forall i j a, index p i = Ok a -> is_nan a = true ->
     Less p i j <> Ok true /\ Less p j i <> Ok true).
Proof.
  split.
  { intros i H. apply Less_Ok in H as (a & b & Ha & Hb & E).
    rewrite Ha in Hb. injection Hb as <-. now rewrite ltb_irrefl in E. }
  split.
  { intros i j k H1 H2.
    apply Less_Ok in H1 as (a & b & Ha & Hb & E1).
    apply Less_Ok in H2 as (b' & c & Hb' & Hc & E2).
    rewrite Hb in Hb'. injection Hb' as <-.
    apply Less_Ok. exists a, c. split; [exact Ha|]. split; [exact Hc|].
    symmetry. apply (ltb_leb_trans a b c); [now symmetry | apply ltb_leb; now symmetry]. }
  split.
  { intros i j a b Ha Hb Na Nb.
    destruct (compare_total a b Na Nb) as [c Hc].
    pose proof (compare_antisym _ _ _ Hc) as Hc'.
    destruct c.
    - right. right. exact Hc.
    - left. apply Less_Ok. exists a, b. unfold ltb, SFltb. now rewrite Hc.
    - right. left. apply Less_Ok. exists b, a. unfold ltb, SFltb. now rewrite Hc'. }
  intros i j a Ha Na. split; intros H; apply Less_Ok in H as (x & y & Hx & Hy & E);
    symmetry in E; apply ltb_not_nan in E as [Nx Ny]; congruence.
Qed.

Lemma Less_strict_order_witness :
  Less [of_Z 1; NaN; of_Z 2] 0 2 = Ok true /\
  Less [of_Z 1; NaN; of_Z 2] 1 2 <> Ok true /\
  Less [of_Z 1; NaN; of_Z 2] 2 1 <> Ok true.
Proof.
  destruct (Less_strict_order [of_Z 1; NaN; of_Z 2]) as (_ & _ & Htot & Hnan).
  split.
  - destruct (Htot 0 2 (of_Z 1) (of_Z 2) eq_refl eq_refl eq_refl eq_refl)
      as [E | [E | E]]; [exact E | vm_compute in E; discriminate..].
  - exact (Hnan 1 2 NaN eq_refl eq_refl).
Defined.

(** [Less] and [Swap] return exactly when both indices are inside the
    table, and panic otherwise; in particular both panic on the empty
    table. *)
Theorem Less_Swap_defined (p : percentiles) (i j : Z) :
  ((exists r, Less p i j = Ok r) <-> 0 <= i < Len p /\ 0 <= j < Len p) /\
  ((exists p', Swap p i j = Ok p') <-> 0 <= i < Len p /\ 0 <= j < Len p) /\
  (Len p = 0 -> Less p i j = Panic /\ Swap p i j = Panic).
Proof.
  assert (R : forall k, (exists a, index p k = Ok a) <-> 0 <= k < Len p).
  { intros k. split.
    - intros [a Ha]. apply index_Ok in Ha as [Hk Ha].
      apply lookup_lt_Some in Ha. unfold Len. lia.
    - apply index_in_range. }
  assert (L : (exists r, Less p i j = Ok r) <-> 0 <= i < Len p /\ 0 <= j < Len p).
  { split.
    - intros [r H]. apply Less_Ok in H as (a & b & Ha & Hb & _).
      split; apply R; eauto.
    - intros [Hi Hj]. apply R in Hi as [a Ha]. apply R in Hj as [b Hb].
      exists (ltb a b). apply Less_Ok. eauto. }
  assert (S' : (exists p', Swap p i j = Ok p') <-> 0 <= i < Len p /\ 0 <= j < Len p).
  { split.
    - intros [p' H]. unfold Swap in H.
      destruct (index p j) as [a|] eqn:Ha; [|discriminate].
      destruct (index p i) as [b|] eqn:Hb; [|discriminate].
      split; apply R; eauto.
    - intros [Hi Hj]. destruct (Swap_defined_aux p i j Hi Hj) as [p' E]. eauto. }
  split; [exact L|]. split; [exact S'|].
  intros H0. split.
  - destruct (Less p i j) eqn:E; [|reflexivity].
    assert (0 <= i < Len p /\ 0 <= j < Len p) by (apply L; eauto). lia.
  - destruct (Swap p i j) eqn:E; [|reflexivity].
    assert (0 <= i < Len p /\ 0 <= j < Len p) by (apply S'; eauto). lia.
Qed.

Lemma Less_Swap_defined_witness :
  (exists r, Less [of_Z 1; of_Z 2; of_Z 3] 0 2 = Ok r) /\
  (exists p', Swap [of_Z 1; of_Z 2; of_Z 3] 2 0 = Ok p') /\
  Less [] 0 0 = Panic /\ Swap [] 0 0 = Panic.
Proof.
  destruct (Less_Swap_defined [of_Z 1; of_Z 2; of_Z 3] 0 2) as (HL & _ & _).
  destruct (Less_Swap_defined [of_Z 1; of_Z 2; of_Z 3] 2 0) as (_ & HS & _).
  destruct (Less_Swap_defined [] 0 0) as (_ & _ & HE).
  split; [apply HL; unfold Len; simpl; lia|]. split; [apply HS; unfold Len; simpl; lia|].
  now apply HE.
Defined.

(** ** Runs of [ParallelR] over a state that can panic

    When a panic of one task ends the program, a run returns exactly when
    none of the actions of its tasks panics: one action that panics on
    every state makes every run panic, whatever the schedule. *)
Section Run_outcome.
Context {State Local Action : Type}.
Variable exec : Action -> outcome State -> Local -> outcome State * Local.
Variable P : State -> Prop.

Hypothesis exec_Panic : forall a l, (exec a Panic l).1 = Panic.
Hypothesis exec_P : forall a s l s', P s -> (exec a (Ok s) l).1 = Ok s' -> P s'.

Lemma run_panics (bad : Action -> Prop) (sched : list nat)
  (ts : list (@task Local Action)) (s : State) :
  (forall a s l, bad a -> P s -> (exec a (Ok s) l).1 = Panic) ->
  P s -> (exists t a, t ∈ ts /\ a ∈ pending t /\ bad a) ->
  run exec sched ts (Ok s) = Panic.
Proof.
  intros exec_bad Hs Hbad.
  destruct (run_Inv exec
    (fun st ts => st = Panic \/
       exists s, st = Ok s /\ P s /\
         exists k t a, ts !! k = Some t /\ a ∈ pending t /\ bad a))
    with (sched := sched) (ts := ts) (s := Ok s) as (ts' & Hf & HI).
  - intros st ts1 k a rest l [-> | (s1 & -> & P1 & k' & t' & b & Hk' & Hb & Bb)] Hk.
    { left. apply exec_Panic. }
    destruct (exec a (Ok s1) l).1 as [s2|] eqn:E; [right | now left].
    exists s2. split; [reflexivity|]. split; [now apply (exec_P a s1 l)|].
    destruct (decide (k' = k)) as [->|Hne].
    + rewrite Hk in Hk'. injection Hk' as <-. simpl in Hb.
      apply elem_of_cons in Hb as [-> | Hb].
      { rewrite (exec_bad _ _ l Bb P1) in E. discriminate. }
      exists k, (Task rest (exec a (Ok s1) l).2), b.
      split; [|split; [exact Hb | exact Bb]].
      apply list_lookup_insert_eq. now apply lookup_lt_Some in Hk.
    + exists k', t', b. split; [|split; [exact Hb | exact Bb]].
      now rewrite list_lookup_insert_ne by congruence.
  - right. exists s. split; [reflexivity|]. split; [exact Hs|].
    destruct Hbad as (t & a & Ht & Ha & Ba).
    apply list_elem_of_lookup in Ht as [k Hk]. eauto 6.
  - destruct HI as [-> | (s1 & _ & _ & k & t & a & Hk & Ha & _)]; [reflexivity|].
    apply (Forall_lookup_1 _ _ _ _ Hf) in Hk. unfold finished in Hk.
    rewrite Hk in Ha. now apply elem_of_nil in Ha.
Qed.

Lemma run_returns (good : Action -> Prop) (sched : list nat)
  (ts : list (@task Local Action)) (s : State) :
  (forall a s l, good a -> P s -> exists s', (exec a (Ok s) l).1 = Ok s') ->
  P s -> Forall (fun t => Forall good (pending t)) ts ->
  exists s', run exec sched ts (Ok s) = Ok s' /\ P s'.
Proof.
  intros exec_good Hs Hgood.
  destruct (run_Inv exec
    (fun st ts => (exists s, st = Ok s /\ P s) /\
                  Forall (fun t => Forall good (pending t)) ts))
    with (sched := sched) (ts := ts) (s := Ok s) as (ts' & _ & HI & _).
  - intros st ts1 k a rest l [(s1 & -> & P1) Hg] Hk.
    pose proof (Forall_lookup_1 _ _ _ _ Hg Hk) as Hgk. simpl in Hgk.
    apply Forall_cons in Hgk as [Ga Grest].
    destruct (exec_good a s1 l Ga P1) as [s2 E].
    split; [exists s2; split; [exact E | now apply (exec_P a s1 l)]|].
    apply Forall_insert; assumption.
  - split; [eauto | exact Hgood].
  - exact HI.
Qed.

End Run_outcome.

(** ** Stage 8: when the sample table can be filled *)

Lemma assign_out_of_range {A : Type} (s : list A) (i : Z) (v : A) :
  ~ 0 <= i < Z.of_nat (length s) -> assign s i v = Panic.
Proof.
  intros Hi. unfold assign.
  destruct (Z.leb_spec 0 i), (Z.ltb_spec i (Z.of_nat (length s))); simpl; try reflexivity; lia.
Qed.

Lemma fill_exec_Panic (normLum : Z -> Z -> outcome (float64 * float64 * float64)) (size : Z)
  (a : fill_action) (l : float64 * float64 * float64) :
  (fill_exec normLum size a Panic l).1 = Panic.
Proof. reflexivity. Qed.

Lemma fill_exec_length (normLum : Z -> Z -> outcome (float64 * float64 * float64)) (size : Z)
  (a : fill_action) (p : percentiles) (l : float64 * float64 * float64) (p' : percentiles) :
  length p = Z.to_nat (size * 3) ->
  (fill_exec normLum size a (Ok p) l).1 = Ok p' -> length p' = Z.to_nat (size * 3).
Proof.
  intros Hp. destruct l as [[r g] b]. destruct a as [x y|x y|x y|x y]; simpl.
  - destruct (normLum x y); [|discriminate]. now intros [= <-].
  - intros E. now rewrite (assign_length _ _ _ _ E).
  - intros E. now rewrite (assign_length _ _ _ _ E).
  - intros E. now rewrite (assign_length _ _ _ _ E).
Qed.

Lemma fill_task_pending (tile : Rectangle) (x y : Z) :
  (x, y) ∈ scan tile ->
  Sample x y ∈ pending (fill_task tile) /\ PutR x y ∈ pending (fill_task tile) /\
  PutB x y ∈ pending (fill_task tile).
Proof.
  intros Hp. unfold fill_task. simpl. rewrite flat_map_bind.
  repeat split; apply list_elem_of_bind; exists (x, y); (split; [|exact Hp]); simpl;
    repeat ((now left) || right).
Qed.

Lemma scan_pixel (x y : Z) : scan (mkRect x y (x + 1) (y + 1)) = [(x, y)].
Proof.
  unfold scan, Dx, Dy. cbn [MinX MinY MaxX MaxY].
  replace (x + 1 - x) with 1 by lia. replace (y + 1 - y) with 1 by lia. reflexivity.
Qed.

Ltac int_bounds :=
  change (2 ^ 64) with 18446744073709551616 in *;
  change (2 ^ 63) with 9223372036854775808 in *.

Lemma wrap_range (z : Z) : - 2 ^ 63 <= wrap z < 2 ^ 63.
Proof.
  unfold wrap. pose proof (Z.mod_pos_bound (z + 2 ^ 63) (2 ^ 64) eq_refl) as Hm.
  remember ((z + 2 ^ 63) mod 2 ^ 64) as m eqn:Em. clear Em. int_bounds. lia.
Qed.

Lemma wrap_small (z : Z) : - 2 ^ 63 <= z < 2 ^ 63 -> wrap z = z.
Proof.
  intros Hz. unfold wrap. rewrite Z.mod_small; int_bounds; lia.
Qed.

Lemma wrap_above (z : Z) : 2 ^ 63 <= z < 2 ^ 64 -> wrap z < 0.
Proof.
  intros Hz. unfold wrap.
  replace (z + 2 ^ 63) with (z + 2 ^ 63 - 2 ^ 64 + 1 * 2 ^ 64) by lia.
  rewrite Z_mod_plus_full, Z.mod_small; int_bounds; lia.
Qed.

(** The three slots of a pixel whose product lies in [0, size): no
    operation wraps for a table that fits the address space. *)
Lemma slots_in_table (size i : Z) :
  size * 3 < 2 ^ 63 -> 0 <= i < size ->
  int_add size i = size + i /\ int_add (int_mul size 2) i = size * 2 + i.
Proof.
  intros Hs Hi. unfold int_add, int_mul.
  rewrite (wrap_small (size * 2)) by (int_bounds; lia).
  rewrite !wrap_small by (int_bounds; lia). auto.
Qed.

(** The last slot of a pixel whose product is not below size lies outside
    the table, wrapped or not. *)
Lemma slot_outside_table (size i : Z) :
  0 < size -> size * 3 < 2 ^ 63 -> size <= i < 2 ^ 63 ->
  ~ 0 <= int_add (int_mul size 2) i < size * 3.
Proof.
  intros H0 Hs Hi. unfold int_add, int_mul.
  rewrite (wrap_small (size * 2)) by (int_bounds; lia).
  destruct (Z.lt_ge_cases (size * 2 + i) (2 ^ 63)) as [Hlt|Hge].
  - rewrite wrap_small by (int_bounds; lia). lia.
  - pose proof (wrap_above (size * 2 + i)) as Hw. int_bounds. lia.
Qed.

Lemma fill_defined (normLum : Z -> Z -> outcome (float64 * float64 * float64)) (size : Z)
  (par : parallel) :
  size * 3 < 2 ^ 63 ->
  (exists perc, fill normLum size par = Ok perc) <->
  (forall tile x y, tile ∈ tiles par -> (x, y) ∈ scan tile ->
     0 <= int_mul x y < size /\ normLum x y <> Panic).
Proof.
  intros Hsize. unfold fill. split.
  - intros [perc E] tile x y Ht Hp.
    destruct (fill_task_pending tile x y Hp) as (HS & HR & HB).
    assert (Hin : fill_task tile ∈ map fill_task (tiles par))
      by (apply list_elem_of_fmap; eauto).
    assert (Hlen : length (replicate (Z.to_nat (size * 3)) zero) = Z.to_nat (size * 3))
      by apply length_replicate.
    pose proof (fun bad step => run_panics (fill_exec normLum size)
      (fun p => length p = Z.to_nat (size * 3))
      (fill_exec_Panic normLum size) (fill_exec_length normLum size)
      bad (schedule par) (map fill_task (tiles par)) _ step Hlen) as Hrun.
    pose proof (wrap_range (x * y)) as Hw. fold (int_mul x y) in Hw.
    split; [|intros N].
    + destruct (Z.lt_ge_cases (int_mul x y) 0) as [Neg|Pos].
      { exfalso. enough (X : Ok perc = Panic) by discriminate.
        rewrite <- E. apply (Hrun (fun a => a = PutR x y)); [|eauto].
        intros a p [[r g] b] -> Hp'. simpl. apply assign_out_of_range. lia. }
      destruct (Z.lt_ge_cases (int_mul x y) size) as [Lt|Ge]; [lia|].
      exfalso. enough (X : Ok perc = Panic) by discriminate.
      rewrite <- E. destruct (Z.le_gt_cases size 0) as [Hneg|Hpos].
      { apply (Hrun (fun a => a = PutR x y)); [|eauto].
        intros a p [[r g] b] -> Hp'. simpl. apply assign_out_of_range. lia. }
      apply (Hrun (fun a => a = PutB x y)); [|eauto].
      intros a p [[r g] b] -> Hp'. simpl. apply assign_out_of_range.
      pose proof (slot_outside_table size (int_mul x y)). lia.
    + enough (X : Ok perc = Panic) by discriminate.
      rewrite <- E. apply (Hrun (fun a => a = Sample x y)); [|eauto].
      intros a p [[r g] b] -> Hp'. simpl. now rewrite N.
  - intros Hall.
    destruct (run_returns (fill_exec normLum size)
      (fun p => length p = Z.to_nat (size * 3)) (fill_exec_length normLum size)
      (fun a => match a with
                | Sample x y => normLum x y <> Panic
                | PutR x y | PutG x y | PutB x y => 0 <= int_mul x y < size
                end)
      (schedule par) (map fill_task (tiles par)) (replicate (Z.to_nat (size * 3)) zero))
      as (perc & E & _).
    + intros a p [[r g] b] Ga Hp.
      destruct a as [x y|x y|x y|x y]; simpl.
      * destruct (normLum x y); [eauto | congruence].
      * rewrite assign_Ok by lia. eauto.
      * destruct (slots_in_table size (int_mul x y) Hsize Ga) as [-> _].
        rewrite assign_Ok by lia. eauto.
      * destruct (slots_in_table size (int_mul x y) Hsize Ga) as [_ ->].
        rewrite assign_Ok by lia. eauto.
    + apply length_replicate.
    + apply Forall_forall. intros t Ht.
      apply list_elem_of_fmap in Ht as (tile & -> & Ht).
      apply Forall_forall. intros a Ha. unfold fill_task in Ha. simpl in Ha.
      rewrite flat_map_bind in Ha.
      apply list_elem_of_bind in Ha as ([x y] & Ha & Hp).
      destruct (Hall tile x y Ht Hp) as [Hi Hn]. simpl in Ha.
      repeat (apply elem_of_cons in Ha as [-> | Ha]; [assumption|]).
      now apply elem_of_nil in Ha.
    + eauto.
Qed.

(** For a table of size * 3 entries that fits the address space (size not
    negative, size * 3 below 2^63), the second pass of [normalize] returns
    the table exactly when, at every pixel (x, y) of every tile, the
    rendered colour is available and the slot index, the product x * y
    wrapped to 64 bits, lies in [0, size); one pixel with its index outside
    makes the pass panic with an index out of range, whatever the
    schedule. *)
Theorem fill_returns (normLum : Z -> Z -> outcome (float64 * float64 * float64)) (size : Z)
  (par : parallel) :
  0 <= size -> size * 3 < 2 ^ 63 ->
  (exists perc, fill normLum size par = Ok perc) <->
  (forall tile x y, tile ∈ tiles par -> (x, y) ∈ scan tile ->
     0 <= int_mul x y < size /\ normLum x y <> Panic).
Proof. intros _. apply fill_defined. Qed.

Lemma fill_returns_witness :
  (exists perc, fill Fixtures.ramp 4 (Parallel [mkRect 0 0 2 2] []) = Ok perc) /\
  (exists perc, fill Fixtures.ramp 1
                  (Parallel [mkRect (2 ^ 32) (2 ^ 32) (2 ^ 32 + 1) (2 ^ 32 + 1)] [])
                = Ok perc).
Proof.
  split.
  - apply (fill_returns Fixtures.ramp 4 (Parallel [mkRect 0 0 2 2] []));
      [lia | reflexivity |].
    intros tile x y Ht Hp. apply list_elem_of_singleton in Ht. subst tile.
    apply elem_of_scan in Hp. unfold In in Hp. cbn [MinX MinY MaxX MaxY] in Hp.
    rewrite !andb_true_iff, !Z.leb_le, !Z.ltb_lt in Hp.
    assert (Hx : x = 0 \/ x = 1) by lia. assert (Hy : y = 0 \/ y = 1) by lia.
    split; [|discriminate].
    destruct Hx as [-> | ->], Hy as [-> | ->]; vm_compute; split; congruence.
  - apply (fill_returns Fixtures.ramp 1
             (Parallel [mkRect (2 ^ 32) (2 ^ 32) (2 ^ 32 + 1) (2 ^ 32 + 1)] []));
      [lia | reflexivity |].
    intros tile x y Ht Hp. apply list_elem_of_singleton in Ht. subst tile.
    rewrite scan_pixel in Hp. apply list_elem_of_singleton in Hp. injection Hp as -> ->.
    split; [vm_compute; split; congruence | discriminate].
Defined.

(** ** [Perform]: when the operator panics *)

Section Perform_panics.
Context `{Platform} `{Math} `{Sorting} `{Colorful} `{Conversions} `{Filters}.

Lemma toneCompression_operator (t : ICam06.t) (par : parallel)
  (r : Raster) (f : bool) (t' : ICam06.t) :
  toneCompression t par = Ok (r, f, t') -> t' = ICam06.set_white None t.
Proof.
  unfold toneCompression. destruct (ICam06.white t) as [w|]; [|discriminate].
  destruct (scan_Sw t _) as [Sw s].
  destruct (run _ _ _ _) as [s'|]; [|discriminate].
  unfold mbind, outcome_bind. now intros [= _ _ <-].
Qed.

(** A [Perform] that returns has run [normalize] on an operator with the
    image and the clipping percentiles it was given. *)
Lemma Perform_normalize (t : ICam06.t) (par : perform_parallel) (out : RGBA64Image) :
  (Perform t par).2 = Ok out ->
  exists t', ICam06.HDRImage t' = ICam06.HDRImage t /\
    ICam06.MinClipping t' = ICam06.MinClipping t /\
    ICam06.MaxClipping t' = ICam06.MaxClipping t /\
    normalize t' (NewRGBA64 (Bounds (ICam06.HDRImage t))) (normalize_par par) = Ok out.
Proof.
  unfold Perform.
  destruct (toneCompression _ _) as [[[r f] t2]|] eqn:E; [|discriminate].
  apply toneCompression_operator in E. subst t2.
  unfold after_toneCompression. cbn [snd].
  destruct (ICam06.normalized _) as [n|]; [|discriminate].
  destruct (ICam06.baseLayer _) as [b|]; [|discriminate].
  unfold from_option, mbind, outcome_bind.
  intros E. match type of E with normalize ?t' _ _ = _ => exists t' end.
  split; [reflexivity|]. split; [reflexivity|]. split; [reflexivity | exact E].
Qed.

Lemma normalize_Ok (t : ICam06.t) (m : RGBA64Image) (par : normalize_parallel)
  (out : RGBA64Image) :
  normalize t m par = Ok out ->
  exists norMaxLum perc lo maxRGB,
    fill (normLum t norMaxLum) (Size (ICam06.HDRImage t)) (fill_par par) = Ok perc /\
    percentile (sort perc) (ICam06.MinClipping t) = Ok lo /\
    percentile (sort perc) (ICam06.MaxClipping t) = Ok maxRGB /\
    run (clip_exec (normLum t norMaxLum) (Min lo zero) maxRGB) (schedule (clip_par par))
        (map clip_task (tiles (clip_par par))) (Ok m) = Ok out.
Proof.
  unfold normalize.
  destruct (run (peak_exec t) _ _ _) as [norMaxLum|]; [|discriminate].
  unfold mbind at 1, outcome_bind at 1.
  destruct (fill _ _ _) as [perc|] eqn:Ef; [|discriminate].
  unfold mbind at 1, outcome_bind at 1.
  destruct (percentile (sort perc) (ICam06.MinClipping t)) as [lo|] eqn:El; [|discriminate].
  unfold mbind at 1, outcome_bind at 1.
  destruct (percentile (sort perc) (ICam06.MaxClipping t)) as [maxRGB|] eqn:Eh; [|discriminate].
  unfold mbind at 1, outcome_bind at 1.
  intros E. exists norMaxLum, perc, lo, maxRGB.
  split; [exact Ef|]. split; [exact El|]. split; [exact Eh | exact E].
Qed.

Lemma index_nil {A : Type} (i : Z) : index (@nil A) i = Panic.
Proof. apply index_out_of_range. simpl. lia. Qed.

Lemma percentile_one_panics (p : percentiles) :
  Z.of_nat (length p) <= 2 ^ 53 -> percentile p (of_Z 1) = Panic.
Proof.
  intros Hn. unfold percentile. apply index_out_of_range.
  destruct (Z.eq_dec (Z.of_nat (length p)) 0) as [E|E]; [lia|].
  assert (Hone : int (of_Z 1 * of_Z (Z.of_nat (length p)))%F = Z.of_nat (length p)).
  { unfold int. rewrite trunc_one_times by lia.
    destruct (Z.leb_spec (- 2 ^ 63) (Z.of_nat (length p))); [|lia].
    destruct (Z.ltb_spec (Z.of_nat (length p)) (2 ^ 63)); [reflexivity | lia]. }
  rewrite Hone. lia.
Qed.

Lemma Clamp_above (v : float64) :
  leb (of_Z 1) v = true -> Clamp zero (of_Z 1) v = of_Z 1.
Proof.
  intros Hv. unfold Clamp.
  assert (L : ltb v zero = false).
  { destruct (ltb v zero) eqn:E; [|reflexivity].
    pose proof (ltb_leb_trans _ _ _ E (leb_trans zero (of_Z 1) v eq_refl Hv)) as X.
    now rewrite ltb_irrefl in X. }
  rewrite L. change (gtb v (of_Z 1)) with (ltb (of_Z 1) v).
  destruct (ltb (of_Z 1) v) eqn:G; [reflexivity|].
  revert Hv G. unfold leb, ltb, SFleb, SFltb.
  destruct v as [s|s| |s m e]; try (destruct s; vm_compute; discriminate);
    try (vm_compute; discriminate).
  destruct (SFcompare (of_Z 1) (S754_finite s m e)) as [[]|] eqn:C; try discriminate.
  intros _ _. revert C. destruct s; [vm_compute; discriminate|].
  change (of_Z 1) with (S754_finite false 4503599627370496 (-52)).
  cbn [SFcompare]. destruct (Z.compare_spec (-52) e) as [<-| |]; try discriminate.
  change (PosDef.Pos.compare_cont Eq 4503599627370496 m)
    with (Pos.compare 4503599627370496 m).
  destruct (Pos.compare_spec 4503599627370496 m) as [<-| |]; try discriminate.
  reflexivity.
Qed.

End Perform_panics.

(** On an image without pixels [Perform] panics: the sample table is
    empty, and the percentile query indexes it.  (Sorting keeps the length
    of the table.) *)
Theorem Perform_empty_image `{Platform} `{Math} `{Sorting} `{Colorful} `{Conversions}
  `{Filters} (t : ICam06.t) (par : perform_parallel) :
  (forall l, length (Sort l) = length l) ->
  Size (ICam06.HDRImage t) <= 0 ->
  (Perform t par).2 = Panic.
Proof.
  intros HSort Hsize.
  destruct (Perform t par).2 as [out|] eqn:E; [exfalso | reflexivity].
  apply Perform_normalize in E as (t' & Hm & _ & _ & E).
  apply normalize_Ok in E as (norMaxLum & perc & lo & maxRGB & Ef & El & _).
  apply fill_length in Ef. rewrite Hm in Ef.
  assert (Hnil : sort perc = []).
  { apply length_zero_iff_nil. unfold sort. rewrite HSort, Ef. lia. }
  rewrite Hnil in El. unfold percentile in El. now rewrite index_nil in El.
Qed.

(** With a maximum clipping percentile of 1 or more, which the constructor
    clamps to 1.0, [Perform] panics on every image: the query for the
    upper percentile indexes the table one past its end. *)
Theorem Perform_full_range_panics `{Platform} `{Math} `{Sorting} `{Colorful}
  `{Conversions} `{Filters} (m : Image) (contrast minClipping maxClipping : float64)
  (par : perform_parallel) :
  (forall l, length (Sort l) = length l) ->
  Size m * 3 <= 2 ^ 53 ->
  leb (of_Z 1) maxClipping = true ->
  (Perform (NewICam06 m contrast minClipping maxClipping) par).2 = Panic.
Proof.
  intros HSort Hsize Hmax.
  destruct (Perform _ par).2 as [out|] eqn:E; [exfalso | reflexivity].
  apply Perform_normalize in E as (t' & Hm & _ & Hc & E).
  apply normalize_Ok in E as (norMaxLum & perc & lo & maxRGB & Ef & _ & Eh & _).
  apply fill_length in Ef. rewrite Hm in Ef.
  rewrite Hc in Eh. unfold NewICam06 in Eh. cbn [ICam06.MaxClipping] in Eh.
  rewrite (Clamp_above _ Hmax), percentile_one_panics in Eh; [discriminate|].
  unfold sort. rewrite HSort, Ef. cbn [ICam06.HDRImage NewICam06]. lia.
Qed.

(** [Perform] panics with an index out of range whenever a tile of the
    second pass of [normalize] has a pixel (x, y) whose slot index, the
    product x * y wrapped to 64 bits, is negative or at least the number
    of pixels of the image, as happens for bounds away from the origin
    (the table of three entries per pixel fits the address space). *)
Theorem Perform_slot_out_of_table `{Platform} `{Math} `{Sorting} `{Colorful}
  `{Conversions} `{Filters} (t : ICam06.t) (par : perform_parallel)
  (tile : Rectangle) (x y : Z) :
  Size (ICam06.HDRImage t) * 3 < 2 ^ 63 ->
  tile ∈ tiles (fill_par (normalize_par par)) ->
  (x, y) ∈ scan tile ->
  ~ 0 <= int_mul x y < Size (ICam06.HDRImage t) ->
  (Perform t par).2 = Panic.
Proof.
  intros Hsize Ht Hp Hi.
  destruct (Perform t par).2 as [out|] eqn:E; [exfalso | reflexivity].
  apply Perform_normalize in E as (t' & Hm & _ & _ & E).
  apply normalize_Ok in E as (norMaxLum & perc & lo & maxRGB & Ef & _).
  rewrite Hm in Ef.
  destruct (proj1 (fill_defined _ _ _ Hsize) (ex_intro _ perc Ef) tile x y Ht Hp)
    as [Hin _].
  exact (Hi Hin).
Qed.

Lemma insert_sorted_length (x : float64) (l : list float64) :
  length (Fixtures.insert_sorted x l) = S (length l).
Proof.
  induction l as [|y l IH]; [reflexivity|]. simpl.
  destruct (ltb y x); simpl; [now rewrite IH | reflexivity].
Qed.

Lemma insertion_sort_length (l : list float64) :
  length (@Sort Fixtures.sorting l) = length l.
Proof.
  induction l as [|x l IH]; [reflexivity|]. simpl.
  rewrite insert_sorted_length. f_equal. exact IH.
Qed.

Lemma Perform_empty_image_witness :
  Size (Fixtures.flat 0 0 1) <= 0 /\
  (@Perform Fixtures.amd64 Fixtures.math Fixtures.sorting Fixtures.colorful
     Fixtures.conversions Fixtures.filters
     (NewDefaultICam06 (Fixtures.flat 0 0 1)) Fixtures.sample_par).2 = Panic.
Proof.
  assert (Hs : Size (Fixtures.flat 0 0 1) <= 0) by (vm_compute; discriminate).
  split; [exact Hs|].
  apply (@Perform_empty_image Fixtures.amd64 Fixtures.math Fixtures.sorting
           Fixtures.colorful Fixtures.conversions Fixtures.filters);
    [exact insertion_sort_length | exact Hs].
Defined.

Lemma Perform_full_range_panics_witness :
  leb (of_Z 1) (of_Z 1) = true /\
  (@Perform Fixtures.amd64 Fixtures.math Fixtures.sorting Fixtures.colorful
     Fixtures.conversions Fixtures.filters
     (NewICam06 Fixtures.two_pixels (lit 75 100) (lit 1 100) (of_Z 1))
     Fixtures.sample_par).2 = Panic.
Proof.
  split; [vm_compute; reflexivity|].
  apply (@Perform_full_range_panics Fixtures.amd64 Fixtures.math Fixtures.sorting
           Fixtures.colorful Fixtures.conversions Fixtures.filters);
    [exact insertion_sort_length | vm_compute; discriminate | vm_compute; reflexivity].
Defined.

Lemma Perform_slot_out_of_table_witness :
  ~ 0 <= int_mul 2 2 < Size (Fixtures.offset_pixel) /\
  (@Perform Fixtures.amd64 Fixtures.math Fixtures.sorting Fixtures.colorful
     Fixtures.conversions Fixtures.filters
     (NewDefaultICam06 Fixtures.offset_pixel) Fixtures.offset_par).2 = Panic.
Proof.
  assert (Hi : ~ 0 <= int_mul 2 2 < Size (Fixtures.offset_pixel))
    by (vm_compute; intros [_ Hlt]; discriminate).
  split; [exact Hi|].
  apply (@Perform_slot_out_of_table Fixtures.amd64 Fixtures.math Fixtures.sorting
           Fixtures.colorful Fixtures.conversions Fixtures.filters
           (NewDefaultICam06 Fixtures.offset_pixel) Fixtures.offset_par
           (mkRect 2 2 3 3) 2 2);
    [reflexivity | vm_compute; constructor | vm_compute; constructor | exact Hi].
Defined.

(** ** The output raster *)

Section Output.
Context `{Platform} `{Math}.
Variable normLum : Z -> Z -> outcome (float64 * float64 * float64).
Variables minRGB maxRGB : float64.
Variable rect : Rectangle.
Variable tls : list Rectangle.

Lemma clip_Inv_step (s : outcome RGBA64Image) (ts : list (@task unit (Z * Z)))
  (k : nat) (p : Z * Z) (rest : list (Z * Z)) (l : unit) :
  clip_Inv rect tls s ts -> ts !! k = Some (Task (p :: rest) l) ->
  clip_Inv rect tls (clip_exec normLum minRGB maxRGB p s l).1
           (<[k := Task rest (clip_exec normLum minRGB maxRGB p s l).2]> ts).
Proof.
  intros HI Hk m'. unfold clip_exec. cbn [fst snd].
  destruct s as [m|]; [|discriminate]. cbn [mbind outcome_bind].
  destruct (normLum p.1 p.2) as [rgb|]; [|discriminate]. cbn [mbind outcome_bind].
  intros [= <-]. destruct (HI m eq_refl) as (HR & HP & HC & HF).
  pose proof (Forall_lookup_1 _ _ _ _ HF Hk) as Hpk. cbn [pending] in Hpk.
  apply Forall_cons in Hpk as [Hp Hrest].
  destruct p as [x y]. cbn [fst snd] in *.
  assert (Hlt : (k < length ts)%nat) by now apply lookup_lt_Some in Hk.
  unfold SetRGBA64. rewrite HR.
  split; [destruct (In x y rect); [reflexivity | exact HR]|].
  split; [|split].
  - intros x' y' c. destruct (In x y rect) eqn:Hin; [|apply HP]. cbn [Pix].
    destruct (decide ((x', y') = (x, y))) as [[= -> ->]|Hne].
    + rewrite lookup_insert_eq. intros [= <-].
      destruct rgb as [[r g] b]. split; [reflexivity|]. split; [exact Hin | exact Hp].
    + rewrite lookup_insert_ne by congruence. apply HP.
  - intros tile x' y' Ht Hs Hin'.
    assert (Hkeep : is_Some (Pix m !! (x', y')) ->
              is_Some (Pix (if In x y rect
                            then mkRGBA64Image rect
                                   (<[(x, y) := encode minRGB maxRGB rgb]> (Pix m))
                            else m) !! (x', y'))).
    { destruct (In x y rect); [|auto]. cbn [Pix]. intros Hs'.
      apply lookup_insert_is_Some'. now right. }
    destruct (HC tile x' y' Ht Hs Hin') as [Hsome | (k' & t' & Hk' & Hp')];
      [left; now apply Hkeep|].
    destruct (decide (k' = k)) as [->|Hne].
    + rewrite Hk in Hk'. injection Hk' as <-. cbn [pending] in Hp'.
      apply elem_of_cons in Hp' as [[= -> ->] | Hp'].
      * left. rewrite Hin'. cbn [Pix]. rewrite lookup_insert_eq. eauto.
      * right. exists k. eexists. split; [now apply list_lookup_insert_eq|]. exact Hp'.
    + right. exists k', t'. split; [|exact Hp'].
      now rewrite list_lookup_insert_ne by congruence.
  - apply Forall_insert; assumption.
Qed.

Lemma clip_run (sched : list nat) (m out : RGBA64Image) :
  Rect m = rect -> Pix m = ∅ ->
  run (clip_exec normLum minRGB maxRGB) sched (map clip_task tls) (Ok m) = Ok out ->
  Rect out = rect /\
  (forall x y c, Pix out !! (x, y) = Some c ->
     A c = 65535 /\ In x y rect = true /\
     exists tile, tile ∈ tls /\ (x, y) ∈ scan tile) /\
  (forall tile x y, tile ∈ tls -> (x, y) ∈ scan tile -> In x y rect = true ->
     is_Some (Pix out !! (x, y))).
Proof.
  intros HR HE Hrun.
  destruct (run_Inv (clip_exec normLum minRGB maxRGB) (clip_Inv rect tls) clip_Inv_step sched
              (map clip_task tls) (Ok m)) as (ts' & Hf & HI).
  - intros m0 [= <-]. split; [exact HR|]. split; [|split].
    + intros x y c. rewrite HE, lookup_empty. discriminate.
    + intros tile x y Ht Hs _. right.
      apply list_elem_of_lookup in Ht as [k Hk].
      exists k, (clip_task tile). split; [|exact Hs].
      now rewrite list_lookup_fmap, Hk.
    + apply Forall_forall. intros t Ht.
      apply list_elem_of_fmap in Ht as (tile & -> & Ht).
      apply Forall_forall. intros p Hp. eauto.
  - destruct (HI out Hrun) as (HR' & HP & HC & _).
    split; [exact HR'|]. split; [exact HP|].
    intros tile x y Ht Hs Hin.
    destruct (HC tile x y Ht Hs Hin) as [Hsome | (k & t & Hk & Hp)]; [exact Hsome|].
    apply (Forall_lookup_1 _ _ _ _ Hf) in Hk. unfold finished in Hk.
    rewrite Hk in Hp. now apply elem_of_nil in Hp.
Qed.

End Output.

(** The raster a [Perform] returns has the bounds of the image; its
    pixels are opaque (alpha 0xFFFF) and are exactly at the points of the
    tiles of the third pass of [normalize] that lie inside the bounds. *)
Theorem Perform_output `{Platform} `{Math} `{Sorting} `{Colorful} `{Conversions}
  `{Filters} (t : ICam06.t) (par : perform_parallel) (out : RGBA64Image) :
  (Perform t par).2 = Ok out ->
  Rect out = Bounds (ICam06.HDRImage t) /\
  (forall x y c, Pix out !! (x, y) = Some c ->
     A c = 65535 /\ In x y (Rect out) = true /\
     exists tile, tile ∈ tiles (clip_par (normalize_par par)) /\ (x, y) ∈ scan tile) /\
  (forall tile x y, tile ∈ tiles (clip_par (normalize_par par)) -> (x, y) ∈ scan tile ->
     In x y (Rect out) = true -> is_Some (Pix out !! (x, y))).
Proof.
  intros E.
  apply Perform_normalize in E as (t' & Hm & _ & _ & E).
  apply normalize_Ok in E as (norMaxLum & perc & lo & maxRGB & _ & _ & _ & E).
  apply clip_run with (rect := Bounds (ICam06.HDRImage t)) in E; [|reflexivity..].
  destruct E as (HR & HP & HC). rewrite HR. auto.
Qed.

Lemma Perform_output_witness :
  exists out,
    (@Perform Fixtures.amd64 Fixtures.math Fixtures.sorting Fixtures.colorful
       Fixtures.conversions Fixtures.filters
       (NewDefaultICam06 Fixtures.two_pixels) Fixtures.sample_par).2 = Ok out /\
    Rect out = mkRect 0 0 2 1 /\
    (forall x y c, Pix out !! (x, y) = Some c -> A c = 65535) /\
    is_Some (Pix out !! (1, 0)).
Proof.
  destruct (@Perform Fixtures.amd64 Fixtures.math Fixtures.sorting Fixtures.colorful
              Fixtures.conversions Fixtures.filters
              (NewDefaultICam06 Fixtures.two_pixels) Fixtures.sample_par).2
    as [out|] eqn:E; [|vm_compute in E; discriminate].
  exists out. split; [reflexivity|].
  destruct (Perform_output _ _ _ E) as (HR & HP & HC).
  split; [exact HR|]. split; [intros x y c Hc; now apply (HP x y c)|].
  apply (HC (mkRect 0 0 2 1)); [vm_compute; constructor | vm_compute; do 2 constructor |].
  rewrite HR. reflexivity.
Defined.

(** ** [math.Max] as the maximum of a chain *)

Lemma Max_comm (x y : float64) : Max x y = Max y x.
Proof.
  unfold Max, gtb, eqb, SFeqb, SFltb.
  destruct x as [s1|s1| |s1 m1 e1], y as [s2|s2| |s2 m2 e2];
    try destruct s1; try destruct s2; try reflexivity;
    cbn -[Z.compare PosDef.Pos.compare_cont];
    split_compare; subst; try reflexivity; try lia.
Qed.

Lemma Max_idem (x : float64) : Max x x = x.
Proof.
  destruct (Max_cases x x); assumption.
Qed.

Lemma Max_assoc (x y z : float64) : Max x (Max y z) = Max (Max x y) z.
Proof.
  destruct x as [s1|s1| |s1 m1 e1], y as [s2|s2| |s2 m2 e2], z as [s3|s3| |s3 m3 e3];
    try destruct s1; try destruct s2; try destruct s3; try reflexivity;
    unfold Max, gtb, eqb, SFeqb, SFltb;
    cbn -[Z.compare PosDef.Pos.compare_cont];
    split_compare; subst; try reflexivity; try lia;
    cbn -[Z.compare PosDef.Pos.compare_cont];
    split_compare; subst; try reflexivity; try lia.
Qed.

Lemma Max_unit (x : float64) : Max x (Inf true) = x.
Proof. destruct x as [[]|[]| |[] m e]; reflexivity. Qed.

Lemma foldr_Max_init (f d : float64) (ds : list float64) :
  foldr Max (Max f d) ds = Max d (foldr Max f ds).
Proof.
  induction ds as [|a ds IH]; simpl; [apply Max_comm|].
  rewrite IH, !Max_assoc. f_equal. apply Max_comm.
Qed.

Lemma foldr_Max_absorbs (f : float64) (ds : list float64) :
  Max f (foldr Max f ds) = foldr Max f ds.
Proof.
  induction ds as [|a ds IH]; simpl; [apply Max_idem|].
  rewrite Max_assoc, (Max_comm f a), <- Max_assoc. now rewrite IH.
Qed.

Lemma foldr_Max_lookup (f d : float64) (ds : list float64) (k : nat) :
  ds !! k = Some d -> foldr Max f ds = Max d (foldr Max f (<[k := Inf true]> ds)).
Proof.
  revert k. induction ds as [|a ds IH]; intros [|k]; simpl; try discriminate.
  - intros [= ->]. rewrite (Max_comm (Inf true)), Max_unit. reflexivity.
  - intros Hk. rewrite (IH k Hk), !Max_assoc. f_equal. apply Max_comm.
Qed.

Lemma foldr_Max_units (f : float64) (ds : list float64) :
  Forall (fun d => d = Inf true) ds -> foldr Max f ds = f.
Proof.
  induction 1 as [|d ds -> _ IH]; simpl; [reflexivity|].
  now rewrite IH, Max_comm, Max_unit.
Qed.

(** ** Stage 1: what the luminance scan computes *)

Section Luminance_total.
Context `{Colorful}.
Variable m : Image.
Variable total : float64.

Lemma scanned_points_tile (ps : list (Z * Z)) :
  scanned_points (map (fun p => Scan p.1 p.2) ps ++ [Send]) = ps.
Proof.
  unfold scanned_points. induction ps as [|[x y] ps IH]; [reflexivity|].
  simpl. now rewrite IH.
Qed.

Lemma lum_due_tile (ps : list (Z * Z)) (l : float64) :
  lum_due m (Task (map (fun p => Scan p.1 p.2) ps ++ [Send]) l) =
  match last ps with Some p => Y_at m p | None => l end.
Proof.
  unfold lum_due. cbn [pending locals]. rewrite scanned_points_tile.
  destruct ps; reflexivity.
Qed.

Lemma lum_total_step (s : float64) (tasks : list (@task float64 lum_action))
  (k : nat) (a : lum_action) (rest : list lum_action) (l : float64) :
  lum_total m total s tasks -> tasks !! k = Some (Task (a :: rest) l) ->
  lum_total m total (lum_exec m a s l).1 (<[k := Task rest (lum_exec m a s l).2]> tasks).
Proof.
  intros [Hshape Htotal] Hk.
  pose proof (Forall_lookup_1 _ _ _ _ Hshape Hk) as [Hnil | [ps Hps]];
    [discriminate|]. cbn [pending] in Hps.
  assert (Hdue : map (lum_due m) tasks !! k = Some (lum_due m (Task (a :: rest) l)))
    by now rewrite list_lookup_fmap, Hk.
  rewrite (foldr_Max_lookup _ _ _ _ Hdue) in Htotal.
  destruct ps as [|[x y] ps]; simpl in Hps; injection Hps as -> ->.
  - (* Send *)
    split; [apply Forall_insert; [assumption | now left]|].
    cbn [lum_exec fst snd]. rewrite list_fmap_insert.
    change (lum_due m (Task [] l)) with (Inf true).
    rewrite foldr_Max_init. exact Htotal.
  - (* Scan *)
    split; [apply Forall_insert; [assumption | right; now exists ps]|].
    cbn [lum_exec fst snd]. rewrite list_fmap_insert.
    assert (Hlt : (k < length (map (lum_due m) tasks))%nat)
      by (apply lookup_lt_Some in Hdue; exact Hdue).
    erewrite (foldr_Max_lookup s _ (<[k := _]> _) k);
      [|apply list_lookup_insert_eq; exact Hlt].
    rewrite list_insert_insert_eq. rewrite <- Htotal.
    change (Scan x y :: map (fun p => Scan p.1 p.2) ps ++ [Send])
      with (map (fun p => Scan p.1 p.2) ((x, y) :: ps) ++ [Send]).
    rewrite !lum_due_tile. destruct ps as [|p ps];
      [|change (last ((x, y) :: p :: ps)) with (last (p :: ps));
        destruct (last (p :: ps)) eqn:El; [reflexivity|];
        apply last_None in El; discriminate].
    cbn [last]. fold (Y_at m (x, y)).
    rewrite (Max_comm s), <- Max_assoc, foldr_Max_absorbs. reflexivity.
Qed.

Lemma lum_total_run (sched : list nat) (ts : list Rectangle) (s : float64) :
  total = foldr Max s (map (tile_lum m) ts) ->
  run (lum_exec m) sched (map lum_task ts) s = total.
Proof.
  intros Htotal.
  destruct (run_Inv (lum_exec m) (lum_total m total) lum_total_step sched
              (map lum_task ts) s) as (ts' & Hf & Hshape & E).
  - split.
    + apply Forall_forall. intros t Ht.
      apply list_elem_of_fmap in Ht as (r & -> & _). right. now exists (scan r).
    + rewrite Htotal, map_map. f_equal. apply map_ext. intros r.
      unfold lum_task. now rewrite lum_due_tile.
  - rewrite <- E. symmetry. apply foldr_Max_units.
    apply Forall_forall. intros d Hd.
    apply list_elem_of_fmap in Hd as (t & -> & Ht).
    apply (proj1 (Forall_forall _ _) Hf) in Ht. unfold finished in Ht.
    unfold lum_due. now rewrite Ht.
Qed.

End Luminance_total.

(** The luminance scan sets the peak to the maximum, in the sense of
    [math.Max], of the value the field had and of one value per tile: the
    Y of the pixel the loops of the tile visit last, or 0 for a tile
    without pixels.  The result is the same under every schedule of the
    tile tasks. *)
Theorem luminance_result `{Colorful} (t : ICam06.t) (par : parallel) :
  ICam06.maxLum (luminance t par) =
    foldr Max (ICam06.maxLum t) (map (tile_lum (ICam06.HDRImage t)) (tiles par)) /\
  (forall sched, luminance t (Parallel (tiles par) sched) = luminance t par).
Proof.
  assert (E : forall sched,
            run (lum_exec (ICam06.HDRImage t)) sched (map lum_task (tiles par))
                (ICam06.maxLum t)
            = foldr Max (ICam06.maxLum t) (map (tile_lum (ICam06.HDRImage t)) (tiles par)))
    by (intros sched; now apply lum_total_run).
  split.
  - unfold luminance. cbn [ICam06.maxLum ICam06.set_maxLum]. apply E.
  - intros sched. unfold luminance. cbn [tiles schedule]. now rewrite !E.
Qed.

(** ** Stage 5: the global scale *)

Lemma Max_absorb_l (a b : float64) : Max (Max a b) a = Max a b.
Proof. now rewrite (Max_comm a b), <- Max_assoc, Max_idem. Qed.

Lemma Max_absorb_r (a b : float64) : Max (Max a b) b = Max a b.
Proof. now rewrite <- Max_assoc, Max_idem. Qed.

Lemma Max_above_trans (a b c : float64) : Max c b = c -> Max b a = b -> Max c a = c.
Proof. intros Hc Hb. now rewrite <- Hc, <- Max_assoc, Hb. Qed.

Lemma Max_above_leb (a b : float64) :
  Max b a = b -> is_nan a = false -> is_nan b = false -> leb a b = true.
Proof.
  unfold Max, gtb, eqb, SFeqb, SFltb, leb, SFleb.
  destruct a as [s1|s1| |s1 m1 e1], b as [s2|s2| |s2 m2 e2];
    try destruct s1; try destruct s2; try reflexivity; try discriminate;
    cbn -[Z.compare PosDef.Pos.compare_cont]; intros E _ _;
    split_compare; subst; try reflexivity; try discriminate; try lia;
    injection E; intros; subst; lia.
Qed.

Lemma white_HDRAt_value (s : tc_shared) (x y : Z) :
  (white_HDRAt s x y).1 = RasterAt (store s) x y /\
  store (white_HDRAt s x y).2 = store s.
Proof.
  unfold white_HDRAt, RasterAt.
  destruct (Cells (store s) !! (x, y)) as [[[] c]|]; split; reflexivity.
Qed.

Lemma scan_Sw_fold `{Colorful} (w : Raster) (l : list (Z * Z)) :
  forall (a : float64) (s : tc_shared), store s = w ->
  let r := fold_left
             (fun acc p =>
                let '(Sw, s) := acc in
                let '(c, s') := white_HDRAt s p.1 p.2 in
                (Max Sw (q2 (HDRXYZA c)), s'))
             l (a, s) in
  store r.2 = w /\
  Max r.1 a = r.1 /\
  (forall p, p ∈ l -> Max r.1 (q2 (HDRXYZA (RasterAt w p.1 p.2))) = r.1) /\
  (r.1 = a \/ exists p, p ∈ l /\ r.1 = q2 (HDRXYZA (RasterAt w p.1 p.2))).
Proof.
  induction l as [|p l IH]; intros a s Hs; cbn [fold_left].
  - cbn [fst snd]. split; [exact Hs|]. split; [apply Max_idem|].
    split; [intros p Hp; now apply elem_of_nil in Hp | now left].
  - destruct (white_HDRAt_value s p.1 p.2) as [Ec Es'].
    destruct (white_HDRAt s p.1 p.2) as [c s']. cbn [fst snd] in Ec, Es'.
    rewrite Hs in Ec, Es'. subst c.
    destruct (IH (Max a (q2 (HDRXYZA (RasterAt w p.1 p.2)))) s' Es')
      as (Hst & Ha & Hall & Hmem).
    split; [exact Hst|]. split; [|split].
    + apply (Max_above_trans _ _ _ Ha). apply Max_absorb_l.
    + intros p' Hp'. apply elem_of_cons in Hp' as [-> | Hp']; [|now apply Hall].
      apply (Max_above_trans _ _ _ Ha). apply Max_absorb_r.
    + destruct Hmem as [E | (p' & Hp' & E)].
      * destruct (Max_cases a (q2 (HDRXYZA (RasterAt w p.1 p.2)))) as [E' | E'];
          [left | right; exists p; split; [left|]];
          (etransitivity; [exact E | exact E']).
      * right. exists p'. split; [now right | exact E].
Qed.

(** The global scale [Sw] is the maximum of the luminance Y of the
    local-white-point raster over [0, width) x [0, height): it is above
    every such Y, which [math.Max] leaves it unchanged by, and it is minus
    infinity (no pixel) or the Y of one of these pixels.  The scan leaves
    the raster as it is. *)
Theorem scan_Sw_maximum `{Colorful} (t : ICam06.t) (s : tc_shared) :
  (forall x y, 0 <= x < ICam06.width t -> 0 <= y < ICam06.height t ->
     Max (scan_Sw t s).1 (q2 (HDRXYZA (RasterAt (store s) x y))) = (scan_Sw t s).1 /\
     (is_nan (q2 (HDRXYZA (RasterAt (store s) x y))) = false ->
      is_nan (scan_Sw t s).1 = false ->
      leb (q2 (HDRXYZA (RasterAt (store s) x y))) (scan_Sw t s).1 = true)) /\
  ((scan_Sw t s).1 = Inf true \/
   exists x y, 0 <= x < ICam06.width t /\ 0 <= y < ICam06.height t /\
     (scan_Sw t s).1 = q2 (HDRXYZA (RasterAt (store s) x y))) /\
  store (scan_Sw t s).2 = store s.
Proof.
  assert (Hin : forall x y, (x, y) ∈ scan (mkRect 0 0 (ICam06.width t) (ICam06.height t))
                            <-> 0 <= x < ICam06.width t /\ 0 <= y < ICam06.height t).
  { intros x y. rewrite elem_of_scan. unfold In. cbn [MinX MinY MaxX MaxY].
    rewrite !andb_true_iff, !Z.leb_le, !Z.ltb_lt. lia. }
  destruct (scan_Sw_fold (store s)
              (scan (mkRect 0 0 (ICam06.width t) (ICam06.height t))) (Inf true) s eq_refl)
    as (Hst & _ & Hall & Hmem).
  fold (scan_Sw t s) in Hst, Hall, Hmem.
  split; [|split; [|exact Hst]].
  - intros x y Hx Hy.
    assert (E := Hall (x, y) (proj2 (Hin x y) (conj Hx Hy))). cbn [fst snd] in E.
    split; [exact E|]. intros Ny NS. now apply Max_above_leb.
  - destruct Hmem as [E | ([x y] & Hp & E)]; [now left | right].
    exists x, y. apply Hin in Hp as [Hx Hy]. auto.
Qed.

Lemma scan_Sw_maximum_witness :
  leb (q2 (@HDRXYZA color (@color_Color Fixtures.colorful)
             (RasterAt (rasterize WhitePoint Fixtures.two_pixels) 1 0)))
      (@scan_Sw Fixtures.colorful Fixtures.adapted
         (TcShared (rasterize WhitePoint Fixtures.two_pixels) false)).1 = true.
Proof.
  destruct (@scan_Sw_maximum Fixtures.colorful Fixtures.adapted
              (TcShared (rasterize WhitePoint Fixtures.two_pixels) false)) as (Hall & _).
  destruct (Hall 1 0) as [_ Hle];
    [vm_compute; split; [discriminate | reflexivity].. |].
  apply Hle; vm_compute; reflexivity.
Defined.

(** ** Stage 8: the 16-bit encoder *)

Lemma add_NaN_r (a : float64) : add a NaN = NaN.
Proof. now destruct a. Qed.

Lemma mul_NaN_r (a : float64) : mul a NaN = NaN.
Proof. now destruct a. Qed.

(** The encoder selects between its two segments by multiplying each with
    0 or 1, so the power segment is computed for every channel: where
    math.Pow(channel, 1/2.4) is NaN, as for a negative channel, the sum is
    NaN also inside the linear segment, and the result is whatever the
    conversion of NaN to uint16 yields. *)
Theorem normalizeC_power_undefined `{Platform} `{Math} (channel : float64) :
  is_nan (Pow channel (lit 10 24)) = true ->
  normalizeC channel = uint16_unrepresentable NaN.
Proof.
  intros HP. unfold normalizeC.
  destruct (Pow channel (lit 10 24)); try discriminate.
  change (mul S754_nan (lit 1055 1000)) with NaN.
  change (sub NaN (lit 55 1000)) with NaN.
  rewrite mul_NaN_r, add_NaN_r, mul_NaN_r. reflexivity.
Qed.

Lemma normalizeC_power_undefined_witness :
  is_nan (@Pow Fixtures.math (lit (-1) 1000) (lit 10 24)) = true /\
  geb (lit (-1) 1000) (SFopp (lit 31308 10000000)) = true /\
  @normalizeC Fixtures.amd64 Fixtures.math (lit (-1) 1000) = 0.
Proof.
  split; [vm_compute; reflexivity|]. split; [vm_compute; reflexivity|].
  rewrite (@normalizeC_power_undefined Fixtures.amd64 Fixtures.math (lit (-1) 1000));
    vm_compute; reflexivity.
Defined.

(** Full scale is not reached: where math.Pow(1, 1/2.4) is 1, the channel
    1.0 is encoded as 65534, since 1.055 - 0.055 is 1 - 2^-53 in float64
    and the conversion to uint16 discards the fraction of the product with
    65535. *)
Theorem normalizeC_full_scale `{Platform} `{Math} :
  Pow (of_Z 1) (lit 10 24) = of_Z 1 ->
  normalizeC (of_Z 1) = 65534 /\
  sub (mul (of_Z 1) (lit 1055 1000)) (lit 55 1000) = S754_finite false (2 ^ 53 - 1) (-53).
Proof.
  intros HP. split; [|vm_compute; reflexivity].
  unfold normalizeC. rewrite HP.
  vm_compute. reflexivity.
Qed.

Lemma normalizeC_full_scale_witness :
  @Pow Fixtures.math (of_Z 1) (lit 10 24) = of_Z 1 /\
  @normalizeC Fixtures.amd64 Fixtures.math (of_Z 1) = 65534.
Proof.
  assert (HP : @Pow Fixtures.math (of_Z 1) (lit 10 24) = of_Z 1) by (vm_compute; reflexivity).
  split; [exact HP|].
  exact (proj1 (@normalizeC_full_scale Fixtures.amd64 Fixtures.math HP)).
Defined.

(** ** Stage 8: the peak of the rendered luminance *)

Section Peak_total.
Context `{Math} `{Colorful} `{Conversions}.
Variable t : ICam06.t.
Variable total : float64.

Lemma peak_due_tile (ps : list (Z * Z)) (l : float64) :
  peak_due t (Task (map (fun p => Scan p.1 p.2) ps ++ [Send]) l) =
  match last ps with Some p => rendered_peak t p | None => l end.
Proof.
  unfold peak_due. cbn [pending locals]. rewrite scanned_points_tile.
  destruct ps; reflexivity.
Qed.

Lemma peak_total_step (s : outcome float64) (tasks : list (@task float64 lum_action))
  (k : nat) (a : lum_action) (rest : list lum_action) (l : float64) :
  peak_total t total s tasks -> tasks !! k = Some (Task (a :: rest) l) ->
  peak_total t total (peak_exec t a s l).1 (<[k := Task rest (peak_exec t a s l).2]> tasks).
Proof.
  intros HI Hk v'. destruct s as [v|]; [|discriminate].
  destruct (HI v eq_refl) as [Hshape Htotal].
  pose proof (Forall_lookup_1 _ _ _ _ Hshape Hk) as [Hnil | [ps Hps]];
    [discriminate|]. cbn [pending] in Hps.
  assert (Hdue : map (peak_due t) tasks !! k = Some (peak_due t (Task (a :: rest) l)))
    by now rewrite list_lookup_fmap, Hk.
  assert (Hlt : (k < length (map (peak_due t) tasks))%nat)
    by (apply lookup_lt_Some in Hdue; exact Hdue).
  rewrite (foldr_Max_lookup _ _ _ _ Hdue) in Htotal.
  destruct ps as [|[x y] ps]; simpl in Hps; injection Hps as -> ->.
  - (* Send *)
    cbn [peak_exec fst snd]. intros [= <-].
    split; [apply Forall_insert; [assumption | now left]|].
    rewrite list_fmap_insert.
    change (peak_due t (Task [] l)) with (Inf true).
    rewrite foldr_Max_init. exact Htotal.
  - (* Scan *)
    cbn [peak_exec].
    destruct (colorfullnessXsurround t x y) as [c|] eqn:Ec; [|discriminate].
    cbn [fst snd]. intros [= <-].
    split; [apply Forall_insert; [assumption | right; now exists ps]|].
    rewrite list_fmap_insert.
    erewrite (foldr_Max_lookup v _ (<[k := _]> _) k);
      [|apply list_lookup_insert_eq; exact Hlt].
    rewrite list_insert_insert_eq. rewrite <- Htotal.
    change (Scan x y :: map (fun p => Scan p.1 p.2) ps ++ [Send])
      with (map (fun p => Scan p.1 p.2) ((x, y) :: ps) ++ [Send]).
    rewrite !peak_due_tile. destruct ps as [|p ps];
      [|change (last ((x, y) :: p :: ps)) with (last (p :: ps));
        destruct (last (p :: ps)) eqn:El; [reflexivity|];
        apply last_None in El; discriminate].
    cbn [last]. unfold rendered_peak. cbn [fst snd]. now rewrite Ec.
Qed.

Lemma peak_total_run (sched : list nat) (ts : list Rectangle) (s v : float64) :
  total = foldr Max s (map (tile_peak t) ts) ->
  run (peak_exec t) sched (map lum_task ts) (Ok s) = Ok v -> v = total.
Proof.
  intros Htotal Hrun.
  destruct (run_Inv (peak_exec t) (peak_total t total) peak_total_step sched
              (map lum_task ts) (Ok s)) as (ts' & Hf & HI).
  - intros v0 [= <-]. split.
    + apply Forall_forall. intros tk Ht.
      apply list_elem_of_fmap in Ht as (r & -> & _). right. now exists (scan r).
    + rewrite Htotal, map_map. f_equal. apply map_ext. intros r.
      unfold lum_task. now rewrite peak_due_tile.
  - destruct (HI v Hrun) as [_ E]. rewrite <- E. symmetry. apply foldr_Max_units.
    apply Forall_forall. intros d Hd.
    apply list_elem_of_fmap in Hd as (tk & -> & Ht).
    apply (proj1 (Forall_forall _ _) Hf) in Ht. unfold finished in Ht.
    unfold peak_due. now rewrite Ht.
Qed.

End Peak_total.

Section Clip_values.
Context `{Platform} `{Math}.
Variable normLum : Z -> Z -> outcome (float64 * float64 * float64).
Variables minRGB maxRGB : float64.

Lemma clip_values_step (s : outcome RGBA64Image) (ts : list (@task unit (Z * Z)))
  (k : nat) (p : Z * Z) (rest : list (Z * Z)) (l : unit) :
  clip_values normLum minRGB maxRGB s ts -> ts !! k = Some (Task (p :: rest) l) ->
  clip_values normLum minRGB maxRGB (clip_exec normLum minRGB maxRGB p s l).1
              (<[k := Task rest (clip_exec normLum minRGB maxRGB p s l).2]> ts).
Proof.
  intros HI _ m'. unfold clip_exec. cbn [fst snd].
  destruct s as [m|]; [|discriminate]. cbn [mbind outcome_bind].
  destruct (normLum p.1 p.2) as [rgb|] eqn:E; [|discriminate]. cbn [mbind outcome_bind].
  intros [= <-] x y c. destruct p as [px py]. cbn [fst snd] in *.
  unfold SetRGBA64. destruct (In px py (Rect m)); [|now apply HI]. cbn [Pix].
  destruct (decide ((x, y) = (px, py))) as [[= -> ->]|Hne].
  - rewrite lookup_insert_eq. intros [= <-]. eauto.
  - rewrite lookup_insert_ne by congruence. now apply HI.
Qed.

Lemma clip_values_run (sched : list nat) (tls : list Rectangle) (m out : RGBA64Image) :
  Pix m = ∅ ->
  run (clip_exec normLum minRGB maxRGB) sched (map clip_task tls) (Ok m) = Ok out ->
  forall x y c, Pix out !! (x, y) = Some c ->
    exists rgb, normLum x y = Ok rgb /\ c = encode minRGB maxRGB rgb.
Proof.
  intros HE Hrun.
  destruct (run_Inv (clip_exec normLum minRGB maxRGB)
              (clip_values normLum minRGB maxRGB) clip_values_step sched
              (map clip_task tls) (Ok m)) as (ts' & _ & HI).
  - intros m0 [= <-] x y c. rewrite HE, lookup_empty. discriminate.
  - exact (HI out Hrun).
Qed.

End Clip_values.

Lemma normalize_passes `{Platform} `{Math} `{Sorting} `{Colorful} `{Conversions}
  (t : ICam06.t) (m : RGBA64Image) (par : normalize_parallel) (out : RGBA64Image) :
  normalize t m par = Ok out ->
  exists norMaxLum perc lo maxRGB,
    run (peak_exec t) (schedule (peak_par par)) (map lum_task (tiles (peak_par par)))
        (Ok (Inf true)) = Ok norMaxLum /\
    fill (normLum t norMaxLum) (Size (ICam06.HDRImage t)) (fill_par par) = Ok perc /\
    percentile (sort perc) (ICam06.MinClipping t) = Ok lo /\
    percentile (sort perc) (ICam06.MaxClipping t) = Ok maxRGB /\
    run (clip_exec (normLum t norMaxLum) (Min lo zero) maxRGB) (schedule (clip_par par))
        (map clip_task (tiles (clip_par par))) (Ok m) = Ok out.
Proof.
  unfold normalize.
  destruct (run (peak_exec t) _ _ _) as [norMaxLum|] eqn:Ep; [|discriminate].
  unfold mbind at 1, outcome_bind at 1.
  destruct (fill _ _ _) as [perc|] eqn:Ef; [|discriminate].
  unfold mbind at 1, outcome_bind at 1.
  destruct (percentile (sort perc) (ICam06.MinClipping t)) as [lo|] eqn:El; [|discriminate].
  unfold mbind at 1, outcome_bind at 1.
  destruct (percentile (sort perc) (ICam06.MaxClipping t)) as [maxRGB|] eqn:Eh; [|discriminate].
  unfold mbind at 1, outcome_bind at 1.
  intros E. exists norMaxLum, perc, lo, maxRGB. auto.
Qed.

(** What a [normalize] that returns has computed, under every schedule of
    its first and third pass.  The peak that normalises the rendered
    colours is the maximum, in the sense of [math.Max], of one value per
    tile of the first pass: the larger of the field [t.maxLum] and the
    rendered Y of the pixel the tile visits last (0 for a tile without
    pixels).  The two clipping levels are the percentiles of the sorted
    sample table.  Every pixel written into the raster is the 16-bit
    encoding of the rendered colour of its own point, normalised by that
    peak and clipped to these two levels. *)
Theorem normalize_result `{Platform} `{Math} `{Sorting} `{Colorful} `{Conversions}
  (t : ICam06.t) (r : Rectangle) (par : normalize_parallel) (out : RGBA64Image) :
  normalize t (NewRGBA64 r) par = Ok out ->
  exists perc lo maxRGB,
    let peak := foldr Max (Inf true) (map (tile_peak t) (tiles (peak_par par))) in
    fill (normLum t peak) (Size (ICam06.HDRImage t)) (fill_par par) = Ok perc /\
    percentile (sort perc) (ICam06.MinClipping t) = Ok lo /\
    percentile (sort perc) (ICam06.MaxClipping t) = Ok maxRGB /\
    forall x y c, Pix out !! (x, y) = Some c ->
      exists rgb, normLum t peak x y = Ok rgb /\ c = encode (Min lo zero) maxRGB rgb.
Proof.
  intros E.
  apply normalize_passes in E as (norMaxLum & perc & lo & maxRGB & Ep & Ef & El & Eh & E).
  apply (peak_total_run t _ _ _ _ _ eq_refl) in Ep. subst norMaxLum.
  exists perc, lo, maxRGB. cbv zeta.
  split; [exact Ef|]. split; [exact El|]. split; [exact Eh|].
  exact (clip_values_run _ _ _ _ _ (NewRGBA64 r) out eq_refl E).
Qed.

Lemma normalize_result_witness :
  exists out,
    @normalize Fixtures.amd64 Fixtures.math Fixtures.sorting Fixtures.colorful
      Fixtures.conversions Fixtures.rendered (NewRGBA64 (mkRect 0 0 2 1))
      Fixtures.rendered_par = Ok out /\
    forall x y c, Pix out !! (x, y) = Some c ->
      exists lo maxRGB rgb,
        @normLum Fixtures.math Fixtures.colorful Fixtures.conversions Fixtures.rendered
          (foldr Max (Inf true)
             (map (@tile_peak Fixtures.math Fixtures.colorful Fixtures.conversions
                     Fixtures.rendered)
                  (tiles (peak_par Fixtures.rendered_par)))) x y = Ok rgb /\
        c = @encode Fixtures.amd64 Fixtures.math (Min lo zero) maxRGB rgb.
Proof.
  destruct (@normalize Fixtures.amd64 Fixtures.math Fixtures.sorting Fixtures.colorful
              Fixtures.conversions Fixtures.rendered (NewRGBA64 (mkRect 0 0 2 1))
              Fixtures.rendered_par) as [out|] eqn:E; [|vm_compute in E; discriminate].
  destruct (normalize_result _ _ _ _ E) as (perc & lo & maxRGB & _ & _ & _ & HR).
  exists out. split; [reflexivity|].
  intros x y c Hc. destruct (HR x y c Hc) as (rgb & Hrgb & ->).
  exists lo, maxRGB, rgb. split; [exact Hrgb | reflexivity].
Defined.

(** ** Stage 5: what tone compression computes *)

Section ToneCompression_values.
Context `{Math} `{Colorful} `{Conversions}.
Variable t : ICam06.t.
Variable b : Image.
Hypothesis Hb : ICam06.baseLayer t = Some b.
Variable w : Raster.
Variable Sw : float64.
Variable todo : list (Z * Z).

Lemma chromaticAdaptation_value (s1 s2 : tc_shared) (x y : Z) :
  (white_HDRAt s1 x y).1 = (white_HDRAt s2 x y).1 ->
  exists xyz s1' s2',
    chromaticAdaptation t s1 x y = Ok (xyz, s1') /\
    chromaticAdaptation t s2 x y = Ok (xyz, s2') /\
    store s1' = store s1.
Proof.
  intros E. unfold chromaticAdaptation. rewrite Hb.
  unfold field_HDRAt, mbind, outcome_bind.
  destruct (LMSCAT02w (HDRAt b x y)) as [[l1 m1] c1].
  pose proof (white_HDRAt_value s1 x y) as [_ Hst].
  destruct (white_HDRAt s1 x y) as [w1 s1'], (white_HDRAt s2 x y) as [w2 s2'].
  cbn [fst snd] in *. subst w2.
  destruct (LMSCAT02w w1) as [[l2 m2] c2]. destruct cat02D65 as [[c0 c3] c4].
  eauto 6.
Qed.

Lemma RasterAt_cell (r1 r2 : Raster) (x y : Z) :
  Cells r1 !! (x, y) = Cells r2 !! (x, y) -> RasterAt r1 x y = RasterAt r2 x y.
Proof. unfold RasterAt. now intros ->. Qed.

Lemma tc_shape_pixels (ps : list (Z * Z)) : tc_shape (tc_pixels ps).
Proof. exists ps. now left. Qed.

Lemma tc_values_step (s : outcome tc_shared) (tasks : list (@task tc_locals tc_action))
  (k : nat) (a : tc_action) (rest : list tc_action) (l : tc_locals) :
  tc_Inv todo s tasks -> tc_values t w Sw todo s tasks ->
  tasks !! k = Some (Task (a :: rest) l) ->
  tc_values t w Sw todo (tc_exec t Sw a s l).1
            (<[k := Task rest (tc_exec t Sw a s l).2]> tasks).
Proof.
  intros (sh0 & E0 & _ & _ & Hnd & _) (sh & -> & HB & Hall & Hown & Hdone) Hk.
  clear sh0 E0.
  pose proof (Forall_lookup_1 _ _ _ _ Hall Hk) as [[ps Hshape] Hready].
  cbn [pending] in Hshape. unfold tc_ready in Hready. cbn [pending locals] in Hready.
  unfold tc_exec.
  destruct a as [x y|x y|x y].
  - (* the read of Yw *)
    destruct Hshape as [Hs | [(x' & y' & Hs) | (x' & y' & Hs)]]; try discriminate.
    destruct ps as [|[px py] ps]; [discriminate|]. injection Hs as <- <- ->.
    assert (Hin : (x, y) ∈ owned tasks)
      by (apply (owned_elem tasks k _ _ Hk); simpl; left).
    destruct (white_HDRAt_value sh x y) as [Ec Es].
    destruct (white_HDRAt sh x y) as [c s']. cbn [fst snd] in *.
    exists s'. split; [reflexivity|]. rewrite Es.
    rewrite (owned_insert_same tasks k _ _ Hk) by reflexivity.
    split; [exact HB|]. split; [|split; assumption].
    apply Forall_insert; [assumption|]. split.
    + exists ps. right. left. now exists x, y.
    + unfold tc_ready. cbn [pending locals Yw]. rewrite Ec.
      f_equal. f_equal. apply RasterAt_cell. now apply Hown.
  - (* the reads of chromaticAdaptation *)
    destruct Hshape as [Hs | [(x' & y' & Hs) | (x' & y' & Hs)]];
      [destruct ps as [|[? ?] ?]; discriminate | | discriminate].
    injection Hs as <- <- ->.
    assert (Hin : (x, y) ∈ owned tasks)
      by (apply (owned_elem tasks k _ _ Hk); simpl; left).
    destruct (chromaticAdaptation_value sh (TcShared w false) x y)
      as (xyz & s' & s2' & -> & E2 & Es).
    { destruct (white_HDRAt_value sh x y) as [-> _].
      destruct (white_HDRAt_value (TcShared w false) x y) as [-> _].
      apply RasterAt_cell. now apply Hown. }
    cbn [fst snd]. exists s'. split; [reflexivity|]. rewrite Es.
    rewrite (owned_insert_same tasks k _ _ Hk) by reflexivity.
    split; [exact HB|]. split; [|split; assumption].
    apply Forall_insert; [assumption|]. split.
    + exists ps. right. right. now exists x, y.
    + unfold tc_ready. cbn [pending locals Yw ca]. split; [exact Hready | eauto].
  - (* the Set *)
    destruct Hshape as [Hs | [(x' & y' & Hs) | (x' & y' & Hs)]];
      [destruct ps as [|[? ?] ?]; discriminate | discriminate |].
    injection Hs as <- <- ->. destruct Hready as [HY [s2 Hca]].
    pose proof (owned_insert_store tasks k x y (tc_pixels ps) l l Hk) as Hperm.
    rewrite Hperm in Hnd. apply NoDup_cons in Hnd as [Hnotin _].
    assert (Hin : (x, y) ∈ owned tasks) by (rewrite Hperm; left).
    destruct (Hown _ Hin) as [Htodo Hcell].
    cbn [fst snd]. eexists. split; [reflexivity|].
    unfold toneCompressed_Set. cbn [store].
    split; [unfold RasterSet; destruct (In x y (RBounds (store sh))); [exact HB | exact HB]|].
    split; [|split].
    + apply Forall_insert; [assumption|]. split; [apply tc_shape_pixels|].
      unfold tc_ready. cbn [pending]. destruct ps as [|[? ?] ?]; exact I.
    + intros p Hp.
      assert (Hne : p <> (x, y)) by (intros ->; contradiction).
      rewrite RasterSet_other by assumption. apply Hown. rewrite Hperm. now right.
    + intros p Hp. destruct (decide (p = (x, y))) as [-> | Hne].
      * rewrite (bool_decide_eq_true_2 _ Htodo). cbn [andb fst snd].
        unfold RasterSet. rewrite HB.
        destruct (In x y (RBounds w)); [|exact Hcell].
        cbn [Cells]. rewrite lookup_insert_eq. do 2 f_equal.
        unfold tone_value. cbn [fst snd]. rewrite Hca, HY. reflexivity.
      * rewrite RasterSet_other by assumption. apply Hdone.
        rewrite Hperm. intros Hp'. apply elem_of_cons in Hp' as [? | ?]; contradiction.
Qed.

Lemma tc_both_step (s : outcome tc_shared) (tasks : list (@task tc_locals tc_action))
  (k : nat) (a : tc_action) (rest : list tc_action) (l : tc_locals) :
  tc_Inv todo s tasks /\ tc_values t w Sw todo s tasks ->
  tasks !! k = Some (Task (a :: rest) l) ->
  tc_Inv todo (tc_exec t Sw a s l).1 (<[k := Task rest (tc_exec t Sw a s l).2]> tasks) /\
  tc_values t w Sw todo (tc_exec t Sw a s l).1
            (<[k := Task rest (tc_exec t Sw a s l).2]> tasks).
Proof.
  intros [HI HV] Hk. split.
  - now apply (tc_Inv_step t b Hb).
  - now apply tc_values_step.
Qed.

End ToneCompression_values.

Lemma toneCompression_cells `{Math} `{Colorful} `{Conversions}
  (t : ICam06.t) (b : Image) (w : Raster) (par : parallel) :
  ICam06.baseLayer t = Some b -> ICam06.white t = Some w ->
  (forall p, fresh w p) -> well_formed w ->
  NoDup (flat_map scan (tiles par)) ->
  exists r,
    toneCompression t par = Ok (r, false, ICam06.set_white None t) /\
    RBounds r = RBounds w /\
    forall p, Cells r !! p =
      if bool_decide (p ∈ flat_map scan (tiles par)) && In p.1 p.2 (RBounds w)
      then Some (Cell ToneCompressed
                   (tone_value t w (scan_Sw t (TcShared w false)).1 p))
      else Cells w !! p.
Proof.
  intros Hb Hw Hfresh Hwf Hnd. unfold toneCompression. rewrite Hw.
  pose proof (scan_Sw_fresh t (TcShared w false) Hfresh) as E.
  destruct (scan_Sw t (TcShared w false)) as [Sw s]. cbn [fst snd] in *. subst s.
  destruct (run_Inv (tc_exec t Sw)
              (fun s ts => tc_Inv (flat_map scan (tiles par)) s ts /\
                           tc_values t w Sw (flat_map scan (tiles par)) s ts)
              (tc_both_step t b Hb w Sw (flat_map scan (tiles par)))
              (schedule par) (map tc_task (tiles par)) (Ok (TcShared w false)))
    as (ts' & Hfin & (sh & E1 & Hst & _) & (sh' & E2 & HB & _ & _ & Hdone)).
  { split.
    - exists (TcShared w false). rewrite owned_tc_tasks.
      repeat split; try assumption; try reflexivity.
      + apply Forall_forall. intros tk Htk.
        apply list_elem_of_fmap in Htk as (r & -> & _). apply reads_before_store_tc_task.
      + intros p _. apply Hfresh.
      + intros p Hp. now left.
    - exists (TcShared w false). rewrite owned_tc_tasks.
      split; [reflexivity|]. split; [reflexivity|]. split; [|split].
      + apply Forall_forall. intros tk Htk.
        apply list_elem_of_fmap in Htk as (r & -> & _). split.
        * apply tc_shape_pixels.
        * unfold tc_ready, tc_task. cbn [pending].
          destruct (scan r) as [|[? ?] ?]; exact I.
      + intros p Hp. split; [exact Hp | reflexivity].
      + intros p Hp. cbn [store].
        rewrite (bool_decide_eq_false_2 _ Hp). reflexivity. }
  rewrite E1 in E2. injection E2 as <-. rewrite E1. cbn [mbind outcome_bind].
  exists (store sh). rewrite Hst. split; [reflexivity|]. split; [exact HB|].
  intros p. apply Hdone. rewrite (owned_finished ts' Hfin). apply not_elem_of_nil.
Qed.

(** Tone compression in place computes what it would compute on a copy.
    Started on the raster of the local white point as [Perform] allocates
    it, with tiles that do not overlap, it returns, with no stale read;
    the raster keeps its bounds; at every point of a tile inside the
    bounds it holds the colour computed from the white point and the
    global scale as they were before the stage, and elsewhere what it
    held.  The result is the same under every schedule of the tile
    tasks. *)
Theorem toneCompression_result `{Math} `{Colorful} `{Conversions}
  (t : ICam06.t) (b wm : Image) (par : parallel) :
  ICam06.baseLayer t = Some b ->
  ICam06.white t = Some (rasterize WhitePoint wm) ->
  NoDup (flat_map scan (tiles par)) ->
  (exists r,
     toneCompression t par = Ok (r, false, ICam06.set_white None t) /\
     RBounds r = Bounds wm /\
     forall p, Cells r !! p =
       if bool_decide (p ∈ flat_map scan (tiles par)) && In p.1 p.2 (Bounds wm)
       then Some (Cell ToneCompressed
                    (tone_value t (rasterize WhitePoint wm)
                       (scan_Sw t (TcShared (rasterize WhitePoint wm) false)).1 p))
       else Cells (rasterize WhitePoint wm) !! p) /\
  (forall sched, toneCompression t (Parallel (tiles par) sched) = toneCompression t par).
Proof.
  intros Hb Hw Hnd.
  assert (Hfresh : forall p, fresh (rasterize WhitePoint wm) p)
    by (intros p c Hc; now apply rasterize_cells in Hc).
  assert (Hwf : well_formed (rasterize WhitePoint wm))
    by (intros p c Hc; now apply rasterize_cells in Hc).
  destruct (toneCompression_cells t b _ par Hb Hw Hfresh Hwf Hnd) as (r & E & HB & HC).
  split; [exists r; auto|].
  intros sched.
  destruct (toneCompression_cells t b _ (Parallel (tiles par) sched) Hb Hw Hfresh Hwf Hnd)
    as (r' & E' & HB' & HC').
  rewrite E, E'. do 3 f_equal.
  destruct r as [rb rc], r' as [rb' rc']. cbn [RBounds Cells tiles] in *.
  f_equal; [congruence|]. apply map_eq. intros p. now rewrite HC, HC'.
Qed.

Lemma toneCompression_result_witness :
  exists r,
    @toneCompression Fixtures.math Fixtures.colorful Fixtures.conversions
      Fixtures.adapted Fixtures.columns_of_two
      = Ok (r, false, ICam06.set_white None Fixtures.adapted) /\
    RBounds r = mkRect 0 0 2 1 /\
    Cells r !! (1, 0) =
      Some (Cell ToneCompressed
              (@tone_value Fixtures.math Fixtures.colorful Fixtures.conversions
                 Fixtures.adapted (rasterize WhitePoint Fixtures.two_pixels)
                 (of_Z 5) (1, 0))).
Proof.
  assert (Hnd : NoDup (flat_map scan (tiles Fixtures.columns_of_two)))
    by (apply (bool_decide_unpack _); vm_compute; exact I).
  destruct (@toneCompression_result Fixtures.math Fixtures.colorful Fixtures.conversions
              Fixtures.adapted Fixtures.two_pixels Fixtures.two_pixels
              Fixtures.columns_of_two eq_refl eq_refl Hnd) as [(r & E & HB & HC) _].
  exists r. split; [exact E|]. split; [exact HB|].
  rewrite (HC (1, 0)).
  replace (bool_decide ((1, 0) ∈ flat_map scan (tiles Fixtures.columns_of_two)))
    with true by (symmetry; apply bool_decide_eq_true_2; vm_compute; do 2 constructor).
  assert (ES : (@scan_Sw Fixtures.colorful Fixtures.adapted
                  (TcShared (rasterize WhitePoint Fixtures.two_pixels) false)).1 = of_Z 5)
    by (vm_compute; reflexivity).
  rewrite ES. reflexivity.
Defined.

(** ** Which schedules the output depends on *)

Lemma forallb_elem_of {A : Type} (f : A -> bool) (l : list A) :
  if forallb f l then forall x, x ∈ l -> f x = true
  else exists x, x ∈ l /\ f x = false.
Proof.
  induction l as [|a l IH]; simpl.
  - intros x Hx. now apply elem_of_nil in Hx.
  - destruct (f a) eqn:Ea; simpl.
    + destruct (forallb f l).
      * intros x Hx. apply elem_of_cons in Hx as [-> | Hx]; auto.
      * destruct IH as (x & Hx & Ex). exists x. split; [now right | exact Ex].
    + exists a. split; [now left | exact Ea].
Qed.

Lemma run_defined {State Local Action : Type}
  (exec : Action -> outcome State -> Local -> outcome State * Local)
  (P : State -> Prop) (ok : Action -> bool) :
  (forall a l, (exec a Panic l).1 = Panic) ->
  (forall a s l s', P s -> (exec a (Ok s) l).1 = Ok s' -> P s') ->
  (forall a s l, ok a = true -> P s -> exists s', (exec a (Ok s) l).1 = Ok s') ->
  (forall a s l, ok a = false -> P s -> (exec a (Ok s) l).1 = Panic) ->
  forall (sched : list nat) (ts : list (@task Local Action)) (s : State), P s ->
  if forallb (fun t => forallb ok (pending t)) ts
  then exists s', run exec sched ts (Ok s) = Ok s' /\ P s'
  else run exec sched ts (Ok s) = Panic.
Proof.
  intros HPanic HP Hok Hbad sched ts s Hs.
  pose proof (forallb_elem_of (fun t => forallb ok (pending t)) ts) as E.
  destruct (forallb (fun t => forallb ok (pending t)) ts).
  - apply (run_returns exec P HP (fun a => ok a = true)); [exact Hok | exact Hs |].
    apply Forall_forall. intros t Ht. apply Forall_forall. intros a Ha.
    specialize (E t Ht). pose proof (forallb_elem_of ok (pending t)) as E'.
    rewrite E in E'. now apply E'.
  - apply (run_panics exec P HPanic HP (fun a => ok a = false)); [exact Hbad | exact Hs |].
    destruct E as (t & Ht & Et). pose proof (forallb_elem_of ok (pending t)) as E'.
    rewrite Et in E'. destruct E' as (a & Ha & Ea). eauto.
Qed.

Lemma luminance_schedule `{Colorful} (t : ICam06.t) (ts : list Rectangle)
  (s1 s2 : list nat) :
  luminance t (Parallel ts s1) = luminance t (Parallel ts s2).
Proof.
  unfold luminance. cbn [tiles schedule].
  now rewrite (lum_total_run _ _ s1 ts _ eq_refl), (lum_total_run _ _ s2 ts _ eq_refl).
Qed.

Lemma peak_run_schedule `{Math} `{Colorful} `{Conversions} (t : ICam06.t)
  (ts : list Rectangle) (s1 s2 : list nat) (v : float64) :
  run (peak_exec t) s1 (map lum_task ts) (Ok v)
  = run (peak_exec t) s2 (map lum_task ts) (Ok v).
Proof.
  assert (Hok : forall sched,
            if forallb (fun tk => forallb
                 (fun a => match a with
                           | Scan x y => match colorfullnessXsurround t x y with
                                         | Ok _ => true | Panic => false end
                           | Send => true
                           end) (pending tk)) (map lum_task ts)
            then exists v', run (peak_exec t) sched (map lum_task ts) (Ok v) = Ok v' /\ True
            else run (peak_exec t) sched (map lum_task ts) (Ok v) = Panic).
  { intros sched.
    apply (run_defined (peak_exec t) (fun _ => True)); [reflexivity | auto | | | exact I].
    - intros [x y|] v0 l Ha _; cbn [peak_exec fst]; [|eauto].
      destruct (colorfullnessXsurround t x y); [eauto | discriminate].
    - intros [x y|] v0 l Ha _; cbn [peak_exec fst]; [|discriminate].
      now destruct (colorfullnessXsurround t x y). }
  pose proof (Hok s1) as H1'. pose proof (Hok s2) as H2'.
  destruct (forallb _ (map lum_task ts)).
  - destruct H1' as (v1 & E1 & _), H2' as (v2 & E2 & _). rewrite E1, E2.
    apply (peak_total_run t _ _ _ _ _ eq_refl) in E1.
    apply (peak_total_run t _ _ _ _ _ eq_refl) in E2. congruence.
  - now rewrite H1', H2'.
Qed.

Lemma clip_run_schedule `{Platform} `{Math}
  (normLum : Z -> Z -> outcome (float64 * float64 * float64)) (minRGB maxRGB : float64)
  (tls : list Rectangle) (m : RGBA64Image) (s1 s2 : list nat) :
  Pix m = ∅ ->
  run (clip_exec normLum minRGB maxRGB) s1 (map clip_task tls) (Ok m)
  = run (clip_exec normLum minRGB maxRGB) s2 (map clip_task tls) (Ok m).
Proof.
  intros HE.
  assert (Hok : forall sched,
            if forallb (fun tk => forallb
                 (fun p : Z * Z => match normLum p.1 p.2 with
                                   | Ok _ => true | Panic => false end)
                 (pending tk)) (map clip_task tls)
            then exists out, run (clip_exec normLum minRGB maxRGB) sched
                               (map clip_task tls) (Ok m) = Ok out /\ True
            else run (clip_exec normLum minRGB maxRGB) sched
                   (map clip_task tls) (Ok m) = Panic).
  { intros sched.
    apply (run_defined (clip_exec normLum minRGB maxRGB) (fun _ => True));
      [reflexivity | auto | | | exact I].
    - intros p m0 l Ha _. unfold clip_exec. cbn [fst mbind outcome_bind].
      destruct (normLum p.1 p.2); [cbn [mbind outcome_bind]; eauto | discriminate].
    - intros p m0 l Ha _. unfold clip_exec. cbn [fst mbind outcome_bind].
      now destruct (normLum p.1 p.2). }
  pose proof (Hok s1) as H1'. pose proof (Hok s2) as H2'.
  destruct (forallb _ (map clip_task tls)); [|now rewrite H1', H2'].
  destruct H1' as (o1 & E1 & _), H2' as (o2 & E2 & _). rewrite E1, E2. f_equal.
  destruct (clip_run normLum minRGB maxRGB (Rect m) tls s1 m o1 eq_refl HE E1)
    as (R1 & P1 & C1).
  destruct (clip_run normLum minRGB maxRGB (Rect m) tls s2 m o2 eq_refl HE E2)
    as (R2 & P2 & C2).
  pose proof (clip_values_run normLum minRGB maxRGB s1 tls m o1 HE E1) as V1.
  pose proof (clip_values_run normLum minRGB maxRGB s2 tls m o2 HE E2) as V2.
  destruct o1 as [r1 p1], o2 as [r2 p2]. cbn [Rect Pix] in *. f_equal; [congruence|].
  apply map_eq. intros [x y].
  destruct (p1 !! (x, y)) as [c1|] eqn:L1, (p2 !! (x, y)) as [c2|] eqn:L2.
  - destruct (V1 x y c1 L1) as (rgb1 & N1 & ->), (V2 x y c2 L2) as (rgb2 & N2 & ->).
    congruence.
  - destruct (P1 x y c1 L1) as (_ & Hin & tile & Ht & Hs).
    destruct (C2 tile x y Ht Hs Hin) as [c2 L2']. congruence.
  - destruct (P2 x y c2 L2) as (_ & Hin & tile & Ht & Hs).
    destruct (C1 tile x y Ht Hs Hin) as [c1 L1']. congruence.
  - reflexivity.
Qed.

Lemma toneCompression_schedule `{Math} `{Colorful} `{Conversions}
  (t : ICam06.t) (b wm : Image) (ts : list Rectangle) (s1 s2 : list nat) :
  ICam06.baseLayer t = Some b ->
  ICam06.white t = Some (rasterize WhitePoint wm) ->
  NoDup (flat_map scan ts) ->
  toneCompression t (Parallel ts s1) = toneCompression t (Parallel ts s2).
Proof.
  intros Hb Hw Hnd.
  assert (Hfresh : forall p, fresh (rasterize WhitePoint wm) p)
    by (intros p c Hc; now apply rasterize_cells in Hc).
  assert (Hwf : well_formed (rasterize WhitePoint wm))
    by (intros p c Hc; now apply rasterize_cells in Hc).
  destruct (toneCompression_cells t b _ (Parallel ts s1) Hb Hw Hfresh Hwf Hnd)
    as (r & E & HB & HC).
  destruct (toneCompression_cells t b _ (Parallel ts s2) Hb Hw Hfresh Hwf Hnd)
    as (r' & E' & HB' & HC').
  rewrite E, E'. do 3 f_equal.
  destruct r as [rb rc], r' as [rb' rc']. cbn [RBounds Cells tiles] in *.
  f_equal; [congruence|]. apply map_eq. intros p. now rewrite HC, HC'.
Qed.

Lemma normalize_schedule `{Platform} `{Math} `{Sorting} `{Colorful} `{Conversions}
  (t : ICam06.t) (m : RGBA64Image) (tp tc : list Rectangle) (fp : parallel)
  (s1 s2 s1' s2' : list nat) :
  Pix m = ∅ ->
  normalize t m (NormalizePar (Parallel tp s1) fp (Parallel tc s2))
  = normalize t m (NormalizePar (Parallel tp s1') fp (Parallel tc s2')).
Proof.
  intros HE. unfold normalize. cbn [peak_par fill_par clip_par tiles schedule].
  rewrite (peak_run_schedule t tp s1 s1').
  destruct (run (peak_exec t) s1' _ _) as [norMaxLum|]; [|reflexivity].
  cbn [mbind outcome_bind].
  destruct (fill _ _ _) as [perc|]; [|reflexivity].
  cbn [mbind outcome_bind].
  destruct (percentile (sort perc) (ICam06.MinClipping t)) as [lo|]; [|reflexivity].
  cbn [mbind outcome_bind].
  destruct (percentile (sort perc) (ICam06.MaxClipping t)) as [maxRGB|]; [|reflexivity].
  cbn [mbind outcome_bind].
  now apply clip_run_schedule.
Qed.

(** Of the five parallel passes of [Perform], only the schedule of the one
    that fills the sample table can influence what [Perform] returns: with
    tone-compression tiles that do not overlap, two runs that differ in
    the schedules of the luminance scan, of tone compression and of the
    first and last pass of [normalize] return the same raster, or both
    panic. *)
Theorem Perform_schedules `{Platform} `{Math} `{Sorting} `{Colorful} `{Conversions}
  `{Filters} (t : ICam06.t) (tl tt tp tc : list Rectangle) (fp : parallel)
  (s1 s2 s3 s4 s1' s2' s3' s4' : list nat) :
  NoDup (flat_map scan tt) ->
  Perform t (PerformPar (Parallel tl s1) (Parallel tt s2)
               (NormalizePar (Parallel tp s3) fp (Parallel tc s4)))
  = Perform t (PerformPar (Parallel tl s1') (Parallel tt s2')
                 (NormalizePar (Parallel tp s3') fp (Parallel tc s4'))).
Proof.
  intros Hnd. unfold Perform, before_toneCompression.
  cbn [luminance_par tone_par normalize_par].
  rewrite (luminance_schedule t tl s1 s1').
  erewrite (toneCompression_schedule _ _ _ tt s2 s2'); [|reflexivity|reflexivity|exact Hnd].
  destruct (toneCompression _ _) as [[[r f] t2]|]; [|reflexivity].
  f_equal. unfold after_toneCompression.
  destruct (ICam06.normalized t2) as [n|]; [|reflexivity].
  destruct (ICam06.baseLayer t2) as [b|]; [|reflexivity].
  unfold from_option, mbind, outcome_bind.
  now apply normalize_schedule.
Qed.

Lemma Perform_schedules_witness :
  @Perform Fixtures.amd64 Fixtures.math Fixtures.sorting Fixtures.colorful
    Fixtures.conversions Fixtures.filters (NewDefaultICam06 Fixtures.two_pixels)
    (PerformPar (Parallel (tiles Fixtures.columns_of_two) [])
       (Parallel (tiles Fixtures.columns_of_two) [])
       (NormalizePar (Parallel (tiles Fixtures.columns_of_two) [])
          (Fixtures.whole Fixtures.two_pixels)
          (Parallel (tiles Fixtures.columns_of_two) [])))
  = @Perform Fixtures.amd64 Fixtures.math Fixtures.sorting Fixtures.colorful
      Fixtures.conversions Fixtures.filters (NewDefaultICam06 Fixtures.two_pixels)
      (PerformPar (Parallel (tiles Fixtures.columns_of_two) [1; 0; 1]%nat)
         (Parallel (tiles Fixtures.columns_of_two) [1; 0; 1; 1; 0]%nat)
         (NormalizePar (Parallel (tiles Fixtures.columns_of_two) [1; 1]%nat)
            (Fixtures.whole Fixtures.two_pixels)
            (Parallel (tiles Fixtures.columns_of_two) [1]%nat))).
Proof.
  apply Perform_schedules.
  apply (bool_decide_unpack _). vm_compute. exact I.
Defined.

(** ** Stage 8: colliding slots of the sample table *)

(** A schedule that lets one task take all its steps first. *)
Lemma run_task_first {State Local Action : Type}
  (exec : Action -> State -> Local -> State * Local) (k : nat) (sched : list nat)
  (acts : list Action) :
  forall (ts : list (@task Local Action)) (s : State) (l : Local),
  ts !! k = Some (Task acts l) ->
  run exec (replicate (length acts) k ++ sched) ts s
  = run exec sched (<[k := Task [] (complete exec acts s l).2]> ts)
        (complete exec acts s l).1.
Proof.
  induction acts as [|a acts IH]; intros ts s l Hk; simpl.
  - now rewrite list_insert_id.
  - rewrite Hk. unfold step. cbn [pending locals].
    destruct (exec a s l) as [s' l'] eqn:E.
    rewrite (IH (<[k := Task acts l']> ts) s' l').
    + now rewrite list_insert_insert_eq.
    + apply list_lookup_insert_eq. now apply lookup_lt_Some in Hk.
Qed.

Lemma fill_pixel (normLum : Z -> Z -> outcome (float64 * float64 * float64)) (size : Z)
  (x y : Z) (r g b : float64) (perc : list float64) (l : float64 * float64 * float64) :
  size * 3 < 2 ^ 63 ->
  normLum x y = Ok (r, g, b) -> 0 <= int_mul x y < size ->
  length perc = Z.to_nat (size * 3) ->
  (complete (fill_exec normLum size) [Sample x y; PutR x y; PutG x y; PutB x y]
            (Ok perc) l).1
  = Ok (<[Z.to_nat (size * 2 + int_mul x y) := b]>
          (<[Z.to_nat (size + int_mul x y) := g]> (<[Z.to_nat (int_mul x y) := r]> perc))).
Proof.
  intros Hsize HN Hi Hlen.
  destruct (slots_in_table size (int_mul x y) Hsize Hi) as [EG EB].
  destruct l as [[r0 g0] b0]. cbn [complete fill_exec]. rewrite HN.
  cbn [complete fill_exec]. rewrite assign_Ok by lia.
  cbn [complete fill_exec]. rewrite EG, assign_Ok by (rewrite length_insert; lia).
  cbn [complete fill_exec]. rewrite EB, assign_Ok by (rewrite !length_insert; lia).
  reflexivity.
Qed.

Lemma fill_pixel_slot (size i : Z) (r g b : float64) (perc : list float64) :
  0 <= i < size -> length perc = Z.to_nat (size * 3) ->
  index (<[Z.to_nat (size * 2 + i) := b]>
           (<[Z.to_nat (size + i) := g]> (<[Z.to_nat i := r]> perc))) i = Ok r.
Proof.
  intros Hi Hlen. apply index_Ok. split; [lia|].
  rewrite !list_lookup_insert_ne by lia. apply list_lookup_insert_eq. lia.
Qed.

(** Two pixels with the same slot index (the product x * y, wrapped to
    64 bits) share their slots of the sample table, and the slot keeps the
    sample of the pixel stored last: with one tile per pixel, the table
    holds the red sample of the second pixel under the schedule that runs
    the tiles in order, and that of the first pixel under the schedule
    that lets the second tile run first.  The table, and with it the
    clipping percentiles, depends on the schedule.  (The table of size * 3
    entries fits the address space.) *)
Theorem fill_collision (normLum : Z -> Z -> outcome (float64 * float64 * float64))
  (size x1 y1 x2 y2 : Z) (r1 g1 b1 r2 g2 b2 : float64) :
  size * 3 < 2 ^ 63 ->
  0 <= int_mul x1 y1 < size -> int_mul x2 y2 = int_mul x1 y1 ->
  normLum x1 y1 = Ok (r1, g1, b1) -> normLum x2 y2 = Ok (r2, g2, b2) ->
  exists p p',
    fill normLum size
      (Parallel [mkRect x1 y1 (x1 + 1) (y1 + 1); mkRect x2 y2 (x2 + 1) (y2 + 1)] [])
      = Ok p /\
    fill normLum size
      (Parallel [mkRect x1 y1 (x1 + 1) (y1 + 1); mkRect x2 y2 (x2 + 1) (y2 + 1)]
                [1; 1; 1; 1]%nat)
      = Ok p' /\
    index p (int_mul x1 y1) = Ok r2 /\ index p' (int_mul x1 y1) = Ok r1.
Proof.
  intros Hsize Hi Heq N1 N2.
  assert (Hi2 : 0 <= int_mul x2 y2 < size) by lia.
  set (init := replicate (Z.to_nat (size * 3)) zero : list float64).
  assert (Hinit : length init = Z.to_nat (size * 3)) by apply length_replicate.
  unfold fill. cbn [tiles schedule map]. unfold fill_task. rewrite !scan_pixel.
  cbn [flat_map app fst snd]. fold init.
  eexists. eexists. split; [|split; [|split]].
  - cbn [run drain pending locals].
    rewrite (fill_pixel normLum size x1 y1 r1 g1 b1 init _ Hsize N1 Hi Hinit).
    rewrite (fill_pixel normLum size x2 y2 r2 g2 b2 _ _ Hsize N2 Hi2)
      by (now rewrite !length_insert).
    reflexivity.
  - change [1; 1; 1; 1]%nat
      with (replicate (length [Sample x2 y2; PutR x2 y2; PutG x2 y2; PutB x2 y2]) 1%nat
              ++ []).
    erewrite run_task_first by reflexivity.
    rewrite (fill_pixel normLum size x2 y2 r2 g2 b2 init _ Hsize N2 Hi2 Hinit).
    cbn [run drain pending locals list_insert insert].
    rewrite (fill_pixel normLum size x1 y1 r1 g1 b1 _ _ Hsize N1 Hi)
      by (now rewrite !length_insert).
    reflexivity.
  - rewrite <- Heq. apply fill_pixel_slot; [lia|]. now rewrite !length_insert.
  - apply fill_pixel_slot; [lia|]. now rewrite !length_insert.
Qed.

Lemma fill_collision_witness :
  exists p p',
    fill Fixtures.ramp 4 (Parallel [mkRect 1 0 (1 + 1) (0 + 1); mkRect 0 1 (0 + 1) (1 + 1)] [])
      = Ok p /\
    fill Fixtures.ramp 4
      (Parallel [mkRect 1 0 (1 + 1) (0 + 1); mkRect 0 1 (0 + 1) (1 + 1)] [1; 1; 1; 1]%nat)
      = Ok p' /\
    index p (int_mul 1 0) = Ok (of_Z 21) /\ index p' (int_mul 1 0) = Ok (of_Z 11).
Proof.
  apply (fill_collision Fixtures.ramp 4 1 0 0 1 (of_Z 11) (of_Z 12) (of_Z 13)
           (of_Z 21) (of_Z 22) (of_Z 23));
    [reflexivity | vm_compute; split; congruence | reflexivity | reflexivity | reflexivity].
Defined.

(** ** Products of small integers are exact *)

Lemma digits2_upper (p : positive) : Z.pos p < 2 ^ Z.pos (digits2_pos p).
Proof.
  induction p as [p IH|p IH|]; simpl digits2_pos; [| |simpl; lia];
    rewrite Pos2Z.inj_succ, Z.pow_succ_r by lia; lia.
Qed.

Lemma shr_53 (m : positive) :
  SpecFloat.iter_pos shr_1 53%positive (Build_shr_record (Z.pos (Pos.iter xO m 53)) false false)
  = Build_shr_record (Z.pos m) false false.
Proof. reflexivity. Qed.

Lemma round_shifted_53 (s : bool) (m : positive) (e : Z) :
  digits2_pos m = 53%positive -> -1022 <= e <= 971 ->
  binary_round_aux prec emax s (Z.pos (Pos.iter xO m 53)) (e - 53) loc_Exact
  = S754_finite s m e.
Proof.
  intros Hd He.
  pose proof (digits2_iter m 53) as HD. rewrite Hd in HD.
  pose proof (shr_53 m) as HS.
  remember (Pos.iter xO m 53) as M eqn:EM. clear EM.
  unfold binary_round_aux, shr_fexp. cbn [Zdigits2]. rewrite HD.
  replace (fexp prec emax (Z.pos (53 + 53) + (e - 53))) with e
    by (unfold fexp, emin, prec, emax; lia).
  replace (e - (e - 53)) with 53 by lia.
  unfold shr_record_of_loc, shr. rewrite HS.
  replace (e - 53 + 53) with e by lia.
  cbn [shr_m loc_of_shr_record round_nearest_even Zdigits2].
  rewrite Hd, (fexp_normal e), Z.sub_diag by lia.
  cbn [shr_m]. unfold prec, emax.
  destruct (Z.leb_spec e (1024 - 53)); [reflexivity | lia].
Qed.

Lemma mantissa_range (m : positive) :
  digits2_pos m = 53%positive -> 2 ^ 52 <= Z.pos m < 2 ^ 53.
Proof.
  intros Hd. pose proof (digits2_lower m) as Hl. pose proof (digits2_upper m) as Hu.
  rewrite Hd in Hl, Hu. split; [exact Hl | exact Hu].
Qed.

Lemma mul_small (a b : positive) :
  Z.pos a * Z.pos b < 2 ^ 53 ->
  mul (of_Z (Z.pos a)) (of_Z (Z.pos b)) = of_Z (Z.pos a * Z.pos b).
Proof.
  intros Hab.
  assert (Ha : Z.pos a < 2 ^ 53) by nia.
  assert (Hb : Z.pos b < 2 ^ 53) by nia.
  destruct (of_Z_small a Ha) as (m1 & e1 & -> & D1 & E1 & M1).
  destruct (of_Z_small b Hb) as (m2 & e2 & -> & D2 & E2 & M2).
  change (Z.pos a * Z.pos b) with (Z.pos (a * b)) in *.
  destruct (of_Z_small (a * b) Hab) as (mq & eq & -> & Dq & Eq & Mq).
  pose proof (mantissa_range _ D1) as R1. pose proof (mantissa_range _ D2) as R2.
  pose proof (mantissa_range _ Dq) as Rq.
  assert (HM : Z.pos (m1 * m2) = Z.pos (a * b) * 2 ^ (- e1 - e2)).
  { rewrite Pos2Z.inj_mul, M1, M2, (Pos2Z.inj_mul a b).
    replace (- e1 - e2) with (- e1 + - e2) by lia. rewrite Z.pow_add_r by lia. ring. }
  assert (RM : 2 ^ 104 <= Z.pos (m1 * m2) < 2 ^ 106).
  { rewrite Pos2Z.inj_mul. change (2 ^ 104) with (2 ^ 52 * 2 ^ 52).
    change (2 ^ 106) with (2 ^ 53 * 2 ^ 53). nia. }
  assert (Hk : - e1 - e2 = - eq + 52 \/ - e1 - e2 = - eq + 53).
  { destruct (Z.le_gt_cases (- e1 - e2) (- eq + 51)) as [Hle|Hgt].
    - exfalso.
      assert (2 ^ (- e1 - e2) <= 2 ^ (- eq + 51)) by (apply Z.pow_le_mono_r; lia).
      rewrite Z.pow_add_r in H by lia.
      assert (Z.pos (m1 * m2) <= Z.pos mq * 2 ^ 51).
      { rewrite HM, Mq. rewrite <- Z.mul_assoc. apply Z.mul_le_mono_nonneg_l; lia. }
      change (2 ^ 104) with (2 ^ 53 * 2 ^ 51) in RM. nia.
    - destruct (Z.le_gt_cases (- eq + 54) (- e1 - e2)) as [Hge|Hlt]; [|lia].
      exfalso.
      assert (2 ^ (- eq + 54) <= 2 ^ (- e1 - e2)) by (apply Z.pow_le_mono_r; lia).
      rewrite Z.pow_add_r in H by lia.
      assert (Z.pos mq * 2 ^ 54 <= Z.pos (m1 * m2)).
      { rewrite HM, Mq. rewrite <- Z.mul_assoc. apply Z.mul_le_mono_nonneg_l; lia. }
      change (2 ^ 106) with (2 ^ 52 * 2 ^ 54) in RM. nia. }
  unfold mul, SFmul. cbn [xorb].
  destruct Hk as [Hk | Hk].
  - assert (EM : (m1 * m2)%positive = Pos.iter xO mq 52).
    { apply Pos2Z.inj. rewrite iter_xO_value, HM, Hk, Mq.
      rewrite Z.pow_add_r by lia. ring. }
    rewrite EM. replace (e1 + e2) with (eq - 52) by lia. apply round_shifted; lia.
  - assert (EM : (m1 * m2)%positive = Pos.iter xO mq 53).
    { apply Pos2Z.inj. rewrite iter_xO_value, HM, Hk, Mq.
      rewrite Z.pow_add_r by lia. ring. }
    rewrite EM. replace (e1 + e2) with (eq - 53) by lia. apply round_shifted_53; lia.
Qed.

Lemma trunc_of_Z_small (p : positive) :
  Z.pos p < 2 ^ 53 -> trunc (of_Z (Z.pos p)) = Some (Z.pos p).
Proof.
  intros Hp. destruct (of_Z_small p Hp) as (m & e & -> & Hd & He & Hm).
  unfold trunc. rewrite Hm. f_equal.
  destruct (Z.leb_spec 0 e).
  - replace e with 0 by lia. simpl. lia.
  - apply Z.div_mul. apply Z.pow_nonzero; lia.
Qed.

(** ** Package hdrcolor: standard colours through the RGB model *)

Lemma uint32_scaled `{Platform32} (r : Z) :
  0 <= r <= 65535 -> uint32 (mul (of_Z r) (of_Z 65535)) = r * 65535.
Proof.
  intros Hr. destruct r as [|p|p]; [reflexivity | | lia].
  rewrite (mul_small p 65535) by (change (2 ^ 53) with 9007199254740992; lia).
  unfold uint32. change (Z.pos p * Z.pos 65535) with (Z.pos (p * 65535)).
  rewrite trunc_of_Z_small
    by (rewrite Pos2Z.inj_mul; change (2 ^ 53) with 9007199254740992; lia).
  rewrite Pos2Z.inj_mul.
  destruct (Z.leb_spec 0 (Z.pos p * Z.pos 65535)); [|lia].
  destruct (Z.ltb_spec (Z.pos p * Z.pos 65535) (2 ^ 32)); [reflexivity|].
  change (2 ^ 32) with 4294967296 in *. lia.
Qed.

(** [rgbModel] does not rescale a standard colour: its 16-bit channels
    become the channels of the RGB colour as they are, in [0, 65535]
    instead of [0, 1], so that [RGBA] of the converted colour returns
    every channel multiplied by 0xFFFF, outside [0, 0xffff] for a channel
    of 2 or more. *)
Theorem rgbModel_standard_colour `{Platform32} `{Colorful} (r g b a : Z) :
  0 <= r <= 65535 -> 0 <= g <= 65535 -> 0 <= b <= 65535 ->
  exists rgb,
    rgbModel (LDR r g b a) = HDR (CRGB rgb) /\
    HDRRGBA rgb = Quad (of_Z r) (of_Z g) (of_Z b) alpha_opaque /\
    RGB_RGBA rgb = Rgba32 (r * 65535) (g * 65535) (b * 65535) 65535.
Proof.
  intros Hr Hg Hb. eexists. split; [reflexivity|]. split; [reflexivity|].
  unfold RGB_RGBA. cbn [RGB_R RGB_G RGB_B].
  now rewrite !uint32_scaled.
Qed.

Lemma rgbModel_standard_colour_witness :
  exists rgb,
    @rgbModel Fixtures.colorful (LDR 65535 2 0 65535) = HDR (CRGB rgb) /\
    @RGB_RGBA Fixtures.zero32 rgb = Rgba32 4294836225 131070 0 65535.
Proof.
  destruct (@rgbModel_standard_colour Fixtures.zero32 Fixtures.colorful 65535 2 0 65535)
    as (rgb & E & _ & R); [lia | lia | lia |].
  exists rgb. split; [exact E | exact R].
Defined.

(** ** Stage 8: the slots of the sample table that no pixel writes *)

Lemma fill_exec_untouched (normLum : Z -> Z -> outcome (float64 * float64 * float64))
  (size i : Z) (a : fill_action) (p p' : list float64) (l : float64 * float64 * float64)
  (j : Z) :
  size * 3 < 2 ^ 63 ->
  0 <= i < size -> j = i \/ j = size + i \/ j = size * 2 + i ->
  match a with
  | Sample x y | PutR x y | PutG x y | PutB x y =>
      0 <= int_mul x y < size /\ int_mul x y <> i
  end ->
  (fill_exec normLum size a (Ok p) l).1 = Ok p' ->
  p' !! Z.to_nat j = p !! Z.to_nat j.
Proof.
  intros Hsize Hi Hj Ha. destruct l as [[r g] b].
  destruct a as [x y|x y|x y|x y]; cbn [fill_exec].
  - destruct (normLum x y); [|discriminate]. now intros [= <-].
  - cbn [fst]. unfold assign. destruct (_ && _); [|discriminate]. intros [= <-].
    apply list_lookup_insert_ne. lia.
  - destruct (slots_in_table size (int_mul x y) Hsize (proj1 Ha)) as [-> _].
    cbn [fst]. unfold assign. destruct (_ && _); [|discriminate]. intros [= <-].
    apply list_lookup_insert_ne. lia.
  - destruct (slots_in_table size (int_mul x y) Hsize (proj1 Ha)) as [_ ->].
    cbn [fst]. unfold assign. destruct (_ && _); [|discriminate]. intros [= <-].
    apply list_lookup_insert_ne. lia.
Qed.

(** A slot of the sample table whose index, within its channel, is the
    slot index (the product x * y, wrapped to 64 bits) of no pixel of the
    tiles is never written: when the second pass of [normalize] returns,
    the table holds there, for each of the three channels, the 0 it was
    allocated with instead of a sample, under every schedule.  (The table
    of size * 3 entries fits the address space.) *)
Theorem fill_unwritten (normLum : Z -> Z -> outcome (float64 * float64 * float64))
  (size : Z) (par : parallel) (perc : percentiles) (i : Z) :
  size * 3 < 2 ^ 63 ->
  fill normLum size par = Ok perc ->
  0 <= i < size ->
  (forall tile x y, tile ∈ tiles par -> (x, y) ∈ scan tile -> int_mul x y <> i) ->
  index perc i = Ok zero /\
  index perc (size + i) = Ok zero /\
  index perc (size * 2 + i) = Ok zero.
Proof.
  intros Hsize Hfill Hi Hfree.
  pose proof (proj1 (fill_defined normLum size par Hsize) (ex_intro _ perc Hfill)) as Hdef.
  assert (Hslot : forall j, j = i \/ j = size + i \/ j = size * 2 + i ->
                    perc !! Z.to_nat j = Some zero).
  { intros j Hj. unfold fill in Hfill.
    destruct (run_Inv (fill_exec normLum size)
      (fun s ts => (forall p, s = Ok p -> p !! Z.to_nat j = Some zero) /\
         Forall (fun t => Forall (fun a =>
           match a with
           | Sample x y | PutR x y | PutG x y | PutB x y =>
               0 <= int_mul x y < size /\ int_mul x y <> i
           end) (pending t)) ts))
      with (sched := schedule par) (ts := map fill_task (tiles par))
           (s := Ok (replicate (Z.to_nat (size * 3)) zero) : outcome percentiles)
      as (ts' & _ & Hfinal & _).
    - intros s ts k a rest l [Hs Hall] Hk.
      pose proof (Forall_lookup_1 _ _ _ _ Hall Hk) as Hacts. cbn [pending] in Hacts.
      apply Forall_cons in Hacts as [Ha Hrest].
      split; [|apply Forall_insert; assumption].
      intros p' E. destruct s as [p|]; [|discriminate].
      transitivity (p !! Z.to_nat j);
        [exact (fill_exec_untouched normLum size i a p p' l j Hsize Hi Hj Ha E)
        | now apply Hs].
    - split.
      + intros p [= <-]. apply lookup_replicate_2. lia.
      + apply Forall_forall. intros t Ht.
        apply list_elem_of_fmap in Ht as (tile & -> & Ht).
        apply Forall_forall. intros a Ha. unfold fill_task in Ha. cbn [pending] in Ha.
        rewrite flat_map_bind in Ha.
        apply list_elem_of_bind in Ha as ([x y] & Ha & Hp).
        destruct (Hdef tile x y Ht Hp) as [Hin _]. pose proof (Hfree tile x y Ht Hp).
        cbn [fst snd] in Ha.
        repeat (apply elem_of_cons in Ha as [-> | Ha]; [split; assumption|]).
        now apply elem_of_nil in Ha.
    - now apply Hfinal. }
  repeat split; apply index_Ok; (split; [lia|]); apply Hslot; auto.
Qed.

Lemma fill_unwritten_witness :
  exists perc,
    fill Fixtures.ramp 4 (Parallel [mkRect 0 0 2 2] []) = Ok perc /\
    index perc 3 = Ok zero /\ index perc (4 + 3) = Ok zero /\ index perc (4 * 2 + 3) = Ok zero.
Proof.
  destruct (fill Fixtures.ramp 4 (Parallel [mkRect 0 0 2 2] [])) as [perc|] eqn:E;
    [|vm_compute in E; discriminate].
  exists perc. split; [reflexivity|].
  apply (fill_unwritten Fixtures.ramp 4 (Parallel [mkRect 0 0 2 2] []) perc 3 eq_refl E);
    [lia|].
  intros tile x y Ht Hp. apply list_elem_of_singleton in Ht. subst tile.
  apply elem_of_scan in Hp. unfold In in Hp. cbn [MinX MinY MaxX MaxY] in Hp.
  rewrite !andb_true_iff, !Z.leb_le, !Z.ltb_lt in Hp.
  assert (Hx : x = 0 \/ x = 1) by lia. assert (Hy : y = 0 \/ y = 1) by lia.
  destruct Hx as [-> | ->], Hy as [-> | ->]; vm_compute; discriminate.
Defined.
